(** * KaTeX parser (Parser.js) and the [\zInput] function: a shallow embedding

    The recursive-descent parser of the repository is translated method by
    method.  The parser object is an explicit state ([Parser]) threaded
    through a state-and-exception monad [M]; a JavaScript [throw] keeps the
    state reached at the point of the throw, so that what an exception
    leaves behind (mode, catcodes) can be observed.

    The methods call one another, and the handlers of the function
    registry call them back through [context.parser]: the methods that take
    part in this recursion are the fields of a record [Methods], every
    method body takes the record it calls ([this]), and [parser fuel] is the
    parser object with [fuel] levels of calls ahead of it.  The [while]
    loops take a number of steps of their own.  A call that exhausts its
    allowance answers [OutOfFuel], which is neither a value nor a
    [ParseError]; an answer that is not [OutOfFuel] is the same with every
    larger allowance ([parser_mono]).

    What the parser imports and the repository does not hold here (the
    function registry, the symbol tables, the settings, the macro expander
    and its lexer) is a parameter: the record [Tables].  [Demo] is one
    instance, used to run the parser on the inputs the properties name.

    Strings: a JavaScript string is modelled as a Rocq [string], one
    character per UTF-16 code unit (code units above 255 are outside the
    model).  Numbers: IEEE 754 doubles, a finite one as the rational it
    equals, with the negative zero, the infinities and [NaN]; a decimal
    or an integer read from a string is rounded to the nearest double. *)

From Stdlib Require Import String Ascii List ZArith QArith Bool Arith Lia.
From Stdlib Require Import DecimalString.
From Stdlib Require Qcanon.
Import ListNotations.
Open Scope string_scope.
Open Scope list_scope.
Open Scope nat_scope.

(** string concatenation, JavaScript's [+] on strings *)
Infix "+++" := String.append (right associativity, at level 60).

Set Implicit Arguments.
#[local] Set Warnings "-register-all".

(** ** Modes, source locations, tokens *)

Inductive Mode : Type := math | text.

Definition Mode_eqb (a b : Mode) : bool :=
  match a, b with
  | math, math | text, text => true
  | _, _ => false
  end.

Definition Mode_name (m : Mode) : string :=
  match m with math => "math" | text => "text" end.

Module SourceLocation.
(** Modelled from the spec: SourceLocation.js is not among the sources.  A
    source range is a span of offsets. *)
Record t : Type := mk { start : nat; end_ : nat }.

(** Modelled from the spec: [SourceLocation.range(first, second)], the
    range from the start of the first location to the end of the second,
    absent when either is absent. *)
Definition range (first : option t) (second : option t) : option t :=
  match first, second with
  | Some a, Some b => Some (mk (start a) (end_ b))
  | _, _ => None
  end.
End SourceLocation.

Module Token.
(** Modelled from the spec: Token.js is not among the sources.  A token
    bears a text payload and a source range. *)
Record t : Type := mk { text : string; loc : option SourceLocation.t }.

(** Modelled from the spec: [range(endToken, text)] returns a composite
    token spanning both positions with the given text. *)
Definition range (startToken endToken : t) (txt : string) : t :=
  mk txt (SourceLocation.range (loc startToken) (loc endToken)).
End Token.

(** ** Numbers

    A JavaScript Number is an IEEE 754 double: [Num q] is the finite
    double equal to the rational [q] (the positive zero for [q = 0]). *)

Inductive number : Type :=
| Num (q : Q)
| NegZero
| Infinity (negative : bool)
| NaN.

(** [2 ^ k], and 1 for a negative [k] *)
Definition pow2 (k : Z) : Z := (2 ^ Z.max 0 k)%Z.

(** The integer nearest to [num / den], the even one of two that are
    equally near. *)
Definition round_half_even (num den : Z) : Z :=
  let q := (num / den)%Z in
  let r := (num mod den)%Z in
  if (den <? 2 * r)%Z || ((2 * r =? den)%Z && Z.odd q) then (q + 1)%Z else q.

(** The Number value of a rational of the given sign and of magnitude
    [magnitude >= 0]: the double nearest to it, of even significand when
    two are equally near (53 bits of significand, exponents down to
    [2 ^ -1074]); a magnitude that rounds to [2 ^ 1024] or more gives the
    infinity of the sign, one that rounds to nothing the zero of the
    sign. *)
Definition Number_value (negative : bool) (magnitude : Q) : number :=
  let a := Qnum magnitude in
  let b := Z.pos (Qden magnitude) in
  if (a <=? 0)%Z then (if negative then NegZero else Num 0)
  else
    let e0 := (Z.log2 a - Z.log2 b)%Z in
    let e := if (a * pow2 (- e0) <? b * pow2 e0)%Z then (e0 - 1)%Z else e0 in
    let u := Z.max (e - 52) (-1074) in
    let m := round_half_even (a * pow2 (- u)) (b * pow2 u) in
    if (m =? 0)%Z then (if negative then NegZero else Num 0)
    else if (0 <=? u)%Z && (2 ^ 1024 <=? m * pow2 u)%Z then Infinity negative
    else
      let v := Qred (Qmake (m * pow2 u) (Z.to_pos (pow2 (- u)))) in
      Num (if negative then Qopp v else v).

Record Measurement : Type := mkMeasurement { m_number : number; m_unit : string }.

(** ** Parse nodes

    [AnyParseNode] is the tagged union of parseNode.js as far as the
    parser builds or inspects it; [Other] stands for every node kind that
    only function handlers build (its properties are kept as a list so that
    [\limits] can assign to them). *)

Inductive AtomFamily : Type := bin | close | inner | open | punct | rel.
Inductive NonAtom : Type := accent_token | mathord | op_token | spacing | textord.

(** Modelled from the spec: the [Group] type of symbols.js (not among the
    sources): an atom family or a leaf kind. *)
Inductive Group : Type :=
| GAtom (family : AtomFamily)
| GNonAtom (kind : NonAtom).

Definition NonAtom_name (k : NonAtom) : string :=
  match k with
  | accent_token => "accent-token"
  | mathord => "mathord"
  | op_token => "op-token"
  | spacing => "spacing"
  | textord => "textord"
  end.

Inductive PropValue : Type :=
| PBool (b : bool)
| PStr (s : string)
| PNum (x : number)
| PTok (t : Token.t).

Inductive AnyParseNode : Type :=
| Ordgroup (mode : Mode) (loc : option SourceLocation.t)
           (body : list AnyParseNode) (semisimple : bool)
| Supsub (mode : Mode) (base sup sub : option AnyParseNode)
| Symbol (type : NonAtom) (mode : Mode) (loc : option SourceLocation.t)
         (txt : string)
| Atom (mode : Mode) (family : AtomFamily) (loc : option SourceLocation.t)
       (txt : string)
| TextNode (mode : Mode) (body : list AnyParseNode)
| Color (mode : Mode) (color : string) (body : list AnyParseNode)
| Styling (mode : Mode) (style : string) (body : list AnyParseNode)
| Raw (mode : Mode) (str : string)
| ColorToken (mode : Mode) (color : string)
| Size (mode : Mode) (value : Measurement) (isBlank : bool)
| Url (mode : Mode) (url : string)
| Verb (mode : Mode) (body : string) (star : bool)
| Accent (mode : Mode) (loc : option SourceLocation.t) (label : string)
         (isStretchy isShifty : bool) (base : AnyParseNode)
| Infix (mode : Mode) (replaceWith : string) (token : option Token.t)
| ZInput (mode : Mode) (index : number) (width : option Measurement)
| Other (type : string) (mode : Mode) (props : list (string * PropValue))
        (children : list AnyParseNode).

(** [node.type] *)
Definition node_type (n : AnyParseNode) : string :=
  match n with
  | Ordgroup _ _ _ _ => "ordgroup"
  | Supsub _ _ _ _ => "supsub"
  | Symbol k _ _ _ => NonAtom_name k
  | Atom _ _ _ _ => "atom"
  | TextNode _ _ => "text"
  | Color _ _ _ => "color"
  | Styling _ _ _ => "styling"
  | Raw _ _ => "raw"
  | ColorToken _ _ => "color-token"
  | Size _ _ _ => "size"
  | Url _ _ => "url"
  | Verb _ _ _ => "verb"
  | Accent _ _ _ _ _ _ => "accent"
  | Infix _ _ _ => "infix"
  | ZInput _ _ _ => "zInput"
  | Other t _ _ _ => t
  end.

(** [node.mode] *)
Definition node_mode (n : AnyParseNode) : Mode :=
  match n with
  | Ordgroup m _ _ _ | Supsub m _ _ _ | Symbol _ m _ _ | Atom m _ _ _
  | TextNode m _ | Color m _ _ | Styling m _ _ | Raw m _ | ColorToken m _
  | Size m _ _ | Url m _ | Verb m _ _ | Accent m _ _ _ _ _ | Infix m _ _
  | ZInput m _ _ | Other _ m _ _ => m
  end.

(** [node.loc] *)
Definition node_loc (n : AnyParseNode) : option SourceLocation.t :=
  match n with
  | Ordgroup _ l _ _ | Symbol _ _ l _ | Atom _ _ l _ | Accent _ l _ _ _ _ => l
  | _ => None
  end.

Fixpoint lookup_prop (k : string) (ps : list (string * PropValue))
  : option PropValue :=
  match ps with
  | [] => None
  | (k', v) :: rest => if String.eqb k k' then Some v else lookup_prop k rest
  end.

Fixpoint assign_prop (k : string) (v : PropValue)
         (ps : list (string * PropValue)) : list (string * PropValue) :=
  match ps with
  | [] => [(k, v)]
  | (k', v') :: rest =>
      if String.eqb k k' then (k, v) :: rest else (k', v') :: assign_prop k v rest
  end.

(** [node.text]; [None] is JavaScript's [undefined]. *)
Definition node_text (n : AnyParseNode) : option string :=
  match n with
  | Symbol _ _ _ t | Atom _ _ _ t => Some t
  | Other _ _ ps _ =>
      match lookup_prop "text" ps with Some (PStr s) => Some s | _ => None end
  | _ => None
  end.

(** [node.replaceWith] *)
Definition node_replaceWith (n : AnyParseNode) : option string :=
  match n with
  | Infix _ r _ => Some r
  | Other _ _ ps _ =>
      match lookup_prop "replaceWith" ps with
      | Some (PStr s) => Some s
      | _ => None
      end
  | _ => None
  end.

(** [node.token] *)
Definition node_token (n : AnyParseNode) : option Token.t :=
  match n with
  | Infix _ _ t => t
  | Other _ _ ps _ =>
      match lookup_prop "token" ps with Some (PTok t) => Some t | _ => None end
  | _ => None
  end.

(** [node.value] and [node.string]; [None] is [undefined] *)
Definition node_value (n : AnyParseNode) : option Measurement :=
  match n with
  | Size _ v _ => Some v
  | _ => None
  end.

Definition node_string (n : AnyParseNode) : option string :=
  match n with
  | Raw _ s => Some s
  | Other _ _ ps _ =>
      match lookup_prop "string" ps with Some (PStr s) => Some s | _ => None end
  | _ => None
  end.

(** [node.alwaysHandleSupSub], read for its truth value *)
Definition node_alwaysHandleSupSub (n : AnyParseNode) : bool :=
  match n with
  | Other _ _ ps _ =>
      match lookup_prop "alwaysHandleSupSub" ps with
      | Some (PBool b) => b
      | _ => false
      end
  | _ => false
  end.

(** [node.k = v] on a node that carries free-form properties *)
Definition node_assign (k : string) (v : PropValue) (n : AnyParseNode)
  : AnyParseNode :=
  match n with
  | Other t m ps ch => Other t m (assign_prop k v ps) ch
  | _ => n
  end.

(** JavaScript truth value of a string that may be [undefined] *)
Definition truthy (s : option string) : bool :=
  match s with
  | Some s' => negb (String.eqb s' "")
  | None => false
  end.

(** ** String operations and the regular expressions of the parser

    Each regular expression of Parser.js is a literal, so each is
    transcribed as the function deciding (or extracting) its matches. *)

Definition code (c : ascii) : nat := nat_of_ascii c.

Definition is_digit (c : ascii) : bool := (48 <=? code c) && (code c <=? 57).
Definition is_lower (c : ascii) : bool := (97 <=? code c) && (code c <=? 122).
Definition is_upper (c : ascii) : bool := (65 <=? code c) && (code c <=? 90).
Definition is_letter (c : ascii) : bool := is_lower c || is_upper c.
Definition is_hex (c : ascii) : bool :=
  is_digit c || ((97 <=? code c) && (code c <=? 102))
             || ((65 <=? code c) && (code c <=? 70)).
Definition is_space (c : ascii) : bool := Ascii.eqb c " ".

Definition str1 (c : ascii) : string := String c EmptyString.

(** [s[0]], absent on the empty string *)
Definition first_char (s : string) : option ascii :=
  match s with
  | EmptyString => None
  | String c _ => Some c
  end.

(** the characters of a string, each as a one-character string *)
Fixpoint chars (s : string) : list string :=
  match s with
  | EmptyString => []
  | String c r => str1 c :: chars r
  end.

Fixpoint all_chars (p : ascii -> bool) (s : string) : bool :=
  match s with
  | EmptyString => true
  | String c r => p c && all_chars p r
  end.

Fixpoint some_char (p : ascii -> bool) (s : string) : bool :=
  match s with
  | EmptyString => false
  | String c r => p c || some_char p r
  end.

(** longest prefix of characters in a class, and the rest *)
Fixpoint span (p : ascii -> bool) (s : string) : string * string :=
  match s with
  | EmptyString => (EmptyString, EmptyString)
  | String c r =>
      if p c then let (a, b) := span p r in (String c a, b)
      else (EmptyString, s)
  end.

Definition drop_spaces (s : string) : string := snd (span is_space s).

Definition nonempty (s : string) : bool := negb (String.eqb s "").

(** [s.slice(n)] *)
Definition slice_from (n : nat) (s : string) : string :=
  substring n (String.length s - n) s.

(** [/[^{}[\]]/.test(s)] *)
Definition notBraceRegex_test (s : string) : bool :=
  some_char (fun c => negb (Ascii.eqb c "{" || Ascii.eqb c "}"
                            || Ascii.eqb c "[" || Ascii.eqb c "]")) s.

(** [/^\\verb[^a-zA-Z]/.test(s)] *)
Definition verbRegex_test (s : string) : bool :=
  prefix "\verb" s &&
  match get 5 s with
  | Some c => negb (is_letter c)
  | None => false
  end.

(** [/^(#[a-f0-9]{3}|#?[a-f0-9]{6}|[a-z]+)$/i.exec(s)]: the whole string
    when it matches *)
Definition colorRegex_exec (s : string) : option string :=
  let hexes n r := (String.length r =? n) && all_chars is_hex r in
  let ok :=
    match s with
    | String "#" r => hexes 3 r || hexes 6 r
    | _ => hexes 6 s || (nonempty s && all_chars is_letter s)
    end in
  if ok then Some s else None.

(** [/^[0-9a-f]{6}$/i.test(s)] *)
Definition hex6Regex_test (s : string) : bool :=
  (String.length s =? 6) && all_chars is_hex s.

(** [s.replace(/\\([#$%&~_^{}])/g, '$1')] *)
Definition is_url_escapable (c : ascii) : bool :=
  some_char (Ascii.eqb c) "#$%&~_^{}".

Fixpoint unescapeUrl (s : string) : string :=
  match s with
  | EmptyString => EmptyString
  | String c rest =>
      match rest with
      | String d r =>
          if Ascii.eqb c "\" && is_url_escapable d
          then String d (unescapeUrl r)
          else String c (unescapeUrl rest)
      | EmptyString => s
      end
  end.

Definition strip_sign (s : string) : string * string :=
  match s with
  | String c r =>
      if Ascii.eqb c "-" || Ascii.eqb c "+" then (str1 c, r) else (EmptyString, s)
  | EmptyString => (EmptyString, EmptyString)
  end.

(** [.test(s)] of the size expression of [parseSizeGroup], written here
    with [_] for the space character and a blank before each closing
    parenthesis: [/^[-+]?_*(?:$|\d+|\d+\.\d*|\.\d* )_*[a-z]{0,2}_*$/] *)
Definition sizeRegex_test (s : string) : bool :=
  let s2 := drop_spaces (snd (strip_sign s)) in
  if String.eqb s2 "" then true
  else
    let (d1, r1) := span is_digit s2 in
    let after_number :=
      match r1 with
      | String "." r2 => Some (snd (span is_digit r2))
      | _ => if nonempty d1 then Some r1 else None
      end in
    match after_number with
    | None => false
    | Some r =>
        let (u, r') := span is_lower (drop_spaces r) in
        (String.length u <=? 2) && all_chars is_space r'
    end.

(** One attempt, at the start of [s], of the expression that splits a size
    ([_] is the space character):
    [/([-+]?)_*(\d+(?:\.\d* )?|\.\d+)_*([a-z]{2})/]; the three captured
    groups. *)
Definition sizeMatch_at (s : string) : option (string * string * string) :=
  let (sign, s1) := strip_sign s in
  let (d1, r1) := span is_digit (drop_spaces s1) in
  let magnitude :=
    match r1 with
    | String "." r2 =>
        let (d2, r3) := span is_digit r2 in
        if nonempty d1 then Some (d1 +++ "." +++ d2, r3)
        else if nonempty d2 then Some ("." +++ d2, r3)
        else None
    | _ => if nonempty d1 then Some (d1, r1) else None
    end in
  match magnitude with
  | None => None
  | Some (mag, r) =>
      match drop_spaces r with
      | String a (String b _) =>
          if is_lower a && is_lower b
          then Some (sign, mag, String a (String b EmptyString))
          else None
      | _ => None
      end
  end.

(** [.exec(s)] of the same expression: the leftmost position that matches *)
Fixpoint sizeMatch_exec (s : string) : option (string * string * string) :=
  match sizeMatch_at s with
  | Some m => Some m
  | None =>
      match s with
      | String _ r => sizeMatch_exec r
      | EmptyString => None
      end
  end.

(** value of a run of digits in a radix *)
Definition digit_value (c : ascii) : Z :=
  if is_digit c then Z.of_nat (code c - 48)
  else if is_lower c then Z.of_nat (code c - 87)
  else Z.of_nat (code c - 55).

Fixpoint digits_value (radix acc : Z) (s : string) : Z :=
  match s with
  | EmptyString => acc
  | String c r => digits_value radix (radix * acc + digit_value c)%Z r
  end.

(** [+(sign + magnitude)] for a sign and a magnitude captured by the
    size expression (digits with at most one point): the double nearest
    to the decimal *)
Definition toNumber (sign magnitude : string) : number :=
  let (ip, r) := span is_digit magnitude in
  let fp := match r with String _ f => f | EmptyString => EmptyString end in
  let n := digits_value 10 0 (ip +++ fp) in
  let q := Qred (Qmake n (Z.to_pos (10 ^ Z.of_nat (String.length fp)))) in
  Number_value (String.eqb sign "-") q.

(** JavaScript's [parseInt(s)] with no radix argument: leading white space
    is skipped, a sign is read, a [0x] prefix selects radix 16, and the
    longest run of digits is read; no digit gives [NaN], and the integer
    read is returned as the double nearest to it ([-0] for a zero after a
    minus sign). *)
Definition is_js_whitespace (c : ascii) : bool :=
  let n := code c in
  ((9 <=? n) && (n <=? 13)) || (n =? 32) || (n =? 160).

Definition parseInt (s : string) : number :=
  let (sign, s1) := strip_sign (snd (span (fun c => is_js_whitespace c) s)) in
  let (radix, s2) :=
    if prefix "0x" s1 || prefix "0X" s1 then (16%Z, slice_from 2 s1)
    else (10%Z, s1) in
  let ds := fst (span (if (radix =? 16)%Z then is_hex else is_digit) s2) in
  if nonempty ds then
    let n := digits_value radix 0 ds in
    Number_value (String.eqb sign "-") (inject_Z n)
  else NaN.

(** ** Errors, outcomes *)

Inductive Error : Type :=
| ParseError (message : string) (token : option Token.t)
| JsError (message : string).

(** What running a method gives: a value, a thrown exception, or no answer
    within the allotted number of steps. *)
Inductive Outcome (A : Type) : Type :=
| Ok (a : A)
| Throw (e : Error)
| OutOfFuel.

Arguments Ok {A} a.
Arguments Throw {A} e.
Arguments OutOfFuel {A}.

Definition message_of (e : Error) : string :=
  match e with
  | ParseError m _ => m
  | JsError m => m
  end.

(** ** The parser object and its collaborators *)

Section Source.

(** The input still to be read by the lexer behind the macro expander. *)
Variable Src : Type.

(** Modelled from the spec: MacroExpander.js and Lexer.js are not among
    the sources.  The token interface is notified of mode changes, brackets
    macro-definition scopes with beginGroup/endGroup, holds a macro table
    that supports [set], and exposes the lexer's catcode table. *)
Record MacroExpander : Type := mkMacroExpander {
  me_mode : Mode;
  me_groups : Z;
  me_catcodes : string -> option Z;
  me_macros : list (string * string);
  me_source : Src
}.

Record Parser : Type := mkParser {
  mode : Mode;
  gullet : MacroExpander;
  leftrightDepth : Z;
  nextToken : option Token.t
}.

(** Modelled from the spec: Settings.js is not among the sources.  The
    settings the parser consumes; [strict] is the truth value of the
    strictness policy, and [reportNonstrict] either returns or raises. *)
Record Settings : Type := mkSettings {
  globalGroup : bool;
  colorIsTextColor : bool;
  throwOnError : bool;
  strict : bool;
  errorColor : string;
  reportNonstrict : string -> string -> Token.t -> option Error
}.

(** A method: a function of the parser object that returns or throws and
    leaves the object in a new state. *)
Definition M (A : Type) : Type := Parser -> Outcome A * Parser.

Definition ret {A} (a : A) : M A := fun p => (Ok a, p).

Definition bind {A B} (m : M A) (k : A -> M B) : M B :=
  fun p =>
    match m p with
    | (Ok a, p') => k a p'
    | (Throw e, p') => (Throw e, p')
    | (OutOfFuel, p') => (OutOfFuel, p')
    end.

Definition throw {A} (e : Error) : M A := fun p => (Throw e, p).
Definition diverge {A} : M A := fun p => (OutOfFuel, p).
Definition gets {A} (f : Parser -> A) : M A := fun p => (Ok (f p), p).
Definition modify (f : Parser -> Parser) : M unit := fun p => (Ok tt, f p).
Definition when (b : bool) (m : M unit) : M unit := if b then m else ret tt.

Definition set_mode (m : Mode) (p : Parser) : Parser :=
  mkParser m (gullet p) (leftrightDepth p) (nextToken p).
Definition set_gullet (g : MacroExpander) (p : Parser) : Parser :=
  mkParser (mode p) g (leftrightDepth p) (nextToken p).
Definition set_nextToken (t : option Token.t) (p : Parser) : Parser :=
  mkParser (mode p) (gullet p) (leftrightDepth p) t.

(** The operations of the token interface that the parser calls. *)
Definition gullet_switchMode (m : Mode) (g : MacroExpander) : MacroExpander :=
  mkMacroExpander m (me_groups g) (me_catcodes g) (me_macros g) (me_source g).

Definition gullet_beginGroup (g : MacroExpander) : MacroExpander :=
  mkMacroExpander (me_mode g) (me_groups g + 1) (me_catcodes g) (me_macros g)
                  (me_source g).

Definition gullet_endGroup (g : MacroExpander) : MacroExpander :=
  mkMacroExpander (me_mode g) (me_groups g - 1) (me_catcodes g) (me_macros g)
                  (me_source g).

Definition lexer_setCatcode (c : string) (v : Z) (g : MacroExpander)
  : MacroExpander :=
  mkMacroExpander (me_mode g) (me_groups g)
    (fun k => if String.eqb k c then Some v else me_catcodes g k)
    (me_macros g) (me_source g).

Definition macros_set (name expansion : string) (g : MacroExpander)
  : MacroExpander :=
  mkMacroExpander (me_mode g) (me_groups g) (me_catcodes g)
    ((name, expansion) :: me_macros g) (me_source g).

(** ** The function registry *)

Inductive ArgType : Type :=
| arg_color | arg_size | arg_url | arg_raw | arg_original | arg_hbox
| arg_mode (m : Mode)
| arg_unknown (name : string).

Record FunctionContext : Type := mkContext {
  funcName : string;
  token : option Token.t;
  breakOnTokenText : option string
}.

(** The methods of the parser that call one another; a handler receives
    them as [context.parser]. *)
Record Methods : Type := mkMethods {
  m_parseExpression : bool -> option string -> M (list AnyParseNode);
  m_handleInfixNodes : list AnyParseNode -> M (list AnyParseNode);
  m_handleSupSubscript : string -> M AnyParseNode;
  m_parseAtom : option string -> M (option AnyParseNode);
  m_parseFunction :
    option string -> option string -> option Z -> M (option AnyParseNode);
  m_callFunction :
    string -> list AnyParseNode -> list (option AnyParseNode) ->
    option Token.t -> option string -> M AnyParseNode;
  m_parseGroupOfType :
    string -> option ArgType -> bool -> option Z -> bool ->
    M (option AnyParseNode);
  m_parseGroup :
    string -> bool -> option Z -> option string -> option Mode -> bool ->
    M (option AnyParseNode)
}.

Definition Handler : Type :=
  Methods -> FunctionContext -> list AnyParseNode ->
  list (option AnyParseNode) -> M AnyParseNode.

(** Modelled from the spec: defineFunction.js and functions.js are not
    among the sources.  A registered function: arity, argument types,
    greediness, permitted modes, infix flag and handler.  A mode flag left
    out of a definition reads as the test in [parseFunction] treats it
    ([allowedInText] false, [allowedInMath] true). *)
Record FunctionSpec : Type := mkFunctionSpec {
  numArgs : nat;
  numOptionalArgs : nat;
  argTypes : option (list ArgType);
  greediness : Z;
  allowedInText : bool;
  allowedInMath : bool;
  infix : bool;
  handler : option Handler
}.

(** The read-only tables and collaborators the parser imports. *)
Record Tables : Type := mkTables {
  functions : string -> option FunctionSpec;
  implicitCommands : string -> bool;
  symbols : Mode -> string -> option Group;
  extraLatin : string -> bool;
  unicodeSymbols : string -> option string;
  unicodeAccents : string -> option (Mode -> option string);
  supportedCodepoint : nat -> bool;
  validUnit : Measurement -> bool;
  (** [combiningDiacriticalMarksEndRegex.exec]: index and matched text *)
  combiningDiacriticalMarksEndRegex : string -> option (nat * string);
  (** [gullet.expandNextToken()] *)
  expandNextToken : MacroExpander -> Outcome Token.t * MacroExpander;
  settings : Settings
}.

End Source.

Arguments ret {Src A} a.
Arguments throw {Src A} e.
Arguments diverge {Src A}.
Arguments gets {Src A} f.

Notation "x <- m ;; k" := (bind m (fun x => k))
  (at level 61, m at next level, right associativity).
Notation "' pat <- m ;; k" := (bind m (fun x => match x with pat => k end))
  (at level 61, pat pattern, m at next level, right associativity).
Notation "m ;; k" := (bind m (fun _ => k))
  (at level 61, right associativity).

(** ** The methods of [Parser] *)

Definition dquote : string := str1 (ascii_of_nat 34).
Definition newline : string := str1 (ascii_of_nat 10).

(** U+0131 and U+0237 (dotless i and j) do not fit one character; they are
    the keys under which the symbol table is read, written here as their
    UTF-8 bytes. *)
Definition dotless_i : string :=
  String (ascii_of_nat 196) (str1 (ascii_of_nat 177)).
Definition dotless_j : string :=
  String (ascii_of_nat 200) (str1 (ascii_of_nat 183)).

Definition string_of_nat (n : nat) : string :=
  NilEmpty.string_of_uint (Nat.to_uint n).

Definition SUPSUB_GREEDINESS : Z := 1.

Definition endOfExpression : list string :=
  ["}"; "\endgroup"; "\end"; "\right"; "&"].

(** [Parser.endOfGroup[text]], read only for the three keys it has *)
Definition endOfGroup (txt : string) : string :=
  if String.eqb txt "[" then "]"
  else if String.eqb txt "{" then "}"
  else "\endgroup".

(** [group.splice(i, k, node)] *)
Definition splice (group : list AnyParseNode) (i k : nat) (node : AnyParseNode)
  : list AnyParseNode :=
  firstn i group ++ node :: skipn (i + k) group.

Definition text_at (group : list AnyParseNode) (i : nat) : option string :=
  match nth_error group i with
  | Some b => node_text b
  | None => None
  end.

Definition loc_at (group : list AnyParseNode) (i : nat)
  : option SourceLocation.t :=
  match nth_error group i with
  | Some b => node_loc b
  | None => None
  end.

Definition is_text (v : option string) (s : string) : bool :=
  match v with
  | Some t => String.eqb t s
  | None => false
  end.

(** The [for] loop of [formLigatures]: [i] and [n] are its two counters,
    [group] the array it rewrites in place. *)
Fixpoint formLigatures_loop (fuel : nat) (i : nat) (n : Z)
         (group : list AnyParseNode) : list AnyParseNode :=
  match fuel with
  | O => group
  | S fuel' =>
      if (Z.of_nat i <? n)%Z then
        match nth_error group i with
        | None => group
        | Some a =>
            let v := node_text a in
            let '(group1, n1) :=
              if is_text v "-" && is_text (text_at group (i + 1)) "-" then
                if (Z.of_nat (i + 1) <? n)%Z
                   && is_text (text_at group (i + 2)) "-" then
                  (splice group i 3
                     (Symbol textord text
                        (SourceLocation.range (node_loc a) (loc_at group (i + 2)))
                        "---"),
                   (n - 2)%Z)
                else
                  (splice group i 2
                     (Symbol textord text
                        (SourceLocation.range (node_loc a) (loc_at group (i + 1)))
                        "--"),
                   (n - 1)%Z)
              else (group, n) in
            let '(group2, n2) :=
              match v with
              | Some v' =>
                  if (String.eqb v' "'" || String.eqb v' "`")
                     && is_text (text_at group1 (i + 1)) v' then
                    (splice group1 i 2
                       (Symbol textord text
                          (SourceLocation.range (node_loc a)
                                                (loc_at group1 (i + 1)))
                          (v' +++ v')),
                     (n1 - 1)%Z)
                  else (group1, n1)
              | None => (group1, n1)
              end in
            formLigatures_loop fuel' (i + 1) n2 group2
        end
      else group
  end.

(** [formLigatures(group)]: the array after the call.  The loop runs at
    most once per element. *)
Definition formLigatures (group : list AnyParseNode) : list AnyParseNode :=
  formLigatures_loop (length group) 0 (Z.of_nat (length group) - 1) group.

(** The [for] loop of [handleInfixNodes] over the rest of the body from
    index [i] on. *)
Fixpoint handleInfixNodes_scan (rest : list AnyParseNode) (i : Z)
         (overIndex : Z) (funcName : option string)
  : Error + (Z * option string) :=
  match rest with
  | [] => inr (overIndex, funcName)
  | node :: rest' =>
      if String.eqb (node_type node) "infix" then
        if negb (overIndex =? -1)%Z then
          inl (ParseError "only one infix operator per group" (node_token node))
        else
          handleInfixNodes_scan rest' (i + 1)%Z i (node_replaceWith node)
      else handleInfixNodes_scan rest' (i + 1)%Z overIndex funcName
  end.

(** [body[overIndex]] as an element of an argument list; the index is
    that of an element wherever it is read. *)
Definition bodyAt (body : list AnyParseNode) (overIndex : Z)
  : list AnyParseNode :=
  match nth_error body (Z.to_nat overIndex) with
  | Some node => [node]
  | None => []
  end.

Section WithTables.

Variable Src : Type.
Variable T : Tables Src.

#[local] Abbreviation M := (M Src).
#[local] Abbreviation Methods := (Methods Src).

(** *** Token handling *)

Definition consume : M unit := modify (set_nextToken None).

Definition fetch : M Token.t :=
  fun p =>
    match nextToken p with
    | Some t => (Ok t, p)
    | None =>
        let (r, g) := expandNextToken T (gullet p) in
        match r with
        | Ok t => (Ok t, set_nextToken (Some t) (set_gullet g p))
        | Throw e => (Throw e, set_gullet g p)
        | OutOfFuel => (OutOfFuel, set_gullet g p)
        end
    end.

(** [expect(text, consume)]; the lookahead it reads three times is fetched
    once, a second [fetch] returning the cached token. *)
Definition expect (txt : string) (consume_ : bool) : M unit :=
  tok <- fetch ;;
  if negb (String.eqb (Token.text tok) txt) then
    throw (ParseError ("Expected '" +++ txt +++ "', got '"
                       +++ Token.text tok +++ "'") (Some tok))
  else when consume_ consume.

Definition switchMode (newMode : Mode) : M unit :=
  modify (fun p => set_gullet (gullet_switchMode newMode (gullet p))
                              (set_mode newMode p)).

Definition beginGroup : M unit :=
  modify (fun p => set_gullet (gullet_beginGroup (gullet p)) p).

Definition endGroup : M unit :=
  modify (fun p => set_gullet (gullet_endGroup (gullet p)) p).

Definition setCatcode (c : string) (v : Z) : M unit :=
  modify (fun p => set_gullet (lexer_setCatcode c v (gullet p)) p).

Definition report (kind message : string) (tok : Token.t) : M unit :=
  match reportNonstrict (settings T) kind message tok with
  | Some e => throw e
  | None => ret tt
  end.

Fixpoint consumeSpaces (fuel : nat) : M unit :=
  match fuel with
  | O => diverge
  | S fuel' =>
      tok <- fetch ;;
      if String.eqb (Token.text tok) " " then consume ;; consumeSpaces fuel'
      else ret tt
  end.

(** *** formatUnsupportedCmd *)

Definition formatUnsupportedCmd (txt : string) : M AnyParseNode :=
  let textordArray := map (fun c => Symbol textord text None c) (chars txt) in
  m <- gets (@mode Src) ;;
  let textNode := TextNode m textordArray in
  let colorNode := Color m (errorColor (settings T)) [textNode] in
  ret colorNode.

(** *** String, regex, color, size and URL groups *)

(** The [while] loop of [parseStringGroup]. *)
Fixpoint parseStringGroup_loop (fuel : nat) (modeName groupBegin groupEnd : string)
         (raw : bool) (firstToken lastToken : Token.t) (str : string)
         (nested : Z) : M (Token.t * string) :=
  match fuel with
  | O => diverge
  | S fuel' =>
      nextToken <- fetch ;;
      let t := Token.text nextToken in
      if negb (String.eqb t groupEnd) || (raw && (0 <? nested)%Z) then
        if String.eqb t "EOF" then
          throw (ParseError ("Unexpected end of input in " +++ modeName)
                            (Some (Token.range firstToken lastToken str)))
        else
          let nested' :=
            if String.eqb t groupBegin then (nested + 1)%Z
            else if String.eqb t groupEnd then (nested - 1)%Z
            else nested in
          consume ;;
          parseStringGroup_loop fuel' modeName groupBegin groupEnd raw
                                firstToken nextToken (str +++ t) nested'
      else ret (lastToken, str)
  end.

Definition parseStringGroup (fuel : nat) (modeName : string)
           (optional raw : bool) : M (option Token.t) :=
  let groupBegin := if optional then "[" else "{" in
  let groupEnd := if optional then "]" else "}" in
  beginToken <- fetch ;;
  let differs := negb (String.eqb (Token.text beginToken) groupBegin) in
  if differs && optional then ret None
  else if differs && raw && negb (String.eqb (Token.text beginToken) "EOF")
          && notBraceRegex_test (Token.text beginToken) then
    consume ;; ret (Some beginToken)
  else
    outerMode <- gets (@mode Src) ;;
    modify (set_mode text) ;;
    expect groupBegin true ;;
    firstToken <- fetch ;;
    '(lastToken, str) <-
      parseStringGroup_loop fuel modeName groupBegin groupEnd raw
                            firstToken firstToken "" 0 ;;
    expect groupEnd true ;;
    modify (set_mode outerMode) ;;
    ret (Some (Token.range firstToken lastToken str)).

(** The [while] loop of [parseRegexGroup]. *)
Fixpoint parseRegexGroup_loop (fuel : nat) (regex : string -> bool)
         (lastToken : Token.t) (str : string) : M (Token.t * string) :=
  match fuel with
  | O => diverge
  | S fuel' =>
      nextToken <- fetch ;;
      if negb (String.eqb (Token.text nextToken) "EOF")
         && regex (str +++ Token.text nextToken) then
        consume ;;
        parseRegexGroup_loop fuel' regex nextToken (str +++ Token.text nextToken)
      else ret (lastToken, str)
  end.

Definition parseRegexGroup (fuel : nat) (regex : string -> bool)
           (modeName : string) : M Token.t :=
  outerMode <- gets (@mode Src) ;;
  modify (set_mode text) ;;
  firstToken <- fetch ;;
  '(lastToken, str) <- parseRegexGroup_loop fuel regex firstToken "" ;;
  if String.eqb str "" then
    throw (ParseError ("Invalid " +++ modeName +++ ": '"
                       +++ Token.text firstToken +++ "'") (Some firstToken))
  else
    modify (set_mode outerMode) ;;
    ret (Token.range firstToken lastToken str).

Definition parseColorGroup (fuel : nat) (optional : bool)
  : M (option AnyParseNode) :=
  res <- parseStringGroup fuel "color" optional false ;;
  match res with
  | None => ret None
  | Some res =>
      match colorRegex_exec (Token.text res) with
      | None =>
          throw (ParseError ("Invalid color: '" +++ Token.text res +++ "'")
                            (Some res))
      | Some color =>
          let color := if hex6Regex_test color then "#" +++ color else color in
          m <- gets (@mode Src) ;;
          ret (Some (ColorToken m color))
      end
  end.

Definition parseSizeGroup (fuel : nat) (optional : bool)
  : M (option AnyParseNode) :=
  res <-
    (if negb optional then
       tok <- fetch ;;
       if negb (String.eqb (Token.text tok) "{") then
         r <- parseRegexGroup fuel sizeRegex_test "size" ;; ret (Some r)
       else parseStringGroup fuel "size" optional false
     else parseStringGroup fuel "size" optional false) ;;
  match res with
  | None => ret None
  | Some res =>
      let blank := negb optional && (String.length (Token.text res) =? 0) in
      let res := if blank then Token.mk "0pt" (Token.loc res) else res in
      let isBlank := blank in
      match sizeMatch_exec (Token.text res) with
      | None =>
          throw (ParseError ("Invalid size: '" +++ Token.text res +++ "'")
                            (Some res))
      | Some (sign, magnitude, unit_) =>
          let data := mkMeasurement (toNumber sign magnitude) unit_ in
          if negb (validUnit T data) then
            throw (ParseError ("Invalid unit: '" +++ m_unit data +++ "'")
                              (Some res))
          else
            m <- gets (@mode Src) ;;
            ret (Some (Size m data isBlank))
      end
  end.

Definition parseUrlGroup (fuel : nat) (optional consumeSpaces_ : bool)
  : M (option AnyParseNode) :=
  setCatcode "%" 13 ;;
  res <- parseStringGroup fuel "url" optional true ;;
  setCatcode "%" 14 ;;
  match res with
  | None => ret None
  | Some res =>
      let url := unescapeUrl (Token.text res) in
      m <- gets (@mode Src) ;;
      ret (Some (Url m url))
  end.

(** *** parseSymbol *)

Definition last_char (s : string) : option ascii :=
  get (String.length s - 1) s.

Definition verbAssertionMessage : string :=
  "\verb assertion failed --" +++ newline
  +++ "                    please report what input caused this bug".

(** The loop of [parseSymbol] that folds the combining marks over the base. *)
Fixpoint parseSymbol_accents (marks : list string) (nucleus : Token.t)
         (symbol : AnyParseNode) : M AnyParseNode :=
  match marks with
  | [] => ret symbol
  | accent :: rest =>
      match unicodeAccents T accent with
      | None =>
          throw (ParseError ("Unknown accent ' " +++ accent +++ "'")
                            (Some nucleus))
      | Some byMode =>
          m <- gets (@mode Src) ;;
          match byMode m with
          | None =>
              throw (ParseError ("Accent " +++ accent +++ " unsupported in "
                                 +++ Mode_name m +++ " mode") (Some nucleus))
          | Some command =>
              parseSymbol_accents rest nucleus
                (Accent m (Token.loc nucleus) command false true symbol)
          end
      end
  end.

Definition parseSymbol : M (option AnyParseNode) :=
  nucleus <- fetch ;;
  let txt := Token.text nucleus in
  if verbRegex_test txt then
    consume ;;
    let arg := slice_from 5 txt in
    let star := match first_char arg with
                | Some c => Ascii.eqb c "*"
                | None => false
                end in
    let arg := if star then slice_from 1 arg else arg in
    if (String.length arg <? 2)
       || negb (match first_char arg, last_char arg with
                | Some a, Some b => Ascii.eqb a b
                | _, _ => false
                end) then
      throw (ParseError verbAssertionMessage None)
    else
      let arg := substring 1 (String.length arg - 2) arg in
      ret (Some (Verb text arg star))
  else
    m0 <- gets (@mode Src) ;;
    txt <-
      match first_char txt with
      | Some c =>
          match unicodeSymbols T (str1 c), symbols T m0 (str1 c) with
          | Some expansion, None =>
              when (strict (settings T) && Mode_eqb m0 math)
                   (report "unicodeTextInMathMode"
                      ("Accented Unicode text character " +++ dquote +++ str1 c
                       +++ dquote +++ " used in math mode") nucleus) ;;
              ret (expansion +++ slice_from 1 txt)
          | _, _ => ret txt
          end
      | None => ret txt
      end ;;
    let match_ := combiningDiacriticalMarksEndRegex T txt in
    let txt :=
      match match_ with
      | Some (index, _) =>
          let t := substring 0 index txt in
          if String.eqb t "i" then dotless_i
          else if String.eqb t "j" then dotless_j
          else t
      | None => txt
      end in
    let char0 := match first_char txt with
                 | Some c => str1 c
                 | None => "undefined"
                 end in
    m <- gets (@mode Src) ;;
    symbol <-
      match symbols T m txt with
      | Some group =>
          when (strict (settings T) && Mode_eqb m math && extraLatin T txt)
               (report "unicodeTextInMathMode"
                  ("Latin-1/Unicode text character " +++ dquote +++ char0
                   +++ dquote +++ " used in math mode") nucleus) ;;
          let loc := Token.loc nucleus in
          ret (Some match group with
                    | GAtom family => Atom m family loc txt
                    | GNonAtom kind => Symbol kind m loc txt
                    end)
      | None =>
          match first_char txt with
          | Some c =>
              if 128 <=? code c then
                when (strict (settings T))
                     (if negb (supportedCodepoint T (code c)) then
                        report "unknownSymbol"
                          ("Unrecognized Unicode character " +++ dquote
                           +++ char0 +++ dquote +++ " ("
                           +++ string_of_nat (code c) +++ ")") nucleus
                      else
                        when (Mode_eqb m math)
                             (report "unicodeTextInMathMode"
                                ("Unicode text character " +++ dquote +++ char0
                                 +++ dquote +++ " used in math mode") nucleus)) ;;
                ret (Some (Symbol textord text (Token.loc nucleus) txt))
              else ret None
          | None => ret None
          end
      end ;;
    match symbol with
    | None => ret None
    | Some symbol =>
        consume ;;
        match match_ with
        | Some (_, marks) =>
            r <- parseSymbol_accents (chars marks) nucleus symbol ;;
            ret (Some r)
        | None => ret (Some symbol)
        end
    end.

(** *** The mutually recursive methods

    Each takes [this], the methods it calls on the parser object, and the
    number of steps its own loops may take. *)

Section Methods.

Variable this : Methods.
Variable fuel : nat.

Definition callFunction (name : string) (args : list AnyParseNode)
           (optArgs : list (option AnyParseNode)) (token : option Token.t)
           (breakOnTokenText : option string) : M AnyParseNode :=
  let context := mkContext name token breakOnTokenText in
  match functions T name with
  | Some func =>
      match handler func with
      | Some h => h this context args optArgs
      | None => throw (ParseError ("No function handler for " +++ name) None)
      end
  | None => throw (ParseError ("No function handler for " +++ name) None)
  end.

Definition handleInfixNodes (body : list AnyParseNode)
  : M (list AnyParseNode) :=
  match handleInfixNodes_scan body 0 (-1) None with
  | inl e => throw e
  | inr (overIndex, funcName) =>
      if negb (overIndex =? -1)%Z && truthy funcName then
        let funcName := match funcName with Some f => f | None => "" end in
        let numerBody := firstn (Z.to_nat overIndex) body in
        let denomBody := skipn (Z.to_nat (overIndex + 1)) body in
        m <- gets (@mode Src) ;;
        let numerNode :=
          match numerBody with
          | [n] => if String.eqb (node_type n) "ordgroup" then n
                   else Ordgroup m None numerBody false
          | _ => Ordgroup m None numerBody false
          end in
        let denomNode :=
          match denomBody with
          | [n] => if String.eqb (node_type n) "ordgroup" then n
                   else Ordgroup m None denomBody false
          | _ => Ordgroup m None denomBody false
          end in
        node <-
          (if String.eqb funcName "\\abovefrac" then
             m_callFunction this funcName
               (numerNode :: bodyAt body overIndex ++ [denomNode]) [] None None
           else
             m_callFunction this funcName [numerNode; denomNode] [] None None) ;;
        ret [node]
      else ret body
  end.

Definition handleSupSubscript (name : string) : M AnyParseNode :=
  symbolToken <- fetch ;;
  let symbol := Token.text symbolToken in
  consume ;;
  group <- m_parseGroup this name false (Some SUPSUB_GREEDINESS) None None true ;;
  match group with
  | None =>
      throw (ParseError ("Expected group after '" +++ symbol +++ "'")
                        (Some symbolToken))
  | Some group => ret group
  end.

(** The [while (true)] loop of [parseExpression]. *)
Fixpoint parseExpression_loop (steps : nat) (breakOnInfix : bool)
         (breakOnTokenText : option string) (body : list AnyParseNode)
  : M (list AnyParseNode) :=
  match steps with
  | O => diverge
  | S steps' =>
      m <- gets (@mode Src) ;;
      when (Mode_eqb m math) (consumeSpaces fuel) ;;
      lex <- fetch ;;
      if existsb (String.eqb (Token.text lex)) endOfExpression then ret body
      else if truthy breakOnTokenText
              && is_text breakOnTokenText (Token.text lex) then ret body
      else if breakOnInfix
              && match functions T (Token.text lex) with
                 | Some f => infix f
                 | None => false
                 end then ret body
      else
        atom <- m_parseAtom this breakOnTokenText ;;
        match atom with
        | None => ret body
        | Some atom =>
            parseExpression_loop steps' breakOnInfix breakOnTokenText
                                 (body ++ [atom])
        end
  end.

Definition parseExpression (breakOnInfix : bool)
           (breakOnTokenText : option string) : M (list AnyParseNode) :=
  body <- parseExpression_loop fuel breakOnInfix breakOnTokenText [] ;;
  m <- gets (@mode Src) ;;
  let body := if Mode_eqb m text then formLigatures body else body in
  m_handleInfixNodes this body.

(** The inner loop of [parseAtom] that collects further primes. *)
Fixpoint parseAtom_primes (steps : nat) (prime : AnyParseNode)
         (primes : list AnyParseNode) : M (list AnyParseNode) :=
  match steps with
  | O => diverge
  | S steps' =>
      tok <- fetch ;;
      if String.eqb (Token.text tok) "'" then
        consume ;; parseAtom_primes steps' prime (primes ++ [prime])
      else ret primes
  end.

(** The [while (true)] loop of [parseAtom] and the statements after it. *)
Fixpoint parseAtom_loop (steps : nat) (base superscript subscript
                                       : option AnyParseNode)
  : M (option AnyParseNode) :=
  match steps with
  | O => diverge
  | S steps' =>
      consumeSpaces fuel ;;
      lex <- fetch ;;
      let t := Token.text lex in
      if String.eqb t "\limits" || String.eqb t "\nolimits" then
        let limits := String.eqb t "\limits" in
        match base with
        | Some b =>
            if String.eqb (node_type b) "op" then
              let b := node_assign "limits" (PBool limits) b in
              let b := node_assign "alwaysHandleSupSub" (PBool true) b in
              consume ;; parseAtom_loop steps' (Some b) superscript subscript
            else if String.eqb (node_type b) "operatorname"
                    && node_alwaysHandleSupSub b then
              let b := node_assign "limits" (PBool limits) b in
              consume ;; parseAtom_loop steps' (Some b) superscript subscript
            else
              throw (ParseError "Limit controls must follow a math operator"
                                (Some lex))
        | None =>
            throw (ParseError "Limit controls must follow a math operator"
                              (Some lex))
        end
      else if String.eqb t "^" then
        match superscript with
        | Some _ => throw (ParseError "Double superscript" (Some lex))
        | None =>
            sup <- m_handleSupSubscript this "superscript" ;;
            parseAtom_loop steps' base (Some sup) subscript
        end
      else if String.eqb t "_" then
        match subscript with
        | Some _ => throw (ParseError "Double subscript" (Some lex))
        | None =>
            sub <- m_handleSupSubscript this "subscript" ;;
            parseAtom_loop steps' base superscript (Some sub)
        end
      else if String.eqb t "'" then
        match superscript with
        | Some _ => throw (ParseError "Double superscript" (Some lex))
        | None =>
            m <- gets (@mode Src) ;;
            let prime := Symbol textord m None "\prime" in
            consume ;;
            primes <- parseAtom_primes fuel prime [prime] ;;
            tok <- fetch ;;
            primes <-
              (if String.eqb (Token.text tok) "^" then
                 sup <- m_handleSupSubscript this "superscript" ;;
                 ret (primes ++ [sup])
               else ret primes) ;;
            m <- gets (@mode Src) ;;
            parseAtom_loop steps' base (Some (Ordgroup m None primes false))
                           subscript
        end
      else
        match superscript, subscript with
        | None, None => ret base
        | _, _ =>
            m <- gets (@mode Src) ;;
            ret (Some (Supsub m base superscript subscript))
        end
  end.

Definition parseAtom (breakOnTokenText : option string)
  : M (option AnyParseNode) :=
  base <- m_parseGroup this "atom" false None breakOnTokenText None false ;;
  m <- gets (@mode Src) ;;
  if Mode_eqb m text then ret base
  else parseAtom_loop fuel base None None.

(** The [for] loop of [parseArguments], at index [i] with [count]
    arguments still to read. *)
Fixpoint parseArguments_loop (count i : nat) (func : string)
         (funcData : FunctionSpec Src) (args : list AnyParseNode)
         (optArgs : list (option AnyParseNode))
  : M (list AnyParseNode * list (option AnyParseNode)) :=
  match count with
  | O => ret (args, optArgs)
  | S count' =>
      let argType :=
        match argTypes funcData with
        | Some types => nth_error types i
        | None => None
        end in
      let isOptional := i <? numOptionalArgs funcData in
      m <- gets (@mode Src) ;;
      let consumeSpaces_ :=
        ((0 <? i) && negb isOptional)
        || ((i =? 0) && negb isOptional && Mode_eqb m math) in
      arg <- m_parseGroupOfType this ("argument to '" +++ func +++ "'")
               argType isOptional (Some (greediness funcData)) consumeSpaces_ ;;
      match arg with
      | None =>
          if isOptional then
            parseArguments_loop count' (i + 1) func funcData args
                                (optArgs ++ [None])
          else
            tok <- fetch ;;
            throw (ParseError ("Expected group after '" +++ func +++ "'")
                              (Some tok))
      | Some a =>
          if isOptional then
            parseArguments_loop count' (i + 1) func funcData args
                                (optArgs ++ [Some a])
          else
            parseArguments_loop count' (i + 1) func funcData (args ++ [a])
                                optArgs
      end
  end.

Definition parseArguments (func : string) (funcData : FunctionSpec Src)
  : M (list AnyParseNode * list (option AnyParseNode)) :=
  let totalArgs := numArgs funcData + numOptionalArgs funcData in
  if totalArgs =? 0 then ret ([], [])
  else parseArguments_loop totalArgs 0 func funcData [] [].

Definition parseFunction (breakOnTokenText name : option string)
           (greediness_ : option Z) : M (option AnyParseNode) :=
  token <- fetch ;;
  let func := Token.text token in
  match functions T func with
  | None => ret None
  | Some funcData =>
      consume ;;
      m <- gets (@mode Src) ;;
      if match greediness_ with
         | Some g => (greediness funcData <=? g)%Z
         | None => false
         end then
        throw (ParseError ("Got function '" +++ func +++ "' with no arguments"
                           +++ (if truthy name
                                then " as " +++ match name with
                                                | Some n => n
                                                | None => ""
                                                end
                                else "")) (Some token))
      else if Mode_eqb m text && negb (allowedInText funcData) then
        throw (ParseError ("Can't use function '" +++ func +++ "' in text mode")
                          (Some token))
      else if Mode_eqb m math && negb (allowedInMath funcData) then
        throw (ParseError ("Can't use function '" +++ func +++ "' in math mode")
                          (Some token))
      else
        '(args, optArgs) <- parseArguments func funcData ;;
        r <- m_callFunction this func args optArgs (Some token)
                            breakOnTokenText ;;
        ret (Some r)
  end.

Definition parseGroupOfType (name : string) (type : option ArgType)
           (optional : bool) (greediness_ : option Z) (consumeSpaces_ : bool)
  : M (option AnyParseNode) :=
  match type with
  | Some arg_color =>
      when consumeSpaces_ (consumeSpaces fuel) ;;
      parseColorGroup fuel optional
  | Some arg_size =>
      when consumeSpaces_ (consumeSpaces fuel) ;;
      parseSizeGroup fuel optional
  | Some arg_url => parseUrlGroup fuel optional consumeSpaces_
  | Some (arg_mode m) =>
      m_parseGroup this name optional greediness_ None (Some m) consumeSpaces_
  | Some arg_hbox =>
      group <- m_parseGroup this name optional greediness_ None (Some text)
                 consumeSpaces_ ;;
      match group with
      | None => ret None
      | Some group =>
          let styledGroup := Styling (node_mode group) "text" [group] in
          ret (Some styledGroup)
      end
  | Some arg_raw =>
      when consumeSpaces_ (consumeSpaces fuel) ;;
      atBrace <- (if optional then
                    tok <- fetch ;; ret (String.eqb (Token.text tok) "{")
                  else ret false) ;;
      if atBrace then ret None
      else
        token <- parseStringGroup fuel "raw" optional true ;;
        match token with
        | Some token => ret (Some (Raw text (Token.text token)))
        | None =>
            tok <- fetch ;;
            throw (ParseError "Expected raw group" (Some tok))
        end
  | Some arg_original | None =>
      m_parseGroup this name optional greediness_ None None consumeSpaces_
  | Some (arg_unknown _) =>
      tok <- fetch ;;
      throw (ParseError ("Unknown group type as " +++ name) (Some tok))
  end.

Definition parseGroup (name : string) (optional : bool)
           (greediness_ : option Z) (breakOnTokenText : option string)
           (mode_ : option Mode) (consumeSpaces_ : bool)
  : M (option AnyParseNode) :=
  outerMode <- gets (@mode Src) ;;
  match mode_ with
  | Some m => switchMode m
  | None => ret tt
  end ;;
  when consumeSpaces_ (consumeSpaces fuel) ;;
  firstToken <- fetch ;;
  let txt := Token.text firstToken in
  result <-
    (if if optional then String.eqb txt "["
        else String.eqb txt "{" || String.eqb txt "\begingroup" then
       consume ;;
       let groupEnd := endOfGroup txt in
       beginGroup ;;
       expression <- m_parseExpression this false (Some groupEnd) ;;
       lastToken <- fetch ;;
       expect groupEnd true ;;
       endGroup ;;
       m <- gets (@mode Src) ;;
       ret (Some (Ordgroup m
                    (SourceLocation.range (Token.loc firstToken)
                                          (Token.loc lastToken))
                    expression (String.eqb txt "\begingroup")))
     else if optional then ret None
     else
       fromFunction <- m_parseFunction this breakOnTokenText (Some name)
                         greediness_ ;;
       result <- match fromFunction with
                 | Some node => ret (Some node)
                 | None => parseSymbol
                 end ;;
       match result with
       | None =>
           if match first_char txt with
              | Some c => Ascii.eqb c "\"
              | None => false
              end && negb (implicitCommands T txt) then
             if throwOnError (settings T) then
               throw (ParseError ("Undefined control sequence: " +++ txt)
                                 (Some firstToken))
             else
               node <- formatUnsupportedCmd txt ;;
               consume ;;
               ret (Some node)
           else ret None
       | Some _ => ret result
       end) ;;
  match mode_ with
  | Some _ => switchMode outerMode
  | None => ret tt
  end ;;
  ret result.

End Methods.

(** The parser object with [fuel] levels of calls ahead of it: its methods
    call the methods of the object one level below. *)
Fixpoint parser (fuel : nat) : Methods :=
  match fuel with
  | O =>
      mkMethods (fun _ _ => diverge) (fun _ => diverge) (fun _ => diverge)
                (fun _ => diverge) (fun _ _ _ => diverge)
                (fun _ _ _ _ _ => diverge) (fun _ _ _ _ _ => diverge)
                (fun _ _ _ _ _ _ => diverge)
  | S fuel' =>
      let this := parser fuel' in
      mkMethods (parseExpression this fuel) (handleInfixNodes this)
                (handleSupSubscript this) (parseAtom this fuel)
                (parseFunction this) (callFunction this)
                (parseGroupOfType this fuel) (parseGroup this fuel)
  end.

(** [parse()] *)
Definition parse (fuel : nat) : M (list AnyParseNode) :=
  let this := parser fuel in
  when (negb (globalGroup (settings T))) beginGroup ;;
  when (colorIsTextColor (settings T))
       (modify (fun p => set_gullet (macros_set "\color" "\textcolor" (gullet p))
                                    p)) ;;
  parse <- m_parseExpression this false None ;;
  expect "EOF" true ;;
  when (negb (globalGroup (settings T))) endGroup ;;
  ret parse.

End WithTables.

Arguments parser {Src} T fuel.
Arguments parse {Src} T fuel.
Arguments fetch {Src} T.
Arguments consume {Src}.

(** ** The [\zInput] function (functions/zInput.js) *)

Section ZInput.

Variable Src : Type.

(** Modelled from the spec: parseNode.js is not among the sources.
    [assertNodeType(node, type)] returns the node when it is present and
    carries the type tag [type], and raises an [Error] otherwise. *)
Definition assertNodeType (node : option AnyParseNode) (type : string)
  : M Src AnyParseNode :=
  match node with
  | Some n =>
      if String.eqb (node_type n) type then ret n
      else throw (JsError ("Expected node of type " +++ type
                           +++ ", but got node of type " +++ node_type n))
  | None => throw (JsError ("Expected node of type " +++ type
                            +++ ", but got null"))
  end.

(** [optArgs[0]], where a missing element and [null] are both falsy *)
Definition first_opt (l : list (option AnyParseNode)) : option AnyParseNode :=
  match l with
  | Some n :: _ => Some n
  | _ => None
  end.

Definition zInput_names : list string := ["\zInput"].

Definition zInput_numArgs : nat := 1.
Definition zInput_numOptionalArgs : nat := 1.
Definition zInput_argTypes : list ArgType := [arg_size; arg_raw].
Definition zInput_allowedInText : bool := true.

Definition zInput_handler : Handler Src :=
  fun parser context args optArgs =>
    let width := Some (mkMeasurement (Number_value false (17 # 10)) "em") in
    width <-
      match first_opt optArgs with
      | Some n =>
          size <- assertNodeType (Some n) "size" ;; ret (node_value size)
      | None => ret width
      end ;;
    raw <- assertNodeType (hd_error args) "raw" ;;
    let index :=
      match node_string raw with
      | Some s => parseInt s
      | None => NaN
      end in
    m <- gets (@mode Src) ;;
    ret (ZInput m index width).

(** Modelled from the spec: defineFunction.js is not among the sources.
    The registry entry made of the definition; the properties it leaves
    out ([greediness], [allowedInMath], [infix]) take the values of an
    ordinary function. *)
Definition zInput_spec : FunctionSpec Src :=
  mkFunctionSpec zInput_numArgs zInput_numOptionalArgs (Some zInput_argTypes)
                 1 zInput_allowedInText true false (Some zInput_handler).

End ZInput.

(** ** A concrete token source and registry

    The token interface and the tables are instantiated: the source is a
    list of tokens followed by [EOF], the registry holds the infix function
    [\over], its replacement [\frac] and [\zInput]. *)

Module Demo.

Definition Src : Type := list Token.t.

Definition tok (s : string) : Token.t := Token.mk s None.

(** The next token of the list, and [EOF] from its end on. *)
Definition expandNextToken (g : MacroExpander Src)
  : Outcome Token.t * MacroExpander Src :=
  match me_source g with
  | [] => (Ok (tok "EOF"), g)
  | t :: rest =>
      (Ok t, mkMacroExpander (me_mode g) (me_groups g) (me_catcodes g)
                             (me_macros g) rest)
  end.

(** Modelled from the spec: an infix function such as [\over] yields an
    [infix] node that names its replacement, here [\frac]. *)
Definition over_handler : Handler Src :=
  fun _ context _ _ =>
    m <- gets (@mode Src) ;;
    ret (Infix m "\frac" (token context)).

(** Modelled from the spec: the replacement function receives the
    numerator and the denominator and returns a fraction node, here a
    node of type [genfrac] that holds them. *)
Definition frac_handler : Handler Src :=
  fun _ context args _ =>
    m <- gets (@mode Src) ;;
    ret (Other "genfrac" m [] args).

Definition functions (name : string) : option (FunctionSpec Src) :=
  if String.eqb name "\over" then
    Some (mkFunctionSpec 0 0 None 1 false true true (Some over_handler))
  else if String.eqb name "\frac" then
    Some (mkFunctionSpec 2 0 None 2 false true false (Some frac_handler))
  else if String.eqb name "\zInput" then Some (zInput_spec Src)
  else None.

Definition one_char (p : ascii -> bool) (s : string) : bool :=
  match s with
  | String c EmptyString => p c
  | _ => false
  end.

(** A small symbol table: letters are mathord and digits textord in math
    mode; letters, digits, hyphen, quotes and space are textord in text
    mode. *)
Definition symbols (m : Mode) (s : string) : option Group :=
  match m with
  | math =>
      if one_char is_letter s then Some (GNonAtom mathord)
      else if one_char is_digit s then Some (GNonAtom textord)
      else if String.eqb s "+" then Some (GAtom bin)
      else None
  | text =>
      if one_char (fun c => is_letter c || is_digit c) s
         || String.eqb s "-" || String.eqb s "'" || String.eqb s "`"
         || String.eqb s " "
      then Some (GNonAtom textord)
      else None
  end.

Definition implicitCommands (s : string) : bool :=
  existsb (String.eqb s) ["\relax"; "^"; "_"; "\limits"; "\nolimits"].

Definition settings (throwOnError : bool) : Settings :=
  mkSettings false false throwOnError false "#cc0000" (fun _ _ _ => None).

Definition tables (throwOnError : bool) : Tables Src :=
  mkTables functions implicitCommands symbols (fun _ => false)
           (fun _ => None) (fun _ => None) (fun _ => true)
           (fun d => existsb (String.eqb (m_unit d)) ["em"; "pt"; "ex"; "mu"])
           (fun _ => None) expandNextToken (settings throwOnError).

(** The parser object its constructor builds over an input. *)
Definition newParser (input : list string) : Parser Src :=
  mkParser math
    (mkMacroExpander math 0
       (fun k => if String.eqb k "%" then Some 14%Z else None) []
       (map tok input))
    0 None.

End Demo.

(** ** Definitions used to state the properties *)

(** The node a ligature is collapsed into. *)
Definition ligature (a b : AnyParseNode) (txt : string) : AnyParseNode :=
  Symbol textord text (SourceLocation.range (node_loc a) (node_loc b)) txt.

(** What [formLigatures] does, by recursion on the list: at each position
    a run of three or two hyphens, or of two equal quotes, is collapsed and
    the scan goes on after the collapsed run. *)
Fixpoint formLigatures_rec (group : list AnyParseNode) : list AnyParseNode :=
  match group with
  | [] => []
  | a :: rest =>
      match rest with
      | [] => [a]
      | b :: rest' =>
          if is_text (node_text a) "-" && is_text (node_text b) "-" then
            match rest' with
            | c :: rest'' =>
                if is_text (node_text c) "-"
                then ligature a c "---" :: formLigatures_rec rest''
                else ligature a b "--" :: formLigatures_rec rest'
            | [] => [ligature a b "--"]
            end
          else
            match node_text a with
            | Some v =>
                if (String.eqb v "'" || String.eqb v "`")
                   && is_text (node_text b) v
                then ligature a b (v +++ v) :: formLigatures_rec rest'
                else a :: formLigatures_rec rest
            | None => a :: formLigatures_rec rest
            end
      end
  end.

(** Whether two neighbours would be collapsed. *)
Definition collapsible (a b : AnyParseNode) : bool :=
  (is_text (node_text a) "-" && is_text (node_text b) "-")
  || match node_text a with
     | Some v => (String.eqb v "'" || String.eqb v "`") && is_text (node_text b) v
     | None => false
     end.

(** A side of an infix operator as an argument: a single ordgroup is
    reused, anything else is wrapped in a new ordgroup. *)
Definition infix_side (m : Mode) (side : list AnyParseNode) : AnyParseNode :=
  match side with
  | [n] => if String.eqb (node_type n) "ordgroup" then n
           else Ordgroup m None side false
  | _ => Ordgroup m None side false
  end.

Definition is_infix (n : AnyParseNode) : bool :=
  String.eqb (node_type n) "infix".

(** Whether a tree holds a node of type infix, at any depth. *)
Fixpoint contains_infix (n : AnyParseNode) : bool :=
  is_infix n ||
  match n with
  | Ordgroup _ _ body _ | TextNode _ body | Color _ _ body
  | Styling _ _ body | Other _ _ _ body => existsb contains_infix body
  | Supsub _ base sup sub =>
      match base with Some b => contains_infix b | None => false end
      || match sup with Some b => contains_infix b | None => false end
      || match sub with Some b => contains_infix b | None => false end
  | Accent _ _ _ _ _ base => contains_infix base
  | _ => false
  end.

Definition not_infix (n : AnyParseNode) : Prop := is_infix n = false.

(** The texts of the nodes [formLigatures] builds. *)
Definition collapsed_text (t : string) : Prop :=
  t = "--" \/ t = "---" \/ t = "''" \/ t = "``".

Definition infixMessage : string := "only one infix operator per group".

(** [m'] answers as [m] does wherever [m] answers within its allowance. *)
Definition le (Src A : Type) (m m' : M Src A) : Prop :=
  forall p r p', m p = (r, p') -> r <> OutOfFuel -> m' p = (r, p').

(** The same, method by method, for two parser objects. *)
Record mle (Src : Type) (this this' : Methods Src) : Prop := mkMle {
  mle_parseExpression :
    forall a b, le (m_parseExpression this a b) (m_parseExpression this' a b);
  mle_handleInfixNodes :
    forall a, le (m_handleInfixNodes this a) (m_handleInfixNodes this' a);
  mle_handleSupSubscript :
    forall a, le (m_handleSupSubscript this a) (m_handleSupSubscript this' a);
  mle_parseAtom : forall a, le (m_parseAtom this a) (m_parseAtom this' a);
  mle_parseFunction :
    forall a b c, le (m_parseFunction this a b c) (m_parseFunction this' a b c);
  mle_callFunction :
    forall a b c d e,
      le (m_callFunction this a b c d e) (m_callFunction this' a b c d e);
  mle_parseGroupOfType :
    forall a b c d e,
      le (m_parseGroupOfType this a b c d e)
         (m_parseGroupOfType this' a b c d e);
  mle_parseGroup :
    forall a b c d e f,
      le (m_parseGroup this a b c d e f) (m_parseGroup this' a b c d e f)
}.

(** A handler answers the same when the parser object it is given
    answers more often. *)
Definition handlers_monotone (Src : Type) (T : Tables Src) : Prop :=
  forall name spec h this this' context args optArgs,
    functions T name = Some spec ->
    handler spec = Some h ->
    mle this this' ->
    le (h this context args optArgs) (h this' context args optArgs).

Section Properties.

Variable Src : Type.
Variable T : Tables Src.

(** Reading [k] prime tokens in a row takes the parser from one state to
    another. *)
Inductive reads_primes : nat -> Parser Src -> Parser Src -> Prop :=
| reads_primes_O : forall p, reads_primes 0 p p
| reads_primes_S : forall k p tok p1 p2,
    fetch T p = (Ok tok, p1) ->
    Token.text tok = "'" ->
    reads_primes k (set_nextToken None p1) p2 ->
    reads_primes (S k) p p2.

(** An infix node that [handleInfixNodes] can rewrite: it names a
    replacement, and the replacement is not itself an infix function. *)
Definition rewritable (n : AnyParseNode) : Prop :=
  is_infix n = true ->
  exists fn, node_replaceWith n = Some fn /\ fn <> ""
             /\ forall spec, functions T fn = Some spec -> infix spec = false.

(** The registry keeps infix nodes to infix functions: a handler returns a
    node of type infix only for a function registered as infix, and that
    node is rewritable. *)
Definition registry_infix_ok : Prop :=
  forall name spec h this context args optArgs p node p',
    functions T name = Some spec ->
    handler spec = Some h ->
    h this context args optArgs p = (Ok node, p') ->
    is_infix node = true ->
    infix spec = true /\ rewritable node.

(** What the methods of a parser object keep true of infix nodes: every
    node a method hands back as an element of a sibling list is
    rewritable, and a list that went through [handleInfixNodes] has no
    infix element. *)
Record good (this : Methods Src) : Prop := mkGood {
  good_callFunction :
    forall name args optArgs tok b p node p',
      m_callFunction this name args optArgs tok b p = (Ok node, p') ->
      is_infix node = true ->
      (exists spec, functions T name = Some spec /\ infix spec = true)
      /\ rewritable node;
  good_parseFunction :
    forall b name g p node p',
      m_parseFunction this b name g p = (Ok (Some node), p') ->
      rewritable node;
  good_parseGroup :
    forall name o g b m c p node p',
      m_parseGroup this name o g b m c p = (Ok (Some node), p') ->
      rewritable node;
  good_parseAtom :
    forall b p node p',
      m_parseAtom this b p = (Ok (Some node), p') -> rewritable node;
  good_handleInfixNodes :
    forall body p r p',
      Forall rewritable body ->
      m_handleInfixNodes this body p = (Ok r, p') -> Forall not_infix r;
  good_parseExpression :
    forall bi bt p r p',
      m_parseExpression this bi bt p = (Ok r, p') -> Forall not_infix r
}.

End Properties.

(** Results of the concrete parses referred to below. *)
Module Results.

Definition prime : AnyParseNode := Symbol textord math None "\prime".

Definition x : AnyParseNode := Symbol mathord math None "x".

(** [x''] *)
Definition x_primes : list AnyParseNode :=
  [Supsub math (Some x) (Some (Ordgroup math None [prime; prime] false)) None].

(** [a \over b] *)
Definition a_over_b : list AnyParseNode :=
  [Other "genfrac" math []
     [Ordgroup math None [Symbol mathord math None "a"] false;
      Ordgroup math None [Symbol mathord math None "b"] false]].

(** [\over^2] *)
Definition over_sup : AnyParseNode :=
  Supsub math (Some (Infix math "\frac" (Some (Demo.tok "\over"))))
         (Some (Symbol textord math None "2")) None.

(** [\foo] under [throwOnError = false] *)
Definition foo : AnyParseNode :=
  Color math "#cc0000"
    [TextNode math
       [Symbol textord text None "\"; Symbol textord text None "f";
        Symbol textord text None "o"; Symbol textord text None "o"]].

End Results.

(** ** Observations of the parser state *)

(** The depth of macro-definition scopes the token interface is in. *)
Definition groups (Src : Type) (p : Parser Src) : Z := me_groups (gullet p).

(** What a call that returns is expected to leave as it found it: the mode
    of the parser and the depth of scopes. *)
Definition frame (Src : Type) (p : Parser Src) : Mode * Z :=
  (mode p, groups p).

(** A method that, whenever it returns, leaves the frame as it found it. *)
Definition keeps (Src A : Type) (m : M Src A) : Prop :=
  forall p a p', m p = (Ok a, p') -> frame p' = frame p.

Record mkeeps (Src : Type) (this : Methods Src) : Prop := mkMkeeps {
  mk_parseExpression : forall a b, keeps (m_parseExpression this a b);
  mk_handleInfixNodes : forall a, keeps (m_handleInfixNodes this a);
  mk_handleSupSubscript : forall a, keeps (m_handleSupSubscript this a);
  mk_parseAtom : forall a, keeps (m_parseAtom this a);
  mk_parseFunction : forall a b c, keeps (m_parseFunction this a b c);
  mk_callFunction : forall a b c d e, keeps (m_callFunction this a b c d e);
  mk_parseGroupOfType :
    forall a b c d e, keeps (m_parseGroupOfType this a b c d e);
  mk_parseGroup : forall a b c d e f, keeps (m_parseGroup this a b c d e f)
}.

(** Producing a token opens and closes no scope. *)
Definition expander_keeps_groups (Src : Type) (T : Tables Src) : Prop :=
  forall g r g', expandNextToken T g = (r, g') -> me_groups g' = me_groups g.

(** A handler keeps the frame when the parser object it is given does. *)
Definition handlers_keep (Src : Type) (T : Tables Src) : Prop :=
  forall name spec h this context args optArgs,
    functions T name = Some spec ->
    handler spec = Some h ->
    mkeeps this ->
    keeps (h this context args optArgs).

(** The characters a list of nodes spells: the texts of its nodes, in
    order. *)
Fixpoint concat_text (l : list AnyParseNode) : string :=
  match l with
  | [] => ""
  | n :: r =>
      match node_text n with
      | Some t => t +++ concat_text r
      | None => concat_text r
      end
  end.

(** No two neighbours of the list would be collapsed into a ligature. *)
Fixpoint no_ligature (l : list AnyParseNode) : Prop :=
  match l with
  | [] => True
  | a :: r =>
      match r with
      | b :: _ => collapsible a b = false
      | [] => True
      end /\ no_ligature r
  end.

(** ** A parser over a list of tokens

    The parser of [Demo] with [src] still to be read and [lookahead] as
    its cached token; the tokens it will see, in order; the tokens a string
    group takes as content whatever its delimiters. *)
Definition at_source (src : list Token.t) (lookahead : option Token.t)
           (p : Parser Demo.Src) : Parser Demo.Src :=
  mkParser (mode p)
    (mkMacroExpander (me_mode (gullet p)) (me_groups (gullet p))
                     (me_catcodes (gullet p)) (me_macros (gullet p)) src)
    (leftrightDepth p) lookahead.

Definition stream (lookahead : option Token.t) (src : list Token.t)
  : list Token.t :=
  match lookahead with
  | Some t => t :: src
  | None => src
  end.

Definition plain_token (t : Token.t) : bool :=
  negb (existsb (String.eqb (Token.text t)) ["{"; "}"; "["; "]"; "EOF"]).

Definition concat_tokens (ts : list Token.t) : string :=
  fold_right (fun t s => Token.text t +++ s) "" ts.

(** [base'] is [base] after the property assignments of [\limits] and
    [\nolimits]. *)
Inductive with_limits : option AnyParseNode -> option AnyParseNode -> Prop :=
| with_limits_refl : forall base, with_limits base base
| with_limits_assign : forall b k v base',
    with_limits (Some (node_assign k v b)) base' ->
    with_limits (Some b) base'.

(** * Properties *)

(** ** The regular expressions and [parseInt] on examples *)

Example colorRegex_ex :
  colorRegex_exec "#fff" = Some "#fff" /\ colorRegex_exec "A0b1c2" = Some "A0b1c2"
  /\ colorRegex_exec "blue" = Some "blue" /\ colorRegex_exec "#ffff" = None
  /\ colorRegex_exec "" = None.
Proof. repeat split. Qed.

Example sizeRegex_ex :
  sizeRegex_test "1.5em" = true /\ sizeRegex_test "- .5 p" = true
  /\ sizeRegex_test "" = true /\ sizeRegex_test "em" = false
  /\ sizeRegex_test "1emx" = false /\ sizeRegex_test "1.2.3" = false.
Proof. repeat split. Qed.

Example sizeMatch_ex :
  sizeMatch_exec "1.5em" = Some ("", "1.5", "em")
  /\ sizeMatch_exec "x-.5 pt" = Some ("-", ".5", "pt")
  /\ sizeMatch_exec "1." = None
  /\ toNumber "-" ".5" = Num (Qopp (1 # 2)) /\ toNumber "" "12." = Num (12 # 1).
Proof. repeat split. Qed.

Example unescapeUrl_ex :
  unescapeUrl "a\%b\\#c\d" = "a%b\#c\d".
Proof. reflexivity. Qed.

Example Number_value_ex :
  toNumber "" "0.1" = Num (3602879701896397 # 36028797018963968)
  /\ toNumber "-" "0" = NegZero
  /\ Number_value false (inject_Z (2 ^ 53 + 3)) = Num (inject_Z (2 ^ 53 + 4))
  /\ Number_value true (inject_Z (2 ^ 1024)) = Infinity true
  /\ parseInt "0x20000000000001" = Num (inject_Z (2 ^ 53)).
Proof. repeat split; vm_compute; reflexivity. Qed.

Example parseInt_ex :
  parseInt " 42px" = Num (inject_Z 42) /\ parseInt "-7" = Num (inject_Z (-7))
  /\ parseInt "0x1f" = Num (inject_Z 31) /\ parseInt "abc" = NaN
  /\ parseInt "" = NaN.
Proof. repeat split. Qed.

(** ** The monad *)

Lemma bind_ok_inv (Src A B : Type) (m : M Src A) (k : A -> M Src B)
      (p p' : Parser Src) (b : B) :
  bind m k p = (Ok b, p') ->
  exists a p1, m p = (Ok a, p1) /\ k a p1 = (Ok b, p').
Proof.
  unfold bind. destruct (m p) as [[a|e|] p1]; try discriminate. eauto.
Qed.

Lemma bind_throw (Src A B : Type) (m : M Src A) (k : A -> M Src B)
      (p p' : Parser Src) (e : Error) :
  m p = (Throw e, p') -> bind m k p = (Throw e, p').
Proof. unfold bind. now intros ->. Qed.

Lemma bind_ok (Src A B : Type) (m : M Src A) (k : A -> M Src B)
      (p p1 : Parser Src) (a : A) :
  m p = (Ok a, p1) -> bind m k p = k a p1.
Proof. unfold bind. now intros ->. Qed.

Arguments bind_ok {Src A B m} k {p p1 a} _.

Lemma bind_gets (Src A B : Type) (f : Parser Src -> A) (k : A -> M Src B)
      (p : Parser Src) :
  bind (gets f) k p = k (f p) p.
Proof. reflexivity. Qed.

Lemma bind_ret (Src A B : Type) (a : A) (k : A -> M Src B) (p : Parser Src) :
  bind (ret a) k p = k a p.
Proof. reflexivity. Qed.

Lemma gets_inv (Src A : Type) (f : Parser Src -> A) (p p' : Parser Src) (a : A) :
  gets f p = (Ok a, p') -> a = f p /\ p' = p.
Proof. unfold gets. intros [= <- <-]. auto. Qed.

Lemma modify_inv (Src : Type) (f : Parser Src -> Parser Src)
      (p p' : Parser Src) (a : unit) :
  modify f p = (Ok a, p') -> p' = f p.
Proof. unfold modify. now intros [= _ <-]. Qed.

Lemma ret_inv (Src A : Type) (a b : A) (p p' : Parser Src) :
  ret a p = (Ok b, p') -> b = a /\ p' = p.
Proof. unfold ret. intros [= <- <-]. auto. Qed.

(** A computation that returned: its first step returned, and the rest
    returned from there. *)
Tactic Notation "bind_inv" hyp(H) "as" simple_intropattern(a) ident(Ha) :=
  let p := fresh "p" in apply bind_ok_inv in H as (a & p & Ha & H).

Tactic Notation "bind_inv_at" hyp(H) "as" simple_intropattern(a) ident(q)
       ident(Ha) :=
  apply bind_ok_inv in H as (a & q & Ha & H).

Tactic Notation "bind_skip" hyp(H) :=
  let p := fresh "p" in apply bind_ok_inv in H as (? & p & _ & H).

(** Case analysis on what the computation in [H] branches on first. *)
Ltac case_head H :=
  match type of H with
  | (match ?X with _ => _ end) _ = _ => destruct X eqn:?
  end.

(** ** Ligatures *)

Lemma nth_error_after (A : Type) (pre l : list A) (k : nat) :
  nth_error (pre ++ l) (length pre + k) = nth_error l k.
Proof.
  rewrite nth_error_app2 by lia. f_equal. lia.
Qed.

Lemma text_at_after (pre l : list AnyParseNode) (k : nat) :
  text_at (pre ++ l) (length pre + k) = text_at l k.
Proof. unfold text_at. now rewrite nth_error_after. Qed.

Lemma loc_at_after (pre l : list AnyParseNode) (k : nat) :
  loc_at (pre ++ l) (length pre + k) = loc_at l k.
Proof. unfold loc_at. now rewrite nth_error_after. Qed.

Lemma splice_after (pre l : list AnyParseNode) (k : nat) (x : AnyParseNode) :
  splice (pre ++ l) (length pre) k x = pre ++ x :: skipn k l.
Proof.
  unfold splice.
  rewrite firstn_app, firstn_all, Nat.sub_diag, firstn_O, app_nil_r.
  rewrite skipn_app.
  replace (length pre + k - length pre) with k by lia.
  rewrite skipn_all2 by lia. reflexivity.
Qed.

Lemma nth_error_at (A : Type) (pre l : list A) :
  nth_error (pre ++ l) (length pre) = nth_error l 0.
Proof. rewrite <- (Nat.add_0_r (length pre)) at 1. apply nth_error_after. Qed.

Lemma app_cons_snoc (A : Type) (pre : list A) (x : A) (l : list A) :
  pre ++ x :: l = (pre ++ [x]) ++ l.
Proof. now rewrite <- app_assoc. Qed.

Lemma formLigatures_loop_rec (fuel : nat) :
  forall pre post : list AnyParseNode,
    length post <= fuel ->
    formLigatures_loop fuel (length pre)
      (Z.of_nat (length pre + length post) - 1) (pre ++ post)
    = pre ++ formLigatures_rec post.
Proof.
  induction fuel as [|fuel IH]; intros pre post Hlen.
  - destruct post; [reflexivity | simpl in Hlen; lia].
  - assert (Hstep : forall x R n',
               length R <= fuel ->
               n' = (Z.of_nat (length pre + 1 + length R) - 1)%Z ->
               formLigatures_loop fuel (length pre + 1) n' (pre ++ x :: R)
               = pre ++ x :: formLigatures_rec R).
    { intros x R n' HR ->. rewrite app_cons_snoc.
      specialize (IH (pre ++ [x]) R HR).
      rewrite length_app in IH. simpl length in IH.
      rewrite IH, <- app_assoc. reflexivity. }
    destruct post as [|a [|b rest]].
    + simpl. replace (_ <? _)%Z with false by (symmetry; apply Z.ltb_ge; lia).
      reflexivity.
    + simpl. replace (_ <? _)%Z with false by (symmetry; apply Z.ltb_ge; simpl; lia).
      reflexivity.
    + cbn [formLigatures_loop].
      replace (_ <? _)%Z with true by (symmetry; apply Z.ltb_lt; simpl; lia).
      rewrite nth_error_at. cbn [nth_error].
      rewrite !text_at_after, !loc_at_after.
      cbn [text_at loc_at nth_error formLigatures_rec].
      simpl in Hlen.
      destruct (is_text (node_text a) "-" && is_text (node_text b) "-") eqn:Hdash.
      * destruct (node_text a) as [v|] eqn:Hv; [|simpl in Hdash; discriminate].
        assert (Hquote : (String.eqb v "'" || String.eqb v "`") = false).
        { simpl in Hdash. apply andb_true_iff in Hdash as [Ha _].
          apply String.eqb_eq in Ha. subst v. reflexivity. }
        destruct rest as [|c rest].
        -- replace (_ <? _)%Z with false by (symmetry; apply Z.ltb_ge; simpl; lia).
           simpl andb. cbv iota beta. rewrite Hquote. simpl andb. cbv iota beta.
           rewrite splice_after. simpl skipn.
           rewrite (Hstep _ []); [reflexivity | cbn [length] in *; lia | cbn [length] in *; lia].
        -- replace (_ <? _)%Z with true by (symmetry; apply Z.ltb_lt; simpl; lia).
           simpl andb.
           cbn [text_at loc_at nth_error].
           destruct (is_text (node_text c) "-") eqn:Hc;
             cbv iota beta; rewrite Hquote; simpl andb; cbv iota beta;
             rewrite splice_after; simpl skipn;
             rewrite Hstep; try reflexivity; cbn [length] in *; lia.
      * destruct (node_text a) as [v|] eqn:Hv.
        -- rewrite text_at_after. cbn [text_at nth_error].
           destruct ((String.eqb v "'" || String.eqb v "`")
                     && is_text (node_text b) v) eqn:Hq.
           ++ cbv iota beta. rewrite loc_at_after. cbn [loc_at nth_error].
              rewrite splice_after. simpl skipn.
              rewrite Hstep; try reflexivity; cbn [length] in *; lia.
           ++ rewrite Hstep; try reflexivity; cbn [length] in *; lia.
        -- rewrite Hstep; try reflexivity; cbn [length] in *; lia.
Qed.

(** The loop of [formLigatures] never needs more steps than the list has
    elements: any larger allowance gives the same list. *)
Lemma formLigatures_fuel (fuel : nat) (group : list AnyParseNode) :
  length group <= fuel ->
  formLigatures_loop fuel 0 (Z.of_nat (length group) - 1) group
  = formLigatures group.
Proof.
  intros H. unfold formLigatures.
  pose proof (@formLigatures_loop_rec fuel [] group H) as H1.
  pose proof (@formLigatures_loop_rec (length group) [] group (le_n _)) as H2.
  cbn [length app Nat.add] in H1, H2. congruence.
Qed.

Lemma formLigatures_is_rec (group : list AnyParseNode) :
  formLigatures group = formLigatures_rec group.
Proof.
  unfold formLigatures.
  exact (@formLigatures_loop_rec (length group) [] group (le_n _)).
Qed.

Lemma quote_cases (v : string) :
  (String.eqb v "'" || String.eqb v "`") = true -> v = "'" \/ v = "`".
Proof.
  intros H. apply orb_true_iff in H as [H|H]; apply String.eqb_eq in H; auto.
Qed.

Lemma collapsible_left_collapsed (x y : AnyParseNode) (t : string) :
  node_text x = Some t -> collapsed_text t -> collapsible x y = false.
Proof.
  intros Hx Ht. unfold collapsible. rewrite Hx.
  destruct Ht as [-> | [-> | [-> | ->]]]; reflexivity.
Qed.

Lemma collapsible_right_collapsed (a h : AnyParseNode) (t : string) :
  node_text h = Some t -> collapsed_text t -> collapsible a h = false.
Proof.
  intros Hh Ht. unfold collapsible. rewrite Hh.
  assert (H1 : is_text (Some t) "-" = false)
    by (destruct Ht as [-> | [-> | [-> | ->]]]; reflexivity).
  rewrite H1, andb_false_r. simpl.
  destruct (node_text a) as [v|]; [|reflexivity].
  destruct (String.eqb v "'" || String.eqb v "`") eqn:Hq; [|reflexivity].
  apply quote_cases in Hq as [-> | ->];
    destruct Ht as [-> | [-> | [-> | ->]]]; reflexivity.
Qed.

Lemma collapsible_same_text (a b h : AnyParseNode) :
  node_text h = node_text b -> collapsible a h = collapsible a b.
Proof. intros H. unfold collapsible. now rewrite H. Qed.

Lemma formLigatures_rec_keep (a b : AnyParseNode) (r : list AnyParseNode) :
  collapsible a b = false ->
  formLigatures_rec (a :: b :: r) = a :: formLigatures_rec (b :: r).
Proof.
  unfold collapsible. intros H. apply orb_false_iff in H as [H1 H2].
  cbn [formLigatures_rec]. rewrite H1.
  destruct (node_text a) as [v|]; [rewrite H2|]; reflexivity.
Qed.

Lemma formLigatures_rec_inert (x : AnyParseNode) (r : list AnyParseNode) :
  (forall y, collapsible x y = false) ->
  formLigatures_rec (x :: r) = x :: formLigatures_rec r.
Proof.
  intros H. destruct r as [|y r]; [reflexivity|].
  now apply formLigatures_rec_keep.
Qed.

(** The first node of the result has the text of the first node of the
    input, or the text of a ligature. *)
Lemma formLigatures_rec_head (b : AnyParseNode) (r : list AnyParseNode) :
  exists h R, formLigatures_rec (b :: r) = h :: R
              /\ (node_text h = node_text b
                  \/ exists t, node_text h = Some t /\ collapsed_text t).
Proof.
  destruct r as [|c r]; [exists b, []; auto|].
  cbn [formLigatures_rec].
  destruct (is_text (node_text b) "-" && is_text (node_text c) "-").
  - destruct r as [|d r].
    + eexists _, _. split; [reflexivity|]. right. exists "--".
      split; [reflexivity | unfold collapsed_text; auto].
    + destruct (is_text (node_text d) "-");
        (eexists _, _; split; [reflexivity|]; right; eexists; split;
         [reflexivity | unfold collapsed_text; auto]).
  - destruct (node_text b) as [v|] eqn:Hv.
    + destruct ((String.eqb v "'" || String.eqb v "`")
                && is_text (node_text c) v) eqn:Hq.
      * apply andb_true_iff in Hq as [Hq _]. apply quote_cases in Hq.
        eexists _, _. split; [reflexivity|]. right. exists (v +++ v).
        split; [reflexivity|].
        destruct Hq as [-> | ->]; unfold collapsed_text; auto.
      * eexists _, _. split; [reflexivity|]. left. now rewrite Hv.
    + eexists _, _. split; [reflexivity|]. left. now rewrite Hv.
Qed.

Lemma formLigatures_rec_unfold (a b : AnyParseNode) (rest : list AnyParseNode) :
  formLigatures_rec (a :: b :: rest) =
  if is_text (node_text a) "-" && is_text (node_text b) "-" then
    match rest with
    | c :: rest' =>
        if is_text (node_text c) "-"
        then ligature a c "---" :: formLigatures_rec rest'
        else ligature a b "--" :: formLigatures_rec rest
    | [] => [ligature a b "--"]
    end
  else
    match node_text a with
    | Some v =>
        if (String.eqb v "'" || String.eqb v "`") && is_text (node_text b) v
        then ligature a b (v +++ v) :: formLigatures_rec rest
        else a :: formLigatures_rec (b :: rest)
    | None => a :: formLigatures_rec (b :: rest)
    end.
Proof. reflexivity. Qed.

Lemma formLigatures_rec_idem_bounded (n : nat) :
  forall l : list AnyParseNode,
    length l <= n ->
    formLigatures_rec (formLigatures_rec l) = formLigatures_rec l.
Proof.
  induction n as [|n IH]; intros l Hl.
  - destruct l; [reflexivity | simpl in Hl; lia].
  - destruct l as [|a [|b rest]]; [reflexivity | reflexivity |].
    cbn [length] in Hl.
    assert (Hmerged : forall x t R,
               node_text x = Some t -> collapsed_text t -> length R <= n ->
               formLigatures_rec (x :: formLigatures_rec R)
               = x :: formLigatures_rec R).
    { intros x t R Hx Ht HR. rewrite formLigatures_rec_inert.
      - now rewrite IH.
      - intros y. eapply collapsible_left_collapsed; eauto. }
    assert (Hkeep : collapsible a b = false ->
               formLigatures_rec (a :: formLigatures_rec (b :: rest))
               = a :: formLigatures_rec (b :: rest)).
    { intros Hab.
      destruct (formLigatures_rec_head b rest) as (h & R & Heq & Hh).
      assert (Hidem := IH (b :: rest) ltac:(cbn [length]; lia)).
      rewrite Heq in Hidem |- *.
      rewrite formLigatures_rec_keep, Hidem; [reflexivity|].
      destruct Hh as [Hh | (t & Hh & Ht)].
      - now rewrite (@collapsible_same_text a b h Hh).
      - eapply collapsible_right_collapsed; eauto. }
    rewrite (formLigatures_rec_unfold a b rest).
    destruct (is_text (node_text a) "-" && is_text (node_text b) "-") eqn:Hdash.
    + destruct rest as [|c rest].
      * reflexivity.
      * destruct (is_text (node_text c) "-").
        -- apply (Hmerged _ "---"); [reflexivity | unfold collapsed_text; auto |].
           cbn [length] in Hl. lia.
        -- apply (Hmerged _ "--" (c :: rest));
             [reflexivity | unfold collapsed_text; auto |].
           cbn [length] in Hl |- *. lia.
    + destruct (node_text a) as [v|] eqn:Hv.
      * destruct ((String.eqb v "'" || String.eqb v "`")
                  && is_text (node_text b) v) eqn:Hq.
        -- apply (Hmerged _ (v +++ v)); [reflexivity | | lia].
           apply andb_true_iff in Hq as [Hq _].
           apply quote_cases in Hq as [-> | ->]; unfold collapsed_text; auto.
        -- apply Hkeep. unfold collapsible. now rewrite Hv, Hdash, Hq.
      * apply Hkeep. unfold collapsible. now rewrite Hv, Hdash.
Qed.

(** C9: [formLigatures] is idempotent: run a second time on a list it has
    already processed, it leaves the list unchanged. *)
Theorem formLigatures_idempotent (group : list AnyParseNode) :
  formLigatures (formLigatures group) = formLigatures group.
Proof.
  rewrite !formLigatures_is_rec.
  exact (@formLigatures_rec_idem_bounded (length group) group (le_n _)).
Qed.

(** ** The infix scan *)

Lemma scan_no_infix (rest : list AnyParseNode) :
  forall (i overIndex : Z) (funcName : option string),
    Forall (fun n => is_infix n = false) rest ->
    handleInfixNodes_scan rest i overIndex funcName = inr (overIndex, funcName).
Proof.
  induction rest as [|n rest IH]; intros i o f H; [reflexivity|].
  inversion H as [|? ? Hn Hrest]; subst. cbn [handleInfixNodes_scan].
  unfold is_infix in Hn. rewrite Hn. now apply IH.
Qed.

Lemma scan_one_infix (pre : list AnyParseNode) :
  forall (x : AnyParseNode) (post : list AnyParseNode) (i : Z)
         (funcName : option string),
    Forall (fun n => is_infix n = false) pre ->
    is_infix x = true ->
    Forall (fun n => is_infix n = false) post ->
    handleInfixNodes_scan (pre ++ x :: post) i (-1) funcName
    = inr ((i + Z.of_nat (length pre))%Z, node_replaceWith x).
Proof.
  induction pre as [|n pre IH]; intros x post i f Hpre Hx Hpost.
  - cbn [app handleInfixNodes_scan length]. unfold is_infix in Hx. rewrite Hx.
    cbn. rewrite scan_no_infix by assumption. f_equal. f_equal. lia.
  - inversion Hpre as [|? ? Hn Hrest]; subst.
    cbn [app handleInfixNodes_scan]. unfold is_infix in Hn. rewrite Hn.
    rewrite IH by assumption. f_equal. f_equal. cbn [length]. lia.
Qed.

Lemma scan_after_found (rest : list AnyParseNode) :
  forall (i overIndex : Z) (funcName : option string) (j : nat)
         (b : AnyParseNode),
    overIndex <> (-1)%Z ->
    nth_error rest j = Some b ->
    is_infix b = true ->
    exists tok,
      handleInfixNodes_scan rest i overIndex funcName
      = inl (ParseError infixMessage tok).
Proof.
  induction rest as [|n rest IH]; intros i o f j b Ho Hj Hb.
  - destruct j; discriminate.
  - cbn [handleInfixNodes_scan].
    destruct (String.eqb (node_type n) "infix") eqn:Hn.
    + apply Z.eqb_neq in Ho. rewrite Ho. cbn. eauto.
    + destruct j as [|j].
      * injection Hj as ->. unfold is_infix in Hb. congruence.
      * eapply IH; eauto.
Qed.

Lemma scan_two_infix (rest : list AnyParseNode) :
  forall (i overIndex : Z) (funcName : option string) (j k : nat)
         (a b : AnyParseNode),
    (0 <= i)%Z ->
    j < k ->
    nth_error rest j = Some a -> is_infix a = true ->
    nth_error rest k = Some b -> is_infix b = true ->
    exists tok,
      handleInfixNodes_scan rest i overIndex funcName
      = inl (ParseError infixMessage tok).
Proof.
  induction rest as [|n rest IH]; intros i o f j k a b Hi Hjk Hj Ha Hk Hb.
  - destruct j; discriminate.
  - destruct k as [|k]; [lia|]. cbn [nth_error] in Hk.
    cbn [handleInfixNodes_scan].
    destruct (String.eqb (node_type n) "infix") eqn:Hn.
    + destruct (negb (o =? -1)%Z); [cbn; eauto|].
      eapply scan_after_found; eauto. lia.
    + destruct j as [|j].
      * injection Hj as ->. unfold is_infix in Ha. congruence.
      * cbn [nth_error] in Hj. eapply (IH _ _ _ j k); eauto; lia.
Qed.

Lemma split_at_index (A : Type) (l : list A) :
  forall (k : nat) (x : A),
    nth_error l k = Some x -> l = firstn k l ++ x :: skipn (S k) l.
Proof.
  induction l as [|y l IH]; intros k x H.
  - destruct k; discriminate.
  - destruct k as [|k].
    + injection H as ->. reflexivity.
    + cbn [firstn skipn app]. f_equal. now apply IH.
Qed.

Lemma others_not_infix (body : list AnyParseNode) (k : nat) :
  (forall j n, j <> k -> nth_error body j = Some n -> is_infix n = false) ->
  Forall (fun n => is_infix n = false) (firstn k body)
  /\ Forall (fun n => is_infix n = false) (skipn (S k) body).
Proof.
  intros H. split; apply Forall_forall; intros n Hin;
    apply In_nth_error in Hin as [j Hj].
  - assert (j < k).
    { assert (Hl : j < length (firstn k body))
        by (apply nth_error_Some; congruence).
      rewrite length_firstn in Hl. lia. }
    apply (H j); [lia|]. rewrite nth_error_firstn in Hj.
    destruct (j <? k) eqn:E; [assumption | discriminate].
  - rewrite nth_error_skipn in Hj. apply (H (S k + j)); [lia | assumption].
Qed.

Lemma scan_found_inr (rest : list AnyParseNode) :
  forall (i overIndex o' : Z) (funcName f' : option string),
    overIndex <> (-1)%Z ->
    handleInfixNodes_scan rest i overIndex funcName = inr (o', f') ->
    o' = overIndex /\ f' = funcName /\ Forall not_infix rest.
Proof.
  induction rest as [|n rest IH]; intros i o o' f f' Ho H.
  - injection H as <- <-. auto.
  - cbn [handleInfixNodes_scan] in H.
    destruct (String.eqb (node_type n) "infix") eqn:Hn.
    + apply Z.eqb_neq in Ho. rewrite Ho in H. discriminate.
    + apply IH in H as (-> & -> & Hrest); auto.
Qed.

Lemma scan_inr (rest : list AnyParseNode) :
  forall (i o' : Z) (funcName f' : option string),
    (0 <= i)%Z ->
    handleInfixNodes_scan rest i (-1) funcName = inr (o', f') ->
    (o' = (-1)%Z /\ Forall not_infix rest)
    \/ (o' <> (-1)%Z
        /\ exists x, In x rest /\ is_infix x = true
                     /\ f' = node_replaceWith x).
Proof.
  induction rest as [|n rest IH]; intros i o' f f' Hi H.
  - injection H as <- <-. auto.
  - cbn [handleInfixNodes_scan] in H.
    destruct (String.eqb (node_type n) "infix") eqn:Hn.
    + cbn in H. apply scan_found_inr in H as (-> & -> & _); [|lia].
      right. split; [lia|]. exists n. cbn. auto.
    + apply IH in H as [[-> Hrest] | [Ho (x & Hin & Hx & ->)]]; [| |lia].
      * left. auto.
      * right. split; [assumption|]. exists x. cbn. auto.
Qed.

(** Ligature formation keeps what holds of every node and of every
    ligature. *)
Lemma formLigatures_rec_Forall (P : AnyParseNode -> Prop) :
  (forall a b t, P (ligature a b t)) ->
  forall (n : nat) (l : list AnyParseNode),
    length l <= n -> Forall P l -> Forall P (formLigatures_rec l).
Proof.
  intros Hlig. induction n as [|n IH]; intros l Hl HP.
  - destruct l; [constructor | cbn in Hl; lia].
  - destruct l as [|a [|b rest]]; [constructor | assumption |].
    cbn [length] in Hl.
    inversion HP as [|? ? Ha HP1]; subst.
    inversion HP1 as [|? ? Hb HP2]; subst.
    cbn [formLigatures_rec].
    destruct (is_text (node_text a) "-" && is_text (node_text b) "-").
    + destruct rest as [|c rest]; [repeat constructor; apply Hlig|].
      inversion HP2; subst. cbn [length] in Hl.
      destruct (is_text (node_text c) "-"); constructor;
        try apply Hlig; apply IH; try assumption; cbn [length]; lia.
    + assert (Hkeep : Forall P (a :: formLigatures_rec (b :: rest))).
      { constructor; [assumption|]. apply IH; [cbn [length]; lia | assumption]. }
      destruct (node_text a) as [v|]; [|exact Hkeep].
      destruct ((String.eqb v "'" || String.eqb v "`")
                && is_text (node_text b) v); [|exact Hkeep].
      constructor; [apply Hlig|]. apply IH; [lia | assumption].
Qed.

(** ** The parser methods *)

Section Facts.

Variable Src : Type.
Variable T : Tables Src.

Lemma fetch_cached (p : Parser Src) (t : Token.t) :
  nextToken p = Some t -> fetch T p = (Ok t, p).
Proof. unfold fetch. now intros ->. Qed.

Lemma fetch_ok (p p' : Parser Src) (t : Token.t) :
  fetch T p = (Ok t, p') -> nextToken p' = Some t /\ mode p' = mode p.
Proof.
  unfold fetch. destruct (nextToken p) eqn:Hn.
  - intros [= <- <-]. auto.
  - destruct (expandNextToken T (gullet p)) as [[t'|e|] g]; intros [= <- <-]; auto.
Qed.

Lemma fetch_again (p p' : Parser Src) (t : Token.t) :
  fetch T p = (Ok t, p') -> fetch T p' = (Ok t, p').
Proof. intros H. apply fetch_cached. now apply fetch_ok in H. Qed.

Lemma fetch_mode (p p' : Parser Src) (r : Outcome Token.t) :
  fetch T p = (r, p') -> mode p' = mode p.
Proof.
  unfold fetch. destruct (nextToken p).
  - now intros [= <- <-].
  - destruct (expandNextToken T (gullet p)) as [[t'|e|] g]; now intros [= <- <-].
Qed.

Lemma consumeSpaces_mode (fuel : nat) :
  forall (p p' : Parser Src) (r : Outcome unit),
    consumeSpaces T fuel p = (r, p') -> mode p' = mode p.
Proof.
  induction fuel as [|fuel IH]; intros p p' r; cbn [consumeSpaces].
  - now intros [= <- <-].
  - unfold bind. destruct (fetch T p) as [[t|e|] p1] eqn:Hf;
      try (intros [= <- <-]; now apply fetch_mode in Hf).
    apply fetch_mode in Hf.
    destruct (String.eqb _ _).
    + unfold consume, modify. intros H. apply IH in H. now rewrite H.
    + unfold ret. now intros [= <- <-].
Qed.

Lemma reads_primes_mode (k : nat) (p p' : Parser Src) :
  reads_primes T k p p' -> mode p' = mode p.
Proof.
  induction 1 as [|k p tok p1 p2 Hf _ _ IH]; [reflexivity|].
  apply fetch_mode in Hf. now rewrite IH.
Qed.

Lemma parseAtom_primes_run (prime : AnyParseNode) :
  forall (k steps : nat) (p p1 p2 : Parser Src) (tok : Token.t)
         (primes : list AnyParseNode),
    reads_primes T k p p1 ->
    fetch T p1 = (Ok tok, p2) ->
    Token.text tok <> "'" ->
    k < steps ->
    parseAtom_primes T steps prime primes p
    = (Ok (primes ++ repeat prime k), p2).
Proof.
  intros k steps p p1 p2 tok primes Hr. revert steps primes.
  induction Hr as [p|k p t pa pb Hf Ht Hr IH]; intros steps primes Hend Hne Hk.
  - destruct steps as [|steps]; [lia|]. cbn [parseAtom_primes]. unfold bind.
    rewrite Hend. apply String.eqb_neq in Hne. rewrite Hne.
    now rewrite app_nil_r.
  - destruct steps as [|steps]; [lia|]. cbn [parseAtom_primes]. unfold bind.
    rewrite Hf, Ht. cbn [String.eqb Ascii.eqb Bool.eqb andb].
    unfold consume, modify. cbv beta iota.
    rewrite (IH steps (primes ++ [prime]) Hend Hne ltac:(lia)).
    now rewrite <- app_assoc.
Qed.

(** C7: while [parseAtom] scans postfix modifiers (the loop only runs in
    math mode), with [lex] the token read after the spaces: a [^] when a
    superscript is already set raises "Double superscript", a [_] when a
    subscript is already set raises "Double subscript", and a ['] when a
    superscript is already set raises "Double superscript". *)
Theorem parseAtom_double_script (this : Methods Src) (fuel steps : nat)
        (base other : option AnyParseNode) (node : AnyParseNode)
        (p p1 p2 : Parser Src) (lex : Token.t) :
  consumeSpaces T fuel p = (Ok tt, p1) ->
  fetch T p1 = (Ok lex, p2) ->
  (Token.text lex = "^" ->
   parseAtom_loop T this fuel (S steps) base (Some node) other p
   = (Throw (ParseError "Double superscript" (Some lex)), p2))
  /\ (Token.text lex = "_" ->
      parseAtom_loop T this fuel (S steps) base other (Some node) p
      = (Throw (ParseError "Double subscript" (Some lex)), p2))
  /\ (Token.text lex = "'" ->
      parseAtom_loop T this fuel (S steps) base (Some node) other p
      = (Throw (ParseError "Double superscript" (Some lex)), p2)).
Proof.
  intros Hs Hf.
  repeat split; intros Ht; cbn [parseAtom_loop]; unfold bind;
    rewrite Hs, Hf, Ht; reflexivity.
Qed.

(** A run of [S k] primes becomes an ordgroup of [S k] prime nodes, with
    the group of a directly following [^] appended. *)
Lemma parseAtom_primes_superscript (this : Methods Src) (fuel steps k : nat)
        (base sub : option AnyParseNode)
        (p p0 p1 p2 : Parser Src) (tok : Token.t) :
  consumeSpaces T fuel p = (Ok tt, p0) ->
  reads_primes T (S k) p0 p1 ->
  fetch T p1 = (Ok tok, p2) ->
  Token.text tok <> "'" ->
  k < fuel ->
  let prime := Symbol textord (mode p) None "\prime" in
  (Token.text tok <> "^" ->
   parseAtom_loop T this fuel (S steps) base None sub p
   = parseAtom_loop T this fuel steps base
       (Some (Ordgroup (mode p) None (repeat prime (S k)) false)) sub p2)
  /\ (forall group p3,
         Token.text tok = "^" ->
         m_handleSupSubscript this "superscript" p2 = (Ok group, p3) ->
         parseAtom_loop T this fuel (S steps) base None sub p
         = parseAtom_loop T this fuel steps base
             (Some (Ordgroup (mode p3) None (repeat prime (S k) ++ [group])
                             false)) sub p3).
Proof.
  intros Hs Hr Hend Hne Hk prime.
  inversion Hr as [|k' pa t pb pc Hf Ht Hr' Ek Ep Ec]; subst.
  pose proof (consumeSpaces_mode _ _ Hs) as Hm0.
  pose proof (fetch_mode _ Hf) as Hm1.
  pose proof (reads_primes_mode Hr') as Hm2. cbn in Hm2.
  pose proof (fetch_mode _ Hend) as Hm3.
  assert (Hprime : Symbol textord (mode pb) None "\prime" = prime)
    by (unfold prime; congruence).
  assert (Hrun := parseAtom_primes_run prime [prime] Hr' Hend Hne Hk).
  pose proof Hend as Hend'. apply fetch_again in Hend'.
  split.
  - intros Hnc. cbn [parseAtom_loop]. unfold bind at 1 2.
    rewrite Hs, Hf, Ht. cbn [String.eqb Ascii.eqb Bool.eqb andb orb].
    unfold bind, gets, consume, modify. rewrite Hprime, Hrun, Hend'.
    apply String.eqb_neq in Hnc. rewrite Hnc. unfold ret.
    replace (mode p2) with (mode p) by congruence. reflexivity.
  - intros group p3 Hc Hh. cbn [parseAtom_loop]. unfold bind at 1 2.
    rewrite Hs, Hf, Ht. cbn [String.eqb Ascii.eqb Bool.eqb andb orb].
    unfold bind, gets, consume, modify. rewrite Hprime, Hrun, Hend', Hc.
    cbn [String.eqb Ascii.eqb Bool.eqb andb orb]. rewrite Hh.
    unfold ret. reflexivity.
Qed.

(** Two infix nodes in a sibling list make [handleInfixNodes] raise. *)
Lemma handleInfixNodes_two (this : Methods Src) (body : list AnyParseNode)
      (j k : nat) (a b : AnyParseNode) (p : Parser Src) :
  j < k ->
  nth_error body j = Some a -> is_infix a = true ->
  nth_error body k = Some b -> is_infix b = true ->
  exists tok,
    handleInfixNodes this body p = (Throw (ParseError infixMessage tok), p).
Proof.
  intros Hjk Hj Ha Hk Hb. unfold handleInfixNodes.
  destruct (scan_two_infix body (i := 0) (-1) None ltac:(lia) Hjk Hj Ha Hk Hb)
    as [tok ->].
  exists tok. reflexivity.
Qed.

(** C5: when the sibling list holds exactly one infix node, at index
    [k], and its [replaceWith] is a name [fn] (as it is in every list the
    parser passes: no infix node of such a list has an empty name), then
    [handleInfixNodes] splits the list into [body[0..k)] and [body[k+1..)],
    reuses a side that is a single ordgroup and wraps any other in a new
    ordgroup, calls the function [fn] with [numer; denom] (with
    [numer; body[k]; denom] when [fn] is [\\abovefrac]) and returns the
    one-element list of the result; an exception of the call propagates. *)
Theorem handleInfixNodes_rewrites (fuel : nat) (body : list AnyParseNode)
        (k : nat) (infixNode : AnyParseNode) (fn : string) (p : Parser Src) :
  nth_error body k = Some infixNode ->
  is_infix infixNode = true ->
  (forall j n, j <> k -> nth_error body j = Some n -> is_infix n = false) ->
  node_replaceWith infixNode = Some fn ->
  fn <> "" ->
  let numer := infix_side (mode p) (firstn k body) in
  let denom := infix_side (mode p) (skipn (S k) body) in
  let args := if String.eqb fn "\\abovefrac"
              then [numer; infixNode; denom] else [numer; denom] in
  handleInfixNodes (parser T (S fuel)) body p
  = match callFunction T (parser T fuel) fn args [] None None p with
    | (Ok node, p') => (Ok [node], p')
    | (Throw e, p') => (Throw e, p')
    | (OutOfFuel, p') => (OutOfFuel, p')
    end.
Proof.
  intros Hk Hx Hothers Hfn Hne numer denom args.
  destruct (others_not_infix body Hothers) as [Hpre Hpost].
  assert (Hlen : k < length body) by (apply nth_error_Some; congruence).
  pose proof (scan_one_infix infixNode 0 None Hpre Hx Hpost) as Hscan.
  rewrite <- (split_at_index body k Hk), length_firstn, Hfn in Hscan.
  replace (0 + Z.of_nat (Nat.min k (length body)))%Z with (Z.of_nat k)
    in Hscan by lia.
  unfold handleInfixNodes. rewrite Hscan.
  replace (negb (Z.of_nat k =? -1)%Z) with true
    by (symmetry; apply negb_true_iff, Z.eqb_neq; lia).
  apply String.eqb_neq in Hne. cbn [truthy andb]. rewrite Hne. cbn [negb].
  replace (Z.to_nat (Z.of_nat k + 1)) with (S k) by lia.
  unfold bodyAt. rewrite Nat2Z.id, Hk.
  unfold bind, gets. cbn [m_callFunction parser].
  subst args numer denom. unfold infix_side.
  destruct (String.eqb fn "\\abovefrac"); reflexivity.
Qed.

(** C2, amended: a call of [parseGroup] with an explicit mode that
    returns normally leaves the parser (and the mode the token interface
    was told) in the mode the parser had before the call. *)
Theorem parseGroup_restores_mode (this : Methods Src) (fuel : nat)
        (name : string) (optional : bool) (greediness_ : option Z)
        (breakOnTokenText : option string) (m : Mode) (consumeSpaces_ : bool)
        (p p' : Parser Src) (r : option AnyParseNode) :
  parseGroup T this fuel name optional greediness_ breakOnTokenText (Some m)
             consumeSpaces_ p = (Ok r, p') ->
  mode p' = mode p /\ me_mode (gullet p') = mode p.
Proof.
  unfold parseGroup. intros H.
  bind_inv H as outerMode Hout. apply gets_inv in Hout as [-> ->].
  bind_skip H. bind_skip H. bind_skip H. bind_skip H.
  bind_inv H as u Hsw. apply modify_inv in Hsw as ->.
  apply ret_inv in H as [_ ->]. split; reflexivity.
Qed.

(** C3, amended: [parseUrlGroup] parses the raw string group from a state
    in which the catcode of [%] is 13, and whenever it returns normally the
    catcode of [%] is 14. *)
Theorem parseUrlGroup_catcode (fuel : nat) (optional consumeSpaces_ : bool)
        (p p' : Parser Src) (r : option AnyParseNode) :
  parseUrlGroup T fuel optional consumeSpaces_ p = (Ok r, p') ->
  let p0 := set_gullet (lexer_setCatcode "%" 13 (gullet p)) p in
  me_catcodes (gullet p0) "%" = Some 13%Z
  /\ (exists res p1,
         parseStringGroup T fuel "url" optional true p0 = (Ok res, p1)
         /\ p' = set_gullet (lexer_setCatcode "%" 14 (gullet p1)) p1)
  /\ me_catcodes (gullet p') "%" = Some 14%Z.
Proof.
  intros H p0. unfold parseUrlGroup in H.
  bind_inv H as u Hset. apply modify_inv in Hset as ->. fold p0 in H.
  bind_inv_at H as res q Hres.
  bind_inv H as u' Hset'. apply modify_inv in Hset' as ->.
  assert (Hp' : p' = set_gullet (lexer_setCatcode "%" 14 (gullet q)) q).
  { destruct res;
      [bind_inv_at H as m q' Hm; apply gets_inv in Hm as [_ ->]|];
      now apply ret_inv in H as [_ ->]. }
  split; [reflexivity|]. split; [eauto|]. now rewrite Hp'.
Qed.

Lemma parseUrlGroup_throws (fuel : nat) (optional consumeSpaces_ : bool)
      (p p1 : Parser Src) (e : Error) :
  parseStringGroup T fuel "url" optional true
    (set_gullet (lexer_setCatcode "%" 13 (gullet p)) p) = (Throw e, p1) ->
  parseUrlGroup T fuel optional consumeSpaces_ p = (Throw e, p1).
Proof.
  intros H. unfold parseUrlGroup, setCatcode, modify, bind at 1.
  now apply bind_throw.
Qed.

Lemma chars_length (s : string) : length (chars s) = String.length s.
Proof. induction s as [|c s IH]; cbn; congruence. Qed.

(** An undefined control sequence under [throwOnError = false]: the
    lookahead is a command that is no function, no symbol and no implicit
    command. *)
Lemma parseGroup_unsupported_cmd (fuel fuel' : nat) (name : string)
        (greediness_ : option Z) (breakOnTokenText : option string)
        (p : Parser Src) (tok : Token.t) :
  throwOnError (settings T) = false ->
  nextToken p = Some tok ->
  first_char (Token.text tok) = Some "\"%char ->
  Token.text tok <> "\begingroup" ->
  functions T (Token.text tok) = None ->
  implicitCommands T (Token.text tok) = false ->
  parseSymbol T p = (Ok None, p) ->
  parseGroup T (parser T (S fuel')) fuel name false greediness_
             breakOnTokenText None false p
  = (Ok (Some (Color (mode p) (errorColor (settings T))
                 [TextNode (mode p)
                    (map (fun c => Symbol textord text None c)
                         (chars (Token.text tok)))])),
     set_nextToken None p)
  /\ length (chars (Token.text tok)) = String.length (Token.text tok).
Proof.
  intros Hthrow Hnext Hfirst Hbegin Hfun Himpl Hsym.
  split; [|apply chars_length].
  assert (Hbrace : String.eqb (Token.text tok) "{" = false).
  { destruct (Token.text tok) as [|c s]; [discriminate|].
    injection Hfirst as ->. reflexivity. }
  apply String.eqb_neq in Hbegin.
  unfold parseGroup. rewrite bind_gets, bind_ret. unfold when.
  rewrite bind_ret, (bind_ok _ (fetch_cached p Hnext)).
  rewrite Hbrace, Hbegin. cbn [orb m_parseFunction parser].
  assert (Hpf : parseFunction T (parser T fuel') breakOnTokenText (Some name)
                              greediness_ p = (Ok None, p)).
  { unfold parseFunction. rewrite (bind_ok _ (fetch_cached p Hnext)), Hfun.
    reflexivity. }
  erewrite (bind_ok _ (p1 := set_nextToken None p)
                   (a := Some (Color (mode p) (errorColor (settings T))
                 [TextNode (mode p)
                    (map (fun c => Symbol textord text None c)
                         (chars (Token.text tok)))]))).
  - reflexivity.
  - rewrite (bind_ok _ Hpf), (bind_ok _ Hsym), Hfirst, Himpl, Hthrow.
    reflexivity.
Qed.

Section Resolve.

Hypothesis Hreg : registry_infix_ok T.

Lemma not_infix_rewritable (n : AnyParseNode) :
  is_infix n = false -> rewritable T n.
Proof. unfold rewritable. congruence. Qed.

Lemma callFunction_infix (this : Methods Src) name args optArgs tok b p node p' :
  callFunction T this name args optArgs tok b p = (Ok node, p') ->
  is_infix node = true ->
  (exists spec, functions T name = Some spec /\ infix spec = true)
  /\ rewritable T node.
Proof.
  unfold callFunction.
  destruct (functions T name) as [spec|] eqn:Hf; [|discriminate].
  destruct (handler spec) as [h|] eqn:Hh; [|discriminate].
  intros H Hi. destruct (Hreg _ _ _ _ _ _ Hf Hh H Hi). eauto.
Qed.

Lemma parseFunction_rewritable (this : Methods Src) b name g p node p' :
  good T this ->
  parseFunction T this b name g p = (Ok (Some node), p') -> rewritable T node.
Proof.
  intros Hgood H. unfold parseFunction in H. bind_inv H as tk Htk.
  destruct (functions T (Token.text tk)) as [f|];
    [|apply ret_inv in H as [[=] _]].
  bind_skip H. bind_inv H as m Hm.
  destruct (match g with Some g0 => _ | None => false end); [discriminate|].
  destruct (Mode_eqb m text && negb (allowedInText f)); [discriminate|].
  destruct (Mode_eqb m math && negb (allowedInMath f)); [discriminate|].
  bind_inv H as [args optArgs] Hargs. bind_inv H as res Hcall.
  apply ret_inv in H as [[= ->] _].
  destruct (is_infix res) eqn:Hi; [|now apply not_infix_rewritable].
  eapply good_callFunction; eauto.
Qed.

Lemma NonAtom_not_infix (k : NonAtom) : String.eqb (NonAtom_name k) "infix" = false.
Proof. destruct k; reflexivity. Qed.

Lemma parseSymbol_accents_not_infix (marks : list string) :
  forall nucleus symbol (p p' : Parser Src) r,
    parseSymbol_accents T marks nucleus symbol p = (Ok r, p') ->
    is_infix symbol = false -> is_infix r = false.
Proof.
  induction marks as [|mark marks IH]; intros nucleus symbol p p' r H Hs.
  - apply ret_inv in H as [-> _]. assumption.
  - cbn [parseSymbol_accents] in H.
    destruct (unicodeAccents T mark) as [byMode|]; [|discriminate].
    bind_inv H as m Hm. destruct (byMode m); [|discriminate].
    eapply IH; eauto.
Qed.

Lemma parseSymbol_not_infix (p p' : Parser Src) node :
  parseSymbol T p = (Ok (Some node), p') -> is_infix node = false.
Proof.
  unfold parseSymbol. intros H. bind_inv H as nucleus Hn.
  destruct (verbRegex_test (Token.text nucleus)).
  - bind_skip H. destruct (_ || _); [discriminate|].
    apply ret_inv in H as [[= ->] _]. reflexivity.
  - bind_inv H as m0 Hm0. bind_inv H as txt Htxt. bind_inv H as m Hm.
    bind_inv H as sym Hsym.
    destruct sym as [symbol|]; [|apply ret_inv in H as [[=] _]].
    assert (Hs : is_infix symbol = false).
    { clear H.
      case_head Hsym.
      - bind_skip Hsym. apply ret_inv in Hsym as [[= ->] _].
        destruct g; [reflexivity | apply NonAtom_not_infix].
      - case_head Hsym; [|apply ret_inv in Hsym as [[=] _]].
        case_head Hsym; [|apply ret_inv in Hsym as [[=] _]].
        bind_skip Hsym. apply ret_inv in Hsym as [[= ->] _]. reflexivity. }
    bind_skip H.
    destruct (combiningDiacriticalMarksEndRegex T txt) as [[index marks]|].
    + bind_inv H as r Hr. apply ret_inv in H as [[= ->] _].
      eapply parseSymbol_accents_not_infix; eauto.
    + apply ret_inv in H as [[= ->] _]. assumption.
Qed.

Lemma parseGroup_rewritable (this : Methods Src) fuel name o g b m c p node p' :
  good T this ->
  parseGroup T this fuel name o g b m c p = (Ok (Some node), p') ->
  rewritable T node.
Proof.
  intros Hgood H. unfold parseGroup in H.
  bind_skip H. bind_skip H. bind_skip H. bind_inv H as firstToken Hft.
  bind_inv H as result Hres. bind_skip H.
  apply ret_inv in H as [<- _].
  destruct (if o then _ else _).
  - bind_skip Hres. bind_skip Hres. bind_skip Hres. bind_skip Hres.
    bind_skip Hres. bind_skip Hres. bind_skip Hres.
    apply ret_inv in Hres as [[= ->] _].
    now apply not_infix_rewritable.
  - destruct o; [apply ret_inv in Hres as [[=] _]|].
    bind_inv Hres as fromFunction Hff. bind_inv Hres as result Hr.
    destruct result as [result|].
    + apply ret_inv in Hres as [[= ->] _].
      destruct fromFunction as [fromFunction|].
      * apply ret_inv in Hr as [[= ->] _]. eapply good_parseFunction; eauto.
      * apply not_infix_rewritable. eapply parseSymbol_not_infix; eauto.
    + destruct (_ && _); [|apply ret_inv in Hres as [[=] _]].
      destruct (throwOnError (settings T)); [discriminate|].
      bind_inv Hres as cmd Hcmd. bind_skip Hres.
      apply ret_inv in Hres as [[= ->] _].
      unfold formatUnsupportedCmd in Hcmd. bind_skip Hcmd.
      apply ret_inv in Hcmd as [-> _]. now apply not_infix_rewritable.
Qed.

Lemma node_assign_type (k : string) (v : PropValue) (n : AnyParseNode) :
  node_type (node_assign k v n) = node_type n.
Proof. destruct n; reflexivity. Qed.

Lemma parseAtom_loop_rewritable (this : Methods Src) fuel (steps : nat) :
  forall base sup sub (p p' : Parser Src) node,
    parseAtom_loop T this fuel steps base sup sub p = (Ok (Some node), p') ->
    (forall b, base = Some b -> rewritable T b) ->
    rewritable T node.
Proof.
  induction steps as [|steps IH]; intros base sup sub p p' node H Hbase;
    [discriminate|].
  cbn [parseAtom_loop] in H. bind_skip H. bind_inv H as lex Hlex.
  destruct (_ || _).
  { destruct base as [b|]; [|discriminate].
    destruct (String.eqb (node_type b) "op") eqn:Hop.
    - bind_skip H. eapply IH; eauto. intros b' [= <-].
      apply not_infix_rewritable. unfold is_infix.
      rewrite !node_assign_type.
      apply String.eqb_eq in Hop. now rewrite Hop.
    - destruct (String.eqb (node_type b) "operatorname"
                && node_alwaysHandleSupSub b) eqn:Hon; [|discriminate].
      bind_skip H. eapply IH; eauto. intros b' [= <-].
      apply not_infix_rewritable. unfold is_infix.
      rewrite !node_assign_type.
      apply andb_true_iff in Hon as [Hon _].
      apply String.eqb_eq in Hon. now rewrite Hon. }
  destruct (String.eqb (Token.text lex) "^").
  { destruct sup; [discriminate|]. bind_skip H. eapply IH; eauto. }
  destruct (String.eqb (Token.text lex) "_").
  { destruct sub; [discriminate|]. bind_skip H. eapply IH; eauto. }
  destruct (String.eqb (Token.text lex) "'").
  { destruct sup; [discriminate|].
    bind_skip H. bind_skip H. bind_skip H. bind_skip H. bind_skip H.
    bind_skip H. eapply IH; eauto. }
  destruct sup, sub.
  1-3: bind_skip H; apply ret_inv in H as [[= ->] _];
       now apply not_infix_rewritable.
  apply ret_inv in H as [<- _]. auto.
Qed.

Lemma parseAtom_rewritable (this : Methods Src) fuel b p node p' :
  good T this ->
  parseAtom T this fuel b p = (Ok (Some node), p') -> rewritable T node.
Proof.
  intros Hgood H. unfold parseAtom in H. bind_inv H as base Hb.
  bind_inv H as m Hm.
  assert (Hbase : forall b', base = Some b' -> rewritable T b').
  { intros b' ->. eapply good_parseGroup; eauto. }
  destruct (Mode_eqb m text).
  - apply ret_inv in H as [<- _]. auto.
  - eapply parseAtom_loop_rewritable; eauto.
Qed.

Lemma parseExpression_loop_rewritable (this : Methods Src) fuel (steps : nat) :
  good T this ->
  forall bi bt body (p p' : Parser Src) r,
    parseExpression_loop T this fuel steps bi bt body p = (Ok r, p') ->
    Forall (rewritable T) body -> Forall (rewritable T) r.
Proof.
  intros Hgood.
  induction steps as [|steps IH]; intros bi bt body p p' r H Hbody;
    [discriminate|].
  cbn [parseExpression_loop] in H. bind_skip H. bind_skip H.
  bind_inv H as lex Hlex.
  destruct (existsb _ _); [apply ret_inv in H as [-> _]; assumption|].
  destruct (_ && _); [apply ret_inv in H as [-> _]; assumption|].
  destruct (_ && _); [apply ret_inv in H as [-> _]; assumption|].
  bind_inv H as atom Hatom.
  destruct atom as [atom|]; [|apply ret_inv in H as [-> _]; assumption].
  eapply IH; eauto. apply Forall_app. split; [assumption|].
  constructor; [|constructor]. eapply good_parseAtom; eauto.
Qed.

Lemma handleInfixNodes_not_infix (this : Methods Src) body p r p' :
  good T this ->
  Forall (rewritable T) body ->
  handleInfixNodes this body p = (Ok r, p') -> Forall not_infix r.
Proof.
  intros Hgood Hbody H. unfold handleInfixNodes in H.
  destruct (handleInfixNodes_scan body 0 (-1) None) as [e|[o f]] eqn:Hscan;
    [discriminate|].
  apply scan_inr in Hscan as [[-> Hnone] | [Ho (x & Hin & Hx & ->)]]; [| |lia].
  - apply ret_inv in H as [-> _]. assumption.
  - rewrite Forall_forall in Hbody.
    destruct (Hbody x Hin Hx) as (fn & Hfn & Hne & Hspec).
    rewrite Hfn in H. apply Z.eqb_neq in Ho. apply String.eqb_neq in Hne.
    cbn [truthy] in H. rewrite Ho, Hne in H. cbn [negb andb] in H.
    bind_inv H as m Hm. apply gets_inv in Hm as [_ ->].
    bind_inv H as res Hres. apply ret_inv in H as [-> _].
    constructor; [|constructor]. unfold not_infix.
    destruct (is_infix res) eqn:Hi; [|reflexivity].
    assert (Hcall : exists args q,
               m_callFunction this fn args [] None None p = (Ok res, q)).
    { destruct (String.eqb fn "\\abovefrac"); eauto. }
    destruct Hcall as (args & q & Hcall).
    destruct (good_callFunction Hgood _ _ _ _ _ _ Hcall Hi)
      as [(spec & Hf & Hinf) _].
    rewrite (Hspec spec Hf) in Hinf. discriminate.
Qed.

Lemma ligature_rewritable a b t : rewritable T (ligature a b t).
Proof. now apply not_infix_rewritable. Qed.

Lemma parseExpression_not_infix (this : Methods Src) fuel bi bt p r p' :
  good T this ->
  parseExpression T this fuel bi bt p = (Ok r, p') -> Forall not_infix r.
Proof.
  intros Hgood H. unfold parseExpression in H. bind_inv H as body Hb.
  bind_inv H as m Hm.
  assert (Ha : Forall (rewritable T) body).
  { eapply parseExpression_loop_rewritable; eauto. }
  eapply (good_handleInfixNodes Hgood); [|exact H].
  destruct (Mode_eqb m text); [|assumption].
  rewrite formLigatures_is_rec.
  eapply formLigatures_rec_Forall; eauto using ligature_rewritable.
Qed.

Lemma parser_good (n : nat) : good T (parser T n).
Proof.
  induction n as [|n IH].
  - constructor; cbn; intros; discriminate.
  - constructor; cbn [parser m_callFunction m_parseFunction m_parseGroup
                      m_parseAtom m_handleInfixNodes m_parseExpression]; intros.
    + eapply callFunction_infix; eauto.
    + eapply parseFunction_rewritable; eauto.
    + eapply parseGroup_rewritable; eauto.
    + eapply parseAtom_rewritable; eauto.
    + eapply handleInfixNodes_not_infix; eauto.
    + eapply parseExpression_not_infix; eauto.
Qed.

(** In its group branch [parseGroup] returns an ordgroup whose body is the
    list [parseExpression] returned. *)
Lemma parseGroup_group_body (this : Methods Src) (fuel : nat) (name : string)
      (optional : bool) (g : option Z) (b : option string)
      (mode_ : option Mode) (p p' : Parser Src) (tok : Token.t)
      (node : AnyParseNode) :
  good T this ->
  nextToken p = Some tok ->
  (if optional then String.eqb (Token.text tok) "["
   else String.eqb (Token.text tok) "{"
        || String.eqb (Token.text tok) "\begingroup") = true ->
  parseGroup T this fuel name optional g b mode_ false p = (Ok (Some node), p') ->
  exists m loc body semisimple,
    node = Ordgroup m loc body semisimple /\ Forall not_infix body.
Proof.
  intros Hgood Hnext Hopen H. unfold parseGroup in H.
  bind_inv H as outerMode Hout. apply gets_inv in Hout as [-> ->].
  bind_inv_at H as u q Hsw.
  assert (Hq : nextToken q = Some tok).
  { destruct mode_; [apply modify_inv in Hsw | apply ret_inv in Hsw as [_ Hsw]];
      subst q; assumption. }
  bind_inv_at H as u' q' Hsp. apply ret_inv in Hsp as [_ ->].
  rewrite (bind_ok _ (fetch_cached q Hq)), Hopen in H.
  bind_inv H as result Hres. bind_skip H. apply ret_inv in H as [<- _].
  bind_skip Hres. bind_skip Hres. bind_inv Hres as expression Hexp.
  bind_skip Hres. bind_skip Hres. bind_skip Hres. bind_skip Hres.
  apply ret_inv in Hres as [[= ->] _].
  eexists _, _, _, _. split; [reflexivity|].
  eapply (good_parseExpression Hgood); eauto.
Qed.

End Resolve.

(** C1, amended: when the registry keeps infix nodes to infix functions
    and names a non-infix replacement in each, then no list returned by
    [parseExpression], no body of an ordgroup that [parseGroup] builds for
    a bracketed group, and no list returned by a successful [parse()], has
    an element of type infix.  Infix nodes below a sibling, such as the
    base of a supsub, are not rewritten. *)
Theorem parse_no_infix_sibling (fuel : nat) :
  registry_infix_ok T ->
  (forall bi bt (p p' : Parser Src) r,
      m_parseExpression (parser T fuel) bi bt p = (Ok r, p') ->
      Forall (fun n => is_infix n = false) r)
  /\ (forall (name : string) (optional : bool) (g : option Z)
             (b : option string) (mode_ : option Mode) (p p' : Parser Src)
             (tok : Token.t) (node : AnyParseNode),
         nextToken p = Some tok ->
         (if optional then String.eqb (Token.text tok) "["
          else String.eqb (Token.text tok) "{"
               || String.eqb (Token.text tok) "\begingroup") = true ->
         m_parseGroup (parser T fuel) name optional g b mode_ false p
         = (Ok (Some node), p') ->
         exists m loc body semisimple,
           node = Ordgroup m loc body semisimple
           /\ Forall (fun n => is_infix n = false) body)
  /\ (forall (p p' : Parser Src) r,
         parse T fuel p = (Ok r, p') -> Forall (fun n => is_infix n = false) r).
Proof.
  intros Hreg. split; [|split].
  - intros. eapply (good_parseExpression (parser_good Hreg fuel)); eauto.
  - intros name optional g b mode_ p p' tok node Hnext Hopen H.
    destruct fuel as [|fuel']; [discriminate|].
    cbn [parser m_parseGroup] in H.
    eapply parseGroup_group_body; eauto using parser_good.
  - intros p p' r H. unfold parse in H.
    bind_skip H. bind_skip H. bind_inv H as res Hres. bind_skip H.
    bind_skip H. apply ret_inv in H as [-> _].
    eapply (good_parseExpression (parser_good Hreg fuel)); eauto.
Qed.

End Facts.

(** ** The allowance of steps

    A method that answers within its allowance gives the same answer
    with any larger one. *)

Lemma le_refl (Src A : Type) (m : M Src A) : le m m.
Proof. intros p r p' H _. exact H. Qed.

Lemma le_bind (Src A B : Type) (m m' : M Src A) (k k' : A -> M Src B) :
  le m m' -> (forall a, le (k a) (k' a)) -> le (bind m k) (bind m' k').
Proof.
  intros Hm Hk p r p'. unfold bind.
  destruct (m p) as [[a|e|] p1] eqn:E.
  - rewrite (Hm _ _ _ E ltac:(discriminate)). apply Hk.
  - rewrite (Hm _ _ _ E ltac:(discriminate)). auto.
  - intros [= <- <-] H. now elim H.
Qed.

Lemma le_diverge (Src A : Type) (m : M Src A) : le diverge m.
Proof. intros p r p' [= <- <-] H. now elim H. Qed.

Ltac mono_step :=
  first
    [ assumption
    | apply le_refl
    | match goal with
      | |- le diverge _ => apply le_diverge
      | |- le (bind _ _) (bind _ _) => apply le_bind; [|intros ?]
      | |- le (if ?b then _ else _) (if ?b then _ else _) => destruct b
      | |- le (match ?x with _ => _ end) (match ?x with _ => _ end) =>
          destruct x
      | |- le (when ?b _) (when ?b _) => unfold when; destruct b
      | H : mle ?this ?this' |- le (m_parseExpression ?this _ _) _ =>
          apply (mle_parseExpression H)
      | H : mle ?this ?this' |- le (m_handleInfixNodes ?this _) _ =>
          apply (mle_handleInfixNodes H)
      | H : mle ?this ?this' |- le (m_handleSupSubscript ?this _) _ =>
          apply (mle_handleSupSubscript H)
      | H : mle ?this ?this' |- le (m_parseAtom ?this _) _ =>
          apply (mle_parseAtom H)
      | H : mle ?this ?this' |- le (m_parseFunction ?this _ _ _) _ =>
          apply (mle_parseFunction H)
      | H : mle ?this ?this' |- le (m_callFunction ?this _ _ _ _ _) _ =>
          apply (mle_callFunction H)
      | H : mle ?this ?this' |- le (m_parseGroupOfType ?this _ _ _ _ _) _ =>
          apply (mle_parseGroupOfType H)
      | H : mle ?this ?this' |- le (m_parseGroup ?this _ _ _ _ _ _) _ =>
          apply (mle_parseGroup H)
      end ].

Ltac mono := repeat mono_step.

Section Mono.

Variable Src : Type.
Variable T : Tables Src.

Lemma consumeSpaces_mono (n : nat) :
  forall n', n <= n' -> le (consumeSpaces T n) (consumeSpaces T n').
Proof.
  induction n as [|n IH]; intros n' Hn; [apply le_diverge|].
  destruct n' as [|n']; [lia|]. cbn [consumeSpaces]. mono. apply IH. lia.
Qed.

Lemma parseStringGroup_loop_mono (n : nat) :
  forall n' modeName groupBegin groupEnd raw firstToken lastToken str nested,
    n <= n' ->
    le (parseStringGroup_loop T n modeName groupBegin groupEnd raw firstToken
                              lastToken str nested)
       (parseStringGroup_loop T n' modeName groupBegin groupEnd raw firstToken
                              lastToken str nested).
Proof.
  induction n as [|n IH]; intros n' ? ? ? ? ? ? ? ? Hn; [apply le_diverge|].
  destruct n' as [|n']; [lia|]. cbn [parseStringGroup_loop]. mono.
  apply IH. lia.
Qed.

Lemma parseStringGroup_mono (n n' : nat) modeName optional raw :
  n <= n' ->
  le (parseStringGroup T n modeName optional raw)
     (parseStringGroup T n' modeName optional raw).
Proof.
  intros Hn. unfold parseStringGroup. mono.
  now apply parseStringGroup_loop_mono.
Qed.

Lemma parseRegexGroup_loop_mono (n : nat) :
  forall n' regex lastToken str,
    n <= n' ->
    le (parseRegexGroup_loop T n regex lastToken str)
       (parseRegexGroup_loop T n' regex lastToken str).
Proof.
  induction n as [|n IH]; intros n' ? ? ? Hn; [apply le_diverge|].
  destruct n' as [|n']; [lia|]. cbn [parseRegexGroup_loop]. mono.
  apply IH. lia.
Qed.

Lemma parseRegexGroup_mono (n n' : nat) regex modeName :
  n <= n' ->
  le (parseRegexGroup T n regex modeName) (parseRegexGroup T n' regex modeName).
Proof.
  intros Hn. unfold parseRegexGroup. mono.
  now apply parseRegexGroup_loop_mono.
Qed.

Lemma parseColorGroup_mono (n n' : nat) optional :
  n <= n' -> le (parseColorGroup T n optional) (parseColorGroup T n' optional).
Proof.
  intros Hn. unfold parseColorGroup. mono. now apply parseStringGroup_mono.
Qed.

Lemma parseSizeGroup_mono (n n' : nat) optional :
  n <= n' -> le (parseSizeGroup T n optional) (parseSizeGroup T n' optional).
Proof.
  intros Hn. unfold parseSizeGroup.
  apply le_bind; [|intros ?; mono].
  mono; first [now apply parseStringGroup_mono | now apply parseRegexGroup_mono].
Qed.

Lemma parseUrlGroup_mono (n n' : nat) optional c :
  n <= n' -> le (parseUrlGroup T n optional c) (parseUrlGroup T n' optional c).
Proof.
  intros Hn. unfold parseUrlGroup. mono. now apply parseStringGroup_mono.
Qed.

Lemma parseAtom_primes_mono (n : nat) :
  forall n' prime primes,
    n <= n' ->
    le (parseAtom_primes T n prime primes) (parseAtom_primes T n' prime primes).
Proof.
  induction n as [|n IH]; intros n' ? ? Hn; [apply le_diverge|].
  destruct n' as [|n']; [lia|]. cbn [parseAtom_primes]. mono. apply IH. lia.
Qed.

Section Bodies.

Variables this this' : Methods Src.
Variables fuel fuel' : nat.
Hypothesis Hthis : mle this this'.
Hypothesis Hfuel : fuel <= fuel'.
Hypothesis Hhandlers : handlers_monotone T.

Lemma callFunction_mono a b c d e :
  le (callFunction T this a b c d e) (callFunction T this' a b c d e).
Proof.
  unfold callFunction.
  destruct (functions T a) as [spec|] eqn:Hf; [|apply le_refl].
  destruct (handler spec) as [h|] eqn:Hh; [|apply le_refl].
  eapply Hhandlers; eauto.
Qed.

Lemma handleInfixNodes_mono a :
  le (handleInfixNodes this a) (handleInfixNodes this' a).
Proof. unfold handleInfixNodes. mono. Qed.

Lemma handleSupSubscript_mono a :
  le (handleSupSubscript T this a) (handleSupSubscript T this' a).
Proof. unfold handleSupSubscript. mono. Qed.

Lemma parseExpression_loop_mono (n : nat) :
  forall n' bi bt body,
    n <= n' ->
    le (parseExpression_loop T this fuel n bi bt body)
       (parseExpression_loop T this' fuel' n' bi bt body).
Proof.
  induction n as [|n IH]; intros n' ? ? ? Hn; [apply le_diverge|].
  destruct n' as [|n']; [lia|]. cbn [parseExpression_loop]. mono.
  - now apply consumeSpaces_mono.
  - apply IH. lia.
Qed.

Lemma parseExpression_mono a b :
  le (parseExpression T this fuel a b) (parseExpression T this' fuel' a b).
Proof.
  unfold parseExpression. mono. now apply parseExpression_loop_mono.
Qed.

Lemma parseAtom_loop_mono (n : nat) :
  forall n' base sup sub,
    n <= n' ->
    le (parseAtom_loop T this fuel n base sup sub)
       (parseAtom_loop T this' fuel' n' base sup sub).
Proof.
  induction n as [|n IH]; intros n' ? ? ? Hn; [apply le_diverge|].
  destruct n' as [|n']; [lia|]. cbn [parseAtom_loop].
  mono; first [ now apply consumeSpaces_mono
              | now apply parseAtom_primes_mono
              | apply IH; lia ].
Qed.

Lemma parseAtom_mono a :
  le (parseAtom T this fuel a) (parseAtom T this' fuel' a).
Proof. unfold parseAtom. mono. now apply parseAtom_loop_mono. Qed.

Lemma parseArguments_loop_mono (count : nat) :
  forall i func funcData args optArgs,
    le (parseArguments_loop T this count i func funcData args optArgs)
       (parseArguments_loop T this' count i func funcData args optArgs).
Proof.
  induction count as [|count IH]; intros; [apply le_refl|].
  cbn [parseArguments_loop]. mono; apply IH.
Qed.

Lemma parseFunction_mono a b c :
  le (parseFunction T this a b c) (parseFunction T this' a b c).
Proof.
  unfold parseFunction, parseArguments. mono. apply parseArguments_loop_mono.
Qed.

Lemma parseGroupOfType_mono a b c d e :
  le (parseGroupOfType T this fuel a b c d e)
     (parseGroupOfType T this' fuel' a b c d e).
Proof.
  unfold parseGroupOfType.
  mono; first [ now apply consumeSpaces_mono
              | now apply parseColorGroup_mono
              | now apply parseSizeGroup_mono
              | now apply parseUrlGroup_mono
              | now apply parseStringGroup_mono ].
Qed.

Lemma parseGroup_mono a b c d e f :
  le (parseGroup T this fuel a b c d e f) (parseGroup T this' fuel' a b c d e f).
Proof. unfold parseGroup. mono. now apply consumeSpaces_mono. Qed.

End Bodies.

Lemma parser_mono (n : nat) :
  handlers_monotone T ->
  forall n', n <= n' -> mle (parser T n) (parser T n').
Proof.
  intros Hh. induction n as [|n IH]; intros n' Hn.
  - constructor; intros; apply le_diverge.
  - destruct n' as [|n']; [lia|].
    assert (Hle : mle (parser T n) (parser T n')) by (apply IH; lia).
    constructor; intros; cbn [parser m_parseExpression m_handleInfixNodes
      m_handleSupSubscript m_parseAtom m_parseFunction m_callFunction
      m_parseGroupOfType m_parseGroup].
    + apply parseExpression_mono; auto.
    + apply handleInfixNodes_mono; auto.
    + apply handleSupSubscript_mono; auto.
    + apply parseAtom_mono; auto.
    + apply parseFunction_mono; auto.
    + apply callFunction_mono; auto.
    + apply parseGroupOfType_mono; auto.
    + apply parseGroup_mono; auto.
Qed.

Lemma parse_mono (n n' : nat) :
  handlers_monotone T -> n <= n' -> le (parse T n) (parse T n').
Proof.
  intros Hh Hn. unfold parse. pose proof (parser_mono Hh Hn) as Hle. mono.
Qed.

End Mono.

Lemma parse_enough (Src : Type) (T : Tables Src) (n n' : nat)
      (p p' : Parser Src) (r : Outcome (list AnyParseNode)) :
  handlers_monotone T -> n <= n' ->
  parse T n p = (r, p') -> r <> OutOfFuel -> parse T n' p = (r, p').
Proof. intros Hh Hn H Hr. now apply (parse_mono Hh Hn). Qed.

(** ** The concrete registry *)

Lemma zInput_handler_node (Src : Type) (this : Methods Src) context args optArgs
      (p p' : Parser Src) node :
  zInput_handler this context args optArgs p = (Ok node, p') ->
  exists m index width, node = ZInput m index width.
Proof.
  unfold zInput_handler. intros H.
  bind_skip H. bind_skip H. bind_skip H.
  apply ret_inv in H as [-> _]. eauto.
Qed.

Lemma Demo_registry_infix_ok (throwOnError : bool) :
  registry_infix_ok (Demo.tables throwOnError).
Proof.
  intros name spec h this context args optArgs p node p' Hf Hh Hcall Hi.
  cbn [functions Demo.tables] in Hf. unfold Demo.functions in Hf.
  destruct (String.eqb name "\over").
  { injection Hf as <-. injection Hh as <-.
    unfold Demo.over_handler in Hcall. rewrite bind_gets in Hcall.
    apply ret_inv in Hcall as [-> _].
    split; [reflexivity|]. intros _. exists "\frac".
    repeat split; [discriminate|].
    intros spec Hs. cbn in Hs. injection Hs as <-. reflexivity. }
  destruct (String.eqb name "\frac").
  { injection Hf as <-. injection Hh as <-.
    unfold Demo.frac_handler in Hcall. rewrite bind_gets in Hcall.
    apply ret_inv in Hcall as [-> _]. discriminate. }
  destruct (String.eqb name "\zInput"); [|discriminate].
  injection Hf as <-. injection Hh as <-.
  apply zInput_handler_node in Hcall as (m & index & width & ->).
  discriminate.
Qed.

Lemma Demo_handlers_monotone (throwOnError : bool) :
  handlers_monotone (Demo.tables throwOnError).
Proof.
  intros name spec h this this' context args optArgs Hf Hh _.
  cbn [functions Demo.tables] in Hf. unfold Demo.functions in Hf.
  destruct (String.eqb name "\over");
    [injection Hf as <-; injection Hh as <-; apply le_refl|].
  destruct (String.eqb name "\frac");
    [injection Hf as <-; injection Hh as <-; apply le_refl|].
  destruct (String.eqb name "\zInput"); [|discriminate].
  injection Hf as <-. injection Hh as <-. apply le_refl.
Qed.

(** What [parse()] answers on an input with an allowance of 20 it answers
    with every larger one. *)
Lemma Demo_parse_enough (throwOnError : bool) (input : list string)
      (r : Outcome (list AnyParseNode)) :
  fst (parse (Demo.tables throwOnError) 20 (Demo.newParser input)) = r ->
  r <> OutOfFuel ->
  forall fuel,
    20 <= fuel ->
    fst (parse (Demo.tables throwOnError) fuel (Demo.newParser input)) = r.
Proof.
  destruct (parse (Demo.tables throwOnError) 20 (Demo.newParser input))
    as [r0 p'] eqn:E.
  cbn [fst]. intros <- Hr fuel Hfuel.
  now rewrite (@parse_enough _ _ 20 fuel _ _ _
                 (Demo_handlers_monotone throwOnError) Hfuel E Hr).
Qed.

(** ** C1 *)

(** The claim fails on [\over^2]: [parse()] succeeds and the infix node is
    the base of the supsub it returns. *)
Lemma infix_survives_under_supsub :
  fst (parse (Demo.tables false) 20 (Demo.newParser ["\over"; "^"; "2"]))
  = Ok [Results.over_sup]
  /\ contains_infix Results.over_sup = true.
Proof. split; vm_compute; reflexivity. Qed.

Lemma parse_no_infix_sibling_witness :
  registry_infix_ok (Demo.tables false)
  /\ fst (parse (Demo.tables false) 20
                (Demo.newParser ["a"; " "; "\over"; "b"])) = Ok Results.a_over_b
  /\ Forall (fun n => is_infix n = false) Results.a_over_b.
Proof.
  split; [apply Demo_registry_infix_ok|].
  split; [vm_compute; reflexivity|].
  apply (proj2 (proj2 (parse_no_infix_sibling 20
                               (Demo_registry_infix_ok false)))
               (Demo.newParser ["a"; " "; "\over"; "b"])
               (snd (parse (Demo.tables false) 20
                           (Demo.newParser ["a"; " "; "\over"; "b"])))).
  vm_compute. reflexivity.
Defined.

(** ** C2 *)

(** The claim fails on the error path: on the input [{] the group is not
    closed, [parseGroup] raises, and the parser stays in text mode. *)
Lemma parseGroup_error_keeps_mode :
  let T := Demo.tables true in
  let p := Demo.newParser ["{"] in
  let run := parseGroup T (parser T 10) 10 "argument" false None None
                        (Some text) false p in
  fst run = Throw (ParseError "Expected '}', got 'EOF'" (Some (Demo.tok "EOF")))
  /\ mode p = math
  /\ mode (snd run) = text.
Proof. repeat split; vm_compute; reflexivity. Qed.

Lemma parseGroup_restores_mode_witness :
  let T := Demo.tables true in
  let p := Demo.newParser ["{"; "a"; "}"] in
  let run := parseGroup T (parser T 10) 10 "argument" false None None
                        (Some text) false p in
  fst run = Ok (Some (Ordgroup text None [Symbol textord text None "a"] false))
  /\ mode (snd run) = mode p.
Proof.
  intros T p run. split; [vm_compute; reflexivity|].
  apply (@parseGroup_restores_mode Demo.Src T (parser T 10) 10 "argument" false
           None None text false p (snd run)
           (Some (Ordgroup text None [Symbol textord text None "a"] false))).
  vm_compute. reflexivity.
Defined.

(** ** C3 *)

(** The claim fails on the error path: on the input [{a] the group is not
    closed, [parseUrlGroup] raises, and the catcode of [%] stays 13. *)
Lemma parseUrlGroup_error_keeps_catcode :
  let T := Demo.tables true in
  let run := parseUrlGroup T 10 false false (Demo.newParser ["{"; "a"]) in
  fst run = Throw (ParseError "Unexpected end of input in url"
                              (Some (Demo.tok "a")))
  /\ me_catcodes (gullet (snd run)) "%" = Some 13%Z.
Proof. repeat split; vm_compute; reflexivity. Qed.

Lemma parseUrlGroup_catcode_witness :
  let T := Demo.tables true in
  let run := parseUrlGroup T 10 false false
                           (Demo.newParser ["{"; "a"; "\%"; "b"; "}"]) in
  fst run = Ok (Some (Url math "a%b"))
  /\ me_catcodes (gullet (snd run)) "%" = Some 14%Z.
Proof.
  intros T run. split; [vm_compute; reflexivity|].
  apply (@parseUrlGroup_catcode Demo.Src T 10 false false
           (Demo.newParser ["{"; "a"; "\%"; "b"; "}"]) (snd run)
           (Some (Url math "a%b"))).
  vm_compute. reflexivity.
Defined.

(** ** C4 *)

(** The claim fails on its example: the node for [\foo] has one textord
    for each of the four characters of the command text, not six. *)
Lemma unsupported_foo_not_six :
  exists body,
    fst (parse (Demo.tables false) 20 (Demo.newParser ["\foo"]))
    = Ok [Color math "#cc0000" [TextNode math body]]
    /\ length body <> 6.
Proof.
  exists [Symbol textord text None "\"; Symbol textord text None "f";
          Symbol textord text None "o"; Symbol textord text None "o"].
  split; [vm_compute; reflexivity | discriminate].
Qed.

(** C4, amended: with [throwOnError = false], parsing an undefined control
    sequence yields a color node that carries the configured [errorColor]
    and wraps a text node whose body has one textord per character of the
    command text; for the input [\foo] this node has four textord
    children. *)
Theorem unsupported_cmd_node :
  (forall (Src : Type) (T : Tables Src) (fuel fuel' : nat) (name : string)
          (greediness_ : option Z) (breakOnTokenText : option string)
          (p : Parser Src) (tok : Token.t),
      throwOnError (settings T) = false ->
      nextToken p = Some tok ->
      first_char (Token.text tok) = Some "\"%char ->
      Token.text tok <> "\begingroup" ->
      functions T (Token.text tok) = None ->
      implicitCommands T (Token.text tok) = false ->
      parseSymbol T p = (Ok None, p) ->
      parseGroup T (parser T (S fuel')) fuel name false greediness_
                 breakOnTokenText None false p
      = (Ok (Some (Color (mode p) (errorColor (settings T))
                     [TextNode (mode p)
                        (map (fun c => Symbol textord text None c)
                             (chars (Token.text tok)))])),
         set_nextToken None p)
      /\ length (chars (Token.text tok)) = String.length (Token.text tok))
  /\ (forall fuel,
         20 <= fuel ->
         fst (parse (Demo.tables false) fuel (Demo.newParser ["\foo"]))
         = Ok [Results.foo])
  /\ String.length "\foo" = 4.
Proof.
  split; [|split; [|reflexivity]].
  - intros. now apply parseGroup_unsupported_cmd.
  - apply Demo_parse_enough; [vm_compute; reflexivity | discriminate].
Qed.

Lemma unsupported_cmd_node_witness :
  let T := Demo.tables false in
  let p := set_nextToken (Some (Demo.tok "\foo")) (Demo.newParser []) in
  parseGroup T (parser T 3) 3 "atom" false None None None false p
  = (Ok (Some Results.foo), set_nextToken None p).
Proof.
  intros T p.
  apply (proj1 (proj1 unsupported_cmd_node Demo.Src T 3 2 "atom" None None p
                      (Demo.tok "\foo") eq_refl eq_refl eq_refl
                      ltac:(discriminate) eq_refl eq_refl eq_refl)).
Defined.

(** ** C5 *)

(** No list that [parseExpression] passes to [handleInfixNodes] holds an
    infix node without a name: under a registry that keeps infix nodes to
    infix functions, each infix node of the list carries a non-empty
    [replaceWith]. *)
Lemma parseExpression_passes_named (Src : Type) (T : Tables Src)
      (n fuel : nat) (breakOnInfix : bool) (breakOnTokenText : option string)
      (p p' : Parser Src) (r : list AnyParseNode) :
  registry_infix_ok T ->
  parseExpression T (parser T n) fuel breakOnInfix breakOnTokenText p
  = (Ok r, p') ->
  exists body p1,
    m_handleInfixNodes (parser T n) body p1 = (Ok r, p')
    /\ forall x, In x body -> is_infix x = true ->
         exists fn, node_replaceWith x = Some fn /\ fn <> "".
Proof.
  intros Hreg H. unfold parseExpression in H.
  bind_inv_at H as body q Hb. bind_inv H as m Hm.
  apply gets_inv in Hm as [-> ->].
  assert (Ha : Forall (rewritable T) body).
  { eapply parseExpression_loop_rewritable; eauto using parser_good. }
  assert (Hl : Forall (rewritable T)
                      (if Mode_eqb (mode q) text then formLigatures body
                       else body)).
  { destruct (Mode_eqb (mode q) text); [|assumption].
    rewrite formLigatures_is_rec.
    eapply formLigatures_rec_Forall; eauto using ligature_rewritable. }
  eexists _, q. split; [exact H|].
  intros x Hin Hx. rewrite Forall_forall in Hl.
  destruct (Hl x Hin Hx) as (fn & Hfn & Hne & _). eauto.
Qed.

(** The test [overIndex !== -1 && funcName] of [handleInfixNodes] skips an
    infix node whose [replaceWith] is the empty string; such a node is
    built by hand here, the parser passes none. *)
Lemma handleInfixNodes_empty_replaceWith :
  let T := Demo.tables true in
  let body := [Symbol mathord math None "a"; Infix math "" None;
               Symbol mathord math None "b"] in
  map is_infix body = [false; true; false]
  /\ fst (handleInfixNodes (parser T 5) body (Demo.newParser [])) = Ok body
  /\ length body <> 1.
Proof.
  intros T body. split; [reflexivity|].
  split; [vm_compute; reflexivity | discriminate].
Qed.

Lemma handleInfixNodes_rewrites_witness :
  let T := Demo.tables true in
  let body := [Symbol mathord math None "a"; Infix math "\frac" None;
               Symbol mathord math None "b"] in
  fst (handleInfixNodes (parser T 5) body (Demo.newParser []))
  = Ok Results.a_over_b.
Proof.
  intros T body.
  rewrite (@handleInfixNodes_rewrites Demo.Src T 4 body 1
             (Infix math "\frac" None) "\frac" (Demo.newParser [])
             eq_refl eq_refl).
  - reflexivity.
  - intros j n Hj Hn. destruct j as [|[|[|j]]]; cbn in Hn.
    + injection Hn as <-. reflexivity.
    + now elim Hj.
    + injection Hn as <-. reflexivity.
    + destruct j; discriminate.
  - reflexivity.
  - discriminate.
Defined.

(** ** C6 *)

(** C6: a sibling list with more than one node of type infix makes
    [handleInfixNodes] raise the ParseError "only one infix operator per
    group"; in particular [a \over b \over c] fails with that message. *)
Theorem handleInfixNodes_two_infix :
  (forall (Src : Type) (this : Methods Src) (body : list AnyParseNode)
          (j k : nat) (a b : AnyParseNode) (p : Parser Src),
      j < k ->
      nth_error body j = Some a -> is_infix a = true ->
      nth_error body k = Some b -> is_infix b = true ->
      exists tok,
        handleInfixNodes this body p
        = (Throw (ParseError "only one infix operator per group" tok), p))
  /\ (forall fuel,
         20 <= fuel ->
         fst (parse (Demo.tables true) fuel
                (Demo.newParser ["a"; " "; "\over"; "b"; " "; "\over"; "c"]))
         = Throw (ParseError "only one infix operator per group"
                             (Some (Demo.tok "\over")))).
Proof.
  split.
  - intros. eapply handleInfixNodes_two; eauto.
  - apply Demo_parse_enough; [vm_compute; reflexivity | discriminate].
Qed.

Lemma handleInfixNodes_two_infix_witness :
  exists tok,
    handleInfixNodes (parser (Demo.tables true) 5)
      [Infix math "\frac" None; Symbol mathord math None "b";
       Infix math "\frac" (Some (Demo.tok "\over"))]
      (Demo.newParser [])
    = (Throw (ParseError "only one infix operator per group" tok),
       Demo.newParser []).
Proof.
  apply (proj1 handleInfixNodes_two_infix Demo.Src
               (parser (Demo.tables true) 5) _ 0 2
               (Infix math "\frac" None)
               (Infix math "\frac" (Some (Demo.tok "\over")))
               (Demo.newParser [])); [lia | reflexivity ..].
Defined.

(** ** C7 *)

Lemma parseAtom_double_script_witness :
  let T := Demo.tables true in
  let p := Demo.newParser ["^"; "3"] in
  fst (parseAtom_loop T (parser T 5) 5 1 (Some Results.x)
                      (Some (Symbol textord math None "2")) None p)
  = Throw (ParseError "Double superscript" (Some (Demo.tok "^"))).
Proof.
  intros T p.
  pose (p1 := snd (consumeSpaces T 5 p)).
  assert (Hs : consumeSpaces T 5 p = (Ok tt, p1)) by (vm_compute; reflexivity).
  assert (Hf : fetch T p1 = (Ok (Demo.tok "^"), p1))
    by (vm_compute; reflexivity).
  rewrite (proj1 (@parseAtom_double_script Demo.Src T (parser T 5) 5 0
                    (Some Results.x) None (Symbol textord math None "2")
                    p p1 p1 (Demo.tok "^") Hs Hf) eq_refl).
  reflexivity.
Defined.

(** The three errors through [parse()]: [x^2^3], [x_2_3] and [x^2']. *)
Example double_script_parses :
  let T := Demo.tables true in
  fst (parse T 20 (Demo.newParser ["x"; "^"; "2"; "^"; "3"]))
  = Throw (ParseError "Double superscript" (Some (Demo.tok "^")))
  /\ fst (parse T 20 (Demo.newParser ["x"; "_"; "2"; "_"; "3"]))
     = Throw (ParseError "Double subscript" (Some (Demo.tok "_")))
  /\ fst (parse T 20 (Demo.newParser ["x"; "^"; "2"; "'"]))
     = Throw (ParseError "Double superscript" (Some (Demo.tok "'"))).
Proof. repeat split; vm_compute; reflexivity. Qed.

(** ** C8 *)

(** C8: in math mode a run of [S k] consecutive ['] tokens after a base
    gives a superscript that is an ordgroup of [S k] textords with text
    [\prime], and when a [^] directly follows the run, the group parsed for
    that superscript is appended as the last element; [x''] parses to a
    supsub with base mathord [x] and superscript an ordgroup of two primes. *)
Theorem primes_superscript :
  (forall (Src : Type) (T : Tables Src) (this : Methods Src)
          (fuel steps k : nat) (base sub : option AnyParseNode)
          (p p0 p1 p2 : Parser Src) (tok : Token.t),
      consumeSpaces T fuel p = (Ok tt, p0) ->
      reads_primes T (S k) p0 p1 ->
      fetch T p1 = (Ok tok, p2) ->
      Token.text tok <> "'" ->
      k < fuel ->
      let prime := Symbol textord (mode p) None "\prime" in
      (Token.text tok <> "^" ->
       parseAtom_loop T this fuel (S steps) base None sub p
       = parseAtom_loop T this fuel steps base
           (Some (Ordgroup (mode p) None (repeat prime (S k)) false)) sub p2)
      /\ (forall group p3,
             Token.text tok = "^" ->
             m_handleSupSubscript this "superscript" p2 = (Ok group, p3) ->
             parseAtom_loop T this fuel (S steps) base None sub p
             = parseAtom_loop T this fuel steps base
                 (Some (Ordgroup (mode p3) None
                                 (repeat prime (S k) ++ [group]) false))
                 sub p3))
  /\ (forall fuel,
         20 <= fuel ->
         fst (parse (Demo.tables true) fuel (Demo.newParser ["x"; "'"; "'"]))
         = Ok Results.x_primes).
Proof.
  split.
  - intros. eapply parseAtom_primes_superscript; eauto.
  - apply Demo_parse_enough; [vm_compute; reflexivity | discriminate].
Qed.

Lemma primes_superscript_witness :
  let T := Demo.tables true in
  let p := Demo.newParser ["'"; "'"] in
  fst (parseAtom_loop T (parser T 5) 5 2 (Some Results.x) None None p)
  = Ok (Some (Supsub math (Some Results.x)
                     (Some (Ordgroup math None
                              [Results.prime; Results.prime] false))
                     None)).
Proof.
  intros T p.
  pose (p0 := snd (consumeSpaces T 5 p)).
  pose (q1 := set_nextToken None p0).
  pose (q1' := snd (fetch T q1)).
  pose (q2 := set_nextToken None q1').
  pose (q3 := snd (fetch T q2)).
  assert (Hs : consumeSpaces T 5 p = (Ok tt, p0)) by (vm_compute; reflexivity).
  assert (H0 : fetch T p0 = (Ok (Demo.tok "'"), p0))
    by (vm_compute; reflexivity).
  assert (H1 : fetch T q1 = (Ok (Demo.tok "'"), q1'))
    by (vm_compute; reflexivity).
  assert (H2 : fetch T q2 = (Ok (Demo.tok "EOF"), q3))
    by (vm_compute; reflexivity).
  assert (Hr : reads_primes T 2 p0 q2).
  { eapply reads_primes_S; [exact H0 | reflexivity |].
    eapply reads_primes_S; [exact H1 | reflexivity |].
    apply reads_primes_O. }
  rewrite (proj1 (proj1 primes_superscript Demo.Src T (parser T 5) 5 1 1
                        (Some Results.x) None p p0 q2 q3 (Demo.tok "EOF")
                        Hs Hr H2 ltac:(discriminate) ltac:(lia))
                 ltac:(discriminate)).
  vm_compute. reflexivity.
Defined.

(** A [^] directly after the primes: [x''^2]. *)
Example primes_then_superscript :
  fst (parse (Demo.tables true) 20 (Demo.newParser ["x"; "'"; "'"; "^"; "2"]))
  = Ok [Supsub math (Some Results.x)
               (Some (Ordgroup math None
                        [Results.prime; Results.prime;
                         Symbol textord math None "2"] false))
               None].
Proof. vm_compute. reflexivity. Qed.

(** ** C10 *)

Lemma round_half_even_unit (x : Z) : round_half_even x 1 = x.
Proof.
  unfold round_half_even. rewrite Z.div_1_r, Z.mod_1_r. reflexivity.
Qed.

Lemma Qred_scaled (n k : Z) :
  (0 <= k)%Z -> Qred (n * 2 ^ k # Z.to_pos (2 ^ k)) = n # 1.
Proof.
  intros Hk. assert (Hpos : (0 < 2 ^ k)%Z) by (apply Z.pow_pos_nonneg; lia).
  rewrite (Qred_complete (n * 2 ^ k # Z.to_pos (2 ^ k)) (n # 1)).
  - apply Qcanon.Qred_identity. cbn. apply Z.gcd_1_r.
  - unfold Qeq. cbn [Qnum Qden]. rewrite Z2Pos.id by assumption. lia.
Qed.

(** An integer below [2 ^ 53] is a double: it is its own Number value. *)
Lemma Number_value_integer (n : Z) :
  (0 <= n < 2 ^ 53)%Z -> Number_value false (inject_Z n) = Num (inject_Z n).
Proof.
  intros [H0 H53]. unfold Number_value, inject_Z. cbn [Qnum Qden].
  destruct (n <=? 0)%Z eqn:Hz.
  { apply Z.leb_le in Hz. replace n with 0%Z by lia. reflexivity. }
  apply Z.leb_gt in Hz.
  change (Z.log2 1) with 0%Z.
  pose proof (Z.log2_spec n Hz) as [Hlo _].
  pose proof (Z.log2_nonneg n) as Hl0.
  assert (Hl : (Z.log2 n < 53)%Z) by now apply Z.log2_lt_pow2.
  set (l := Z.log2 n) in *.
  replace (pow2 (- (l - 0))) with 1%Z
    by (unfold pow2; now replace (Z.max 0 (- (l - 0))) with 0%Z by lia).
  replace (pow2 (l - 0)) with (2 ^ l)%Z
    by (unfold pow2; now replace (Z.max 0 (l - 0)) with l by lia).
  replace (n * 1 <? 1 * 2 ^ l)%Z with false
    by (symmetry; apply Z.ltb_ge; lia).
  replace (Z.max (l - 0 - 52) (-1074)) with (l - 52)%Z by lia.
  replace (pow2 (l - 52)) with 1%Z
    by (unfold pow2; now replace (Z.max 0 (l - 52)) with 0%Z by lia).
  replace (pow2 (- (l - 52))) with (2 ^ (52 - l))%Z
    by (unfold pow2; now replace (Z.max 0 (- (l - 52))) with (52 - l)%Z by lia).
  rewrite Z.mul_1_r, round_half_even_unit.
  assert (Hpos : (0 < 2 ^ (52 - l))%Z) by (apply Z.pow_pos_nonneg; lia).
  replace (n * 2 ^ (52 - l) =? 0)%Z with false
    by (symmetry; apply Z.eqb_neq; nia).
  replace ((0 <=? l - 52)%Z && (2 ^ 1024 <=? n * 2 ^ (52 - l) * 1)%Z)
    with false.
  - rewrite Z.mul_1_r, Qred_scaled by lia. reflexivity.
  - symmetry. apply andb_false_iff.
    destruct (Z.eq_dec l 52) as [-> | Hne].
    + right. apply Z.leb_gt. change (2 ^ (52 - 52))%Z with 1%Z.
      rewrite !Z.mul_1_r. eapply Z.lt_trans; [exact H53 | reflexivity].
    + left. apply Z.leb_gt. lia.
Qed.

Lemma span_all (p : ascii -> bool) (s : string) :
  all_chars p s = true -> span p s = (s, "").
Proof.
  induction s as [|c s IH]; [reflexivity|]. cbn [all_chars span].
  intros H. apply andb_true_iff in H as [Hc Hs]. now rewrite Hc, IH.
Qed.

Lemma digit_not (c x : ascii) :
  is_digit c = true -> is_digit x = false -> Ascii.eqb c x = false.
Proof.
  intros Hc Hx. destruct (Ascii.eqb_spec c x) as [-> | _]; congruence.
Qed.

Lemma digit_no_whitespace (c : ascii) :
  is_digit c = true -> is_js_whitespace c = false.
Proof.
  unfold is_digit, is_js_whitespace. intros H.
  apply andb_true_iff in H as [H1 H2].
  apply Nat.leb_le in H1, H2.
  replace (code c <=? 13) with false by (symmetry; apply Nat.leb_gt; lia).
  replace (code c =? 32) with false by (symmetry; apply Nat.eqb_neq; lia).
  replace (code c =? 160) with false by (symmetry; apply Nat.eqb_neq; lia).
  now rewrite andb_false_r.
Qed.

Lemma digits_no_prefix (a x : ascii) (s : string) :
  is_digit x = false -> all_chars is_digit s = true ->
  prefix (String a (str1 x)) s = false.
Proof.
  intros Hx Hs. destruct s as [|c [|d r]]; cbn [prefix str1].
  - reflexivity.
  - destruct (ascii_dec a c); reflexivity.
  - destruct (ascii_dec a c); [|reflexivity].
    destruct (ascii_dec x d) as [<- | _]; [|reflexivity].
    cbn [all_chars] in Hs. rewrite Hx, andb_false_r in Hs. discriminate.
Qed.

Lemma digit_value_nonneg (c : ascii) : (0 <= digit_value c)%Z.
Proof. unfold digit_value. destruct (is_digit c), (is_lower c); lia. Qed.

Lemma digits_value_nonneg (s : string) :
  forall acc : Z, (0 <= acc)%Z -> (0 <= digits_value 10 acc s)%Z.
Proof.
  induction s as [|c s IH]; intros acc H; [exact H|].
  cbn [digits_value]. apply IH. pose proof (digit_value_nonneg c). lia.
Qed.

(** On a run of decimal digits that denotes an integer below [2 ^ 53],
    [parseInt] gives that integer. *)
Lemma parseInt_digits (s : string) :
  s <> "" ->
  all_chars is_digit s = true ->
  (digits_value 10 0 s < 2 ^ 53)%Z ->
  parseInt s = Num (inject_Z (digits_value 10 0 s)).
Proof.
  intros Hne Hs Hlt. destruct s as [|c r]; [now elim Hne|].
  pose proof Hs as Hc. cbn [all_chars] in Hc.
  apply andb_true_iff in Hc as [Hc _].
  unfold parseInt. cbn [span]. rewrite (digit_no_whitespace c Hc).
  cbn [snd strip_sign].
  rewrite (@digit_not c "-" Hc eq_refl), (@digit_not c "+" Hc eq_refl).
  cbn [orb].
  change "0x" with (String "0" (str1 "x")).
  change "0X" with (String "0" (str1 "X")).
  rewrite !digits_no_prefix by (assumption || reflexivity).
  cbn [orb]. cbv beta iota zeta. change (10 =? 16)%Z with false. cbv iota.
  rewrite (span_all _ _ Hs). cbn [fst].
  change (nonempty (String c r)) with true. cbv iota.
  change (String.eqb "" "-") with false.
  apply Number_value_integer. split; [|assumption].
  now apply digits_value_nonneg.
Qed.

(** C10: [\zInput] is registered with one mandatory argument of type raw
    and one optional argument of type size (read first); its handler
    returns a node whose width is the value of the optional size argument
    when that is present and 1.7em otherwise (1.7 being the double that
    the literal denotes), and whose index is [parseInt] of the raw
    argument's string: the integer the string denotes when it is a run of
    decimal digits below [2 ^ 53], and the nearest double beyond. *)
Theorem zInput_function :
  (zInput_names = ["\zInput"]
   /\ zInput_numArgs = 1 /\ zInput_numOptionalArgs = 1
   /\ zInput_argTypes = [arg_size; arg_raw])
  /\ (forall (Src : Type) (T : Tables Src) (this : Methods Src)
             (p : Parser Src),
         parseArguments T this "\zInput" (zInput_spec Src) p
         = (opt <- m_parseGroupOfType this "argument to '\zInput'"
                     (Some arg_size) true (Some 1%Z) false ;;
            arg <- m_parseGroupOfType this "argument to '\zInput'"
                     (Some arg_raw) false (Some 1%Z) true ;;
            match arg with
            | Some a => ret ([a], [opt])
            | None =>
                tok <- fetch T ;;
                throw (ParseError "Expected group after '\zInput'" (Some tok))
            end) p)
  /\ (forall (Src : Type) (this : Methods Src) (context : FunctionContext)
             (m m' : Mode) (s : string) (v : Measurement) (blank : bool)
             (p : Parser Src),
         zInput_handler this context [Raw m s] [Some (Size m' v blank)] p
         = (Ok (ZInput (mode p) (parseInt s) (Some v)), p)
         /\ zInput_handler this context [Raw m s] [None] p
            = (Ok (ZInput (mode p) (parseInt s)
                          (Some (mkMeasurement (Number_value false (17 # 10))
                                               "em"))), p))
  /\ (forall s : string,
         s <> "" ->
         all_chars is_digit s = true ->
         (digits_value 10 0 s < 2 ^ 53)%Z ->
         parseInt s = Num (inject_Z (digits_value 10 0 s)))
  /\ (parseInt "9007199254740993" = Num (inject_Z 9007199254740992)
      /\ parseInt "-0" = NegZero
      /\ parseInt "12px" = Num (inject_Z 12)
      /\ parseInt "px" = NaN
      /\ Number_value false (17 # 10)
         = Num (7656119366529843 # 4503599627370496))
  /\ (forall fuel,
         20 <= fuel ->
         fst (parse (Demo.tables true) fuel
                (Demo.newParser ["\zInput"; "["; "2"; "e"; "m"; "]";
                                 "{"; "1"; "2"; "}"]))
         = Ok [ZInput math (Num (12 # 1))
                      (Some (mkMeasurement (Num (2 # 1)) "em"))])
  /\ (forall fuel,
         20 <= fuel ->
         fst (parse (Demo.tables true) fuel
                (Demo.newParser ["\zInput"; "{"; "3"; "}"]))
         = Ok [ZInput math (Num (3 # 1))
                      (Some (mkMeasurement
                               (Num (7656119366529843 # 4503599627370496))
                               "em"))]).
Proof.
  split; [repeat split|].
  split.
  { intros Src T this p. unfold parseArguments. cbn.
    unfold bind.
    destruct (m_parseGroupOfType this _ (Some arg_size) _ _ _ p)
      as [[[opt|]|e|] p1]; try reflexivity;
      destruct (m_parseGroupOfType this _ (Some arg_raw) _ _ _ p1)
        as [[[arg|]|e|] p2]; reflexivity. }
  split; [intros; split; reflexivity|].
  split; [exact parseInt_digits|].
  split; [repeat split; vm_compute; reflexivity|].
  split; apply Demo_parse_enough; solve [vm_compute; reflexivity | discriminate].
Qed.

Lemma zInput_function_witness :
  20 <= 25
  /\ fst (parse (Demo.tables true) 25
                (Demo.newParser ["\zInput"; "["; "2"; "e"; "m"; "]";
                                 "{"; "1"; "2"; "}"]))
     = Ok [ZInput math (Num (12 # 1))
                  (Some (mkMeasurement (Num (2 # 1)) "em"))].
Proof.
  split; [lia|].
  apply (proj1 (proj2 (proj2 (proj2 (proj2 (proj2 zInput_function))))) 25).
  lia.
Defined.

(** * Further properties of the parser *)

(** ** Tokens *)

Section Tokens.

Variable Src : Type.
Variable T : Tables Src.

(** X1: whenever [consumeSpaces] returns, the lookahead token is fetched
    and is not a space: the next [fetch] gives a token other than the
    space token. *)
Theorem consumeSpaces_lookahead (fuel : nat) :
  forall p p' : Parser Src,
    consumeSpaces T fuel p = (Ok tt, p') ->
    exists tok, nextToken p' = Some tok /\ Token.text tok <> " ".
Proof.
  induction fuel as [|fuel IH]; intros p p' H; [discriminate|].
  cbn [consumeSpaces] in H. bind_inv_at H as tok q Hf.
  destruct (String.eqb (Token.text tok) " ") eqn:E.
  - bind_skip H. eauto.
  - apply ret_inv in H as [_ ->]. exists tok. split.
    + now apply fetch_ok in Hf.
    + now apply String.eqb_neq.
Qed.

End Tokens.

(** ** Ligatures: what a pass keeps and what it leaves *)

Lemma is_text_eq (v : option string) (s : string) :
  is_text v s = true -> v = Some s.
Proof.
  destruct v as [t|]; [|discriminate]. cbn. intros H.
  now apply String.eqb_eq in H as ->.
Qed.

Lemma formLigatures_rec_text (n : nat) :
  forall l : list AnyParseNode,
    length l <= n ->
    concat_text (formLigatures_rec l) = concat_text l
    /\ length (formLigatures_rec l) <= length l.
Proof.
  induction n as [|n IH]; intros l Hl.
  - destruct l; [split; reflexivity | cbn in Hl; lia].
  - destruct l as [|a [|b rest]]; [split; reflexivity | split; reflexivity |].
    cbn [length] in Hl. rewrite formLigatures_rec_unfold.
    assert (Hkeep : concat_text (a :: formLigatures_rec (b :: rest))
                    = concat_text (a :: b :: rest)
                    /\ length (a :: formLigatures_rec (b :: rest))
                       <= length (a :: b :: rest)).
    { destruct (IH (b :: rest)) as [E L]; [cbn [length]; lia|].
      cbn [concat_text length] in *. rewrite E. split; [reflexivity | lia]. }
    destruct (is_text (node_text a) "-" && is_text (node_text b) "-") eqn:Hdash.
    + apply andb_true_iff in Hdash as [Ha Hb].
      apply is_text_eq in Ha, Hb.
      destruct rest as [|c rest].
      * cbn [concat_text length ligature node_text]. rewrite Ha, Hb.
        split; [reflexivity | lia].
      * destruct (is_text (node_text c) "-") eqn:Hc.
        -- apply is_text_eq in Hc.
           destruct (IH rest) as [E L]; [cbn [length] in Hl; lia|].
           cbn [concat_text length ligature node_text]. rewrite Ha, Hb, Hc, E.
           split; [reflexivity | lia].
        -- destruct (IH (c :: rest)) as [E L]; [cbn [length] in Hl |- *; lia|].
           cbn [concat_text length ligature node_text] in *. rewrite Ha, Hb, E.
           split; [reflexivity | lia].
    + destruct (node_text a) as [v|] eqn:Hv; [|exact Hkeep].
      destruct ((String.eqb v "'" || String.eqb v "`")
                && is_text (node_text b) v) eqn:Hq; [|exact Hkeep].
      apply andb_true_iff in Hq as [Hq Hb]. apply is_text_eq in Hb.
      destruct (IH rest) as [E L]; [lia|].
      cbn [concat_text length ligature node_text]. rewrite Hv, Hb, E.
      split; [|lia]. apply quote_cases in Hq as [-> | ->]; reflexivity.
Qed.

(** X2: [formLigatures] loses no character and adds no node: the texts
    of the nodes of its result, read in order, spell what the texts of the
    nodes it was given spell, and the result is not longer than the list
    given. *)
Theorem formLigatures_keeps_text (group : list AnyParseNode) :
  concat_text (formLigatures group) = concat_text group
  /\ length (formLigatures group) <= length group.
Proof.
  rewrite formLigatures_is_rec.
  exact (@formLigatures_rec_text (length group) group (le_n _)).
Qed.

Lemma no_ligature_cons (x : AnyParseNode) (l : list AnyParseNode) :
  (forall y, collapsible x y = false) -> no_ligature l -> no_ligature (x :: l).
Proof. intros H Hl. cbn [no_ligature]. split; [destruct l; auto | assumption]. Qed.

Lemma formLigatures_rec_normal (n : nat) :
  forall l : list AnyParseNode,
    length l <= n -> no_ligature (formLigatures_rec l).
Proof.
  induction n as [|n IH]; intros l Hl.
  - destruct l; [exact I | cbn in Hl; lia].
  - destruct l as [|a [|b rest]]; [exact I | cbn; auto |].
    cbn [length] in Hl. rewrite formLigatures_rec_unfold.
    assert (Hmerged : forall x t R,
               node_text x = Some t -> collapsed_text t -> length R <= n ->
               no_ligature (x :: formLigatures_rec R)).
    { intros x t R Hx Ht HR. apply no_ligature_cons; [|now apply IH].
      intros y. eapply collapsible_left_collapsed; eauto. }
    assert (Hkeep : collapsible a b = false ->
               no_ligature (a :: formLigatures_rec (b :: rest))).
    { intros Hab.
      destruct (formLigatures_rec_head b rest) as (h & R & Heq & Hh).
      assert (Hn := IH (b :: rest) ltac:(cbn [length]; lia)).
      rewrite Heq in Hn |- *. split; [|exact Hn].
      destruct Hh as [Hh | (t & Hh & Ht)].
      - now rewrite (@collapsible_same_text a b h Hh).
      - eapply collapsible_right_collapsed; eauto. }
    destruct (is_text (node_text a) "-" && is_text (node_text b) "-") eqn:Hdash.
    + destruct rest as [|c rest]; [cbn; auto|].
      destruct (is_text (node_text c) "-").
      * apply (Hmerged _ "---"); [reflexivity | unfold collapsed_text; auto |].
        cbn [length] in Hl. lia.
      * apply (Hmerged _ "--" (c :: rest));
          [reflexivity | unfold collapsed_text; auto |].
        cbn [length] in Hl |- *. lia.
    + destruct (node_text a) as [v|] eqn:Hv.
      * destruct ((String.eqb v "'" || String.eqb v "`")
                  && is_text (node_text b) v) eqn:Hq.
        -- apply (Hmerged _ (v +++ v)); [reflexivity | | lia].
           apply andb_true_iff in Hq as [Hq _].
           apply quote_cases in Hq as [-> | ->]; unfold collapsed_text; auto.
        -- apply Hkeep. unfold collapsible. now rewrite Hv, Hdash, Hq.
      * apply Hkeep. unfold collapsible. now rewrite Hv, Hdash.
Qed.

(** X3: in the list [formLigatures] returns no two neighbours are a pair
    it would collapse (two hyphens, or two equal quotes). *)
Theorem formLigatures_normal_form (group : list AnyParseNode) :
  no_ligature (formLigatures group).
Proof.
  rewrite formLigatures_is_rec.
  exact (@formLigatures_rec_normal (length group) group (le_n _)).
Qed.

(** ** Colors, sizes, URLs *)

Lemma unescapeUrl_bounded (n : nat) :
  forall s : string,
    String.length s <= n ->
    String.length (unescapeUrl s) <= String.length s
    /\ (all_chars (fun c => negb (Ascii.eqb c "\")) s = true ->
        unescapeUrl s = s).
Proof.
  induction n as [|n IH]; intros s Hs.
  - destruct s; [split; reflexivity | cbn in Hs; lia].
  - destruct s as [|c [|d r]]; [split; reflexivity | split; reflexivity |].
    cbn [String.length] in Hs.
    destruct (IH (String d r)) as [L1 E1]; [cbn [String.length]; lia|].
    destruct (IH r) as [L2 E2]; [lia|].
    cbn [unescapeUrl] in *.
    destruct (Ascii.eqb c "\") eqn:Hc; cbn [andb negb].
    + split; [|cbn [all_chars]; rewrite Hc; discriminate].
      destruct (is_url_escapable d); cbn [String.length] in *; lia.
    + split; [cbn [String.length] in *; lia|].
      cbn [all_chars]. rewrite Hc. cbn [negb andb]. intros H.
      f_equal. apply E1. exact H.
Qed.

(** X4: the replacement [parseUrlGroup] applies to the text of a URL
    (a backslash before one of [#$%&~_^{}] is dropped) never lengthens the
    text, and leaves a text without backslash as it is. *)
Theorem unescapeUrl_shrinks (s : string) :
  String.length (unescapeUrl s) <= String.length s
  /\ (all_chars (fun c => negb (Ascii.eqb c "\")) s = true ->
      unescapeUrl s = s).
Proof. exact (@unescapeUrl_bounded (String.length s) s (le_n _)). Qed.

Lemma colorRegex_exec_some (s c : string) :
  colorRegex_exec s = Some c -> c = s.
Proof.
  unfold colorRegex_exec.
  match goal with |- (if ?b then _ else _) = _ -> _ => destruct b end;
    [now intros [= <-] | discriminate].
Qed.

Lemma hex6_with_hash (s : string) :
  hex6Regex_test s = true ->
  colorRegex_exec ("#" +++ s) = Some ("#" +++ s)
  /\ hex6Regex_test ("#" +++ s) = false.
Proof.
  unfold hex6Regex_test. intros H. apply andb_true_iff in H as [Hl Hh].
  split.
  - unfold colorRegex_exec. cbn. rewrite Hl, Hh. cbn. now rewrite orb_true_r.
  - cbn. apply Nat.eqb_eq in Hl. rewrite Hl. reflexivity.
Qed.

Lemma sizeMatch_at_unit (s sign magnitude unit_ : string) :
  sizeMatch_at s = Some (sign, magnitude, unit_) ->
  String.length unit_ = 2 /\ all_chars is_lower unit_ = true.
Proof.
  unfold sizeMatch_at.
  destruct (strip_sign s) as [sg s1].
  destruct (span is_digit (drop_spaces s1)) as [d1 r1].
  match goal with
  | |- match ?m with _ => _ end = _ -> _ => destruct m as [[mag r]|]
  end; [|discriminate].
  destruct (drop_spaces r) as [|a [|b r']]; try discriminate.
  destruct (is_lower a && is_lower b) eqn:E; [|discriminate].
  intros [= _ _ <-]. apply andb_true_iff in E as [Ea Eb].
  cbn. now rewrite Ea, Eb.
Qed.

Lemma sizeMatch_exec_unit (s sign magnitude unit_ : string) :
  sizeMatch_exec s = Some (sign, magnitude, unit_) ->
  String.length unit_ = 2 /\ all_chars is_lower unit_ = true.
Proof.
  induction s as [|c s IH]; cbn [sizeMatch_exec].
  - destruct (sizeMatch_at "") as [m|] eqn:E; [|discriminate].
    intros [= ->]. exact (sizeMatch_at_unit _ E).
  - destruct (sizeMatch_at (String c s)) as [m|] eqn:E; [|exact IH].
    intros [= ->]. exact (sizeMatch_at_unit _ E).
Qed.

Section Groups.

Variable Src : Type.
Variable T : Tables Src.

(** X5: the color of a color-token that [parseColorGroup] returns is
    accepted by the color expression and is never a bare run of six
    hexadecimal digits (such a run is given a leading [#]); the node carries
    the mode of the parser. *)
Theorem parseColorGroup_color (fuel : nat) (optional : bool)
        (p p' : Parser Src) (node : AnyParseNode) :
  parseColorGroup T fuel optional p = (Ok (Some node), p') ->
  exists color,
    node = ColorToken (mode p') color
    /\ colorRegex_exec color = Some color
    /\ hex6Regex_test color = false.
Proof.
  unfold parseColorGroup. intros H. bind_inv H as res Hres.
  destruct res as [res|]; [|apply ret_inv in H as [[=] _]].
  destruct (colorRegex_exec (Token.text res)) as [color|] eqn:Hc;
    [|discriminate].
  bind_inv H as m Hm. apply gets_inv in Hm as [-> ->].
  apply ret_inv in H as [[= ->] ->].
  pose proof (colorRegex_exec_some _ Hc) as ->.
  destruct (hex6Regex_test (Token.text res)) eqn:Hh.
  - apply hex6_with_hash in Hh as [H1 H2]. eauto.
  - eauto.
Qed.

(** X6: a size node that [parseSizeGroup] returns carries the mode of
    the parser and a measurement whose unit is made of two lower-case
    letters and is accepted by [validUnit]; it is marked blank only for a
    mandatory argument, and then the measurement is [0pt]. *)
Theorem parseSizeGroup_size (fuel : nat) (optional : bool)
        (p p' : Parser Src) (node : AnyParseNode) :
  parseSizeGroup T fuel optional p = (Ok (Some node), p') ->
  exists value isBlank,
    node = Size (mode p') value isBlank
    /\ validUnit T value = true
    /\ String.length (m_unit value) = 2
    /\ all_chars is_lower (m_unit value) = true
    /\ (isBlank = true ->
        optional = false /\ value = mkMeasurement (Num 0) "pt").
Proof.
  unfold parseSizeGroup. intros H. bind_inv H as res Hres.
  destruct res as [res|]; [|apply ret_inv in H as [[=] _]].
  cbv zeta in H.
  set (blank := negb optional && (String.length (Token.text res) =? 0)) in H.
  destruct (sizeMatch_exec
              (Token.text (if blank then Token.mk "0pt" (Token.loc res)
                           else res)))
    as [[[sign magnitude] unit_]|] eqn:Hm; [|discriminate].
  destruct (validUnit T (mkMeasurement (toNumber sign magnitude) unit_))
    eqn:Hv; [|discriminate].
  cbn [negb] in H. bind_inv H as m Hmode. apply gets_inv in Hmode as [-> ->].
  apply ret_inv in H as [[= ->] ->].
  exists (mkMeasurement (toNumber sign magnitude) unit_), blank.
  destruct (sizeMatch_exec_unit _ Hm) as [Hl Hu].
  repeat split; try assumption.
  - subst blank. destruct optional; [discriminate | reflexivity].
  - rewrite H in Hm. cbn in Hm. injection Hm as <- <- <-. reflexivity.
Qed.

End Groups.

(** ** Infix operators, functions and their arguments *)

Lemma bind_modify (Src B : Type) (f : Parser Src -> Parser Src)
      (k : unit -> M Src B) (p : Parser Src) :
  bind (modify f) k p = k tt (f p).
Proof. reflexivity. Qed.

Lemma bind_consume (Src B : Type) (k : unit -> M Src B) (p : Parser Src) :
  bind consume k p = k tt (set_nextToken None p).
Proof. reflexivity. Qed.

Section Calls.

Variable Src : Type.
Variable T : Tables Src.

(** X7: given a list that holds no infix node, [handleInfixNodes]
    returns the list as it is, calls no function and leaves the parser
    untouched. *)
Theorem handleInfixNodes_without_infix (this : Methods Src)
        (body : list AnyParseNode) (p : Parser Src) :
  Forall not_infix body ->
  handleInfixNodes this body p = (Ok body, p).
Proof.
  intros H. unfold handleInfixNodes.
  now rewrite (@scan_no_infix body 0 (-1) None H).
Qed.

(** X8: when the only infix node of the list names a replacement that
    the registry does not hold, or holds without a handler,
    [handleInfixNodes] raises "No function handler for" followed by the
    name, and leaves the parser untouched. *)
Theorem handleInfixNodes_unregistered (fuel : nat) (body : list AnyParseNode)
        (k : nat) (infixNode : AnyParseNode) (fn : string) (p : Parser Src) :
  nth_error body k = Some infixNode ->
  is_infix infixNode = true ->
  (forall j n, j <> k -> nth_error body j = Some n -> is_infix n = false) ->
  node_replaceWith infixNode = Some fn ->
  fn <> "" ->
  (functions T fn = None
   \/ exists spec, functions T fn = Some spec /\ handler spec = None) ->
  handleInfixNodes (parser T (S fuel)) body p
  = (Throw (ParseError ("No function handler for " +++ fn) None), p).
Proof.
  intros Hk Hx Hothers Hfn Hne Hreg.
  destruct (others_not_infix body Hothers) as [Hpre Hpost].
  assert (Hlen : k < length body) by (apply nth_error_Some; congruence).
  pose proof (scan_one_infix infixNode 0 None Hpre Hx Hpost) as Hscan.
  rewrite <- (split_at_index body k Hk), length_firstn, Hfn in Hscan.
  replace (0 + Z.of_nat (Nat.min k (length body)))%Z with (Z.of_nat k)
    in Hscan by lia.
  unfold handleInfixNodes. rewrite Hscan.
  replace (negb (Z.of_nat k =? -1)%Z) with true
    by (symmetry; apply negb_true_iff, Z.eqb_neq; lia).
  apply String.eqb_neq in Hne. cbn [truthy andb]. rewrite Hne. cbn [negb].
  unfold bind, gets. cbn [m_callFunction parser]. unfold callFunction.
  destruct Hreg as [-> | (spec & -> & ->)];
    destruct (String.eqb fn "\\abovefrac"); reflexivity.
Qed.

Lemma parseArguments_loop_lengths (this : Methods Src) (func : string)
      (funcData : FunctionSpec Src) (count : nat) :
  forall (i : nat) (args : list AnyParseNode)
         (optArgs : list (option AnyParseNode)) (p p' : Parser Src)
         (a : list AnyParseNode) (o : list (option AnyParseNode)),
    parseArguments_loop T this count i func funcData args optArgs p
    = (Ok (a, o), p') ->
    length a + length o = length args + length optArgs + count
    /\ length o = length optArgs
                  + (Nat.min (i + count) (numOptionalArgs funcData)
                     - Nat.min i (numOptionalArgs funcData)).
Proof.
  induction count as [|count IH]; intros i args optArgs p p' a o H.
  - apply ret_inv in H as [[= -> ->] _]. lia.
  - cbn [parseArguments_loop] in H.
    bind_inv H as m Hm. bind_inv H as arg Harg.
    destruct (i <? numOptionalArgs funcData) eqn:Hopt.
    + apply Nat.ltb_lt in Hopt.
      assert (Hstep : forall x,
                 parseArguments_loop T this count (i + 1) func funcData args
                                     (optArgs ++ [x]) p1 = (Ok (a, o), p') ->
                 length a + length o = length args + length optArgs + S count
                 /\ length o = length optArgs
                               + (Nat.min (i + S count) (numOptionalArgs funcData)
                                  - Nat.min i (numOptionalArgs funcData))).
      { intros x Hx. apply IH in Hx as [H1 H2].
        rewrite length_app in H1, H2. cbn [length] in H1, H2.
        replace (i + 1 + count) with (i + S count) in H2 by lia. lia. }
      destruct arg; now apply Hstep in H.
    + apply Nat.ltb_ge in Hopt. destruct arg as [x|].
      * apply IH in H as [H1 H2]. rewrite length_app in H1. cbn [length] in H1.
        replace (i + 1 + count) with (i + S count) in H2 by lia. lia.
      * bind_skip H. discriminate.
Qed.

(** X9: whenever [parseArguments] returns, it returns as many arguments
    as the function declares mandatory ones ([numArgs]) and as many
    optional arguments, absent ones included, as it declares optional ones
    ([numOptionalArgs]). *)
Theorem parseArguments_arity (this : Methods Src) (func : string)
        (funcData : FunctionSpec Src) (p p' : Parser Src)
        (args : list AnyParseNode) (optArgs : list (option AnyParseNode)) :
  parseArguments T this func funcData p = (Ok (args, optArgs), p') ->
  length args = numArgs funcData
  /\ length optArgs = numOptionalArgs funcData.
Proof.
  unfold parseArguments. intros H.
  destruct (numArgs funcData + numOptionalArgs funcData =? 0) eqn:E.
  - apply Nat.eqb_eq in E. apply ret_inv in H as [[= -> ->] _]. cbn. lia.
  - apply parseArguments_loop_lengths in H as [H1 H2]. cbn [length] in H1, H2.
    lia.
Qed.

(** X10: with a registered function as the lookahead, [parseFunction]
    consumes the token and then raises, in this order of precedence: "Got
    function ... with no arguments" when the greediness of the function
    does not exceed the one required, "Can't use function ... in text mode"
    in text mode when the function is not allowed in text, and "Can't use
    function ... in math mode" in math mode when it is not allowed in
    math; each error carries the token of the function. *)
Theorem parseFunction_rejects (this : Methods Src)
        (breakOnTokenText name : option string) (greediness_ : option Z)
        (p p1 : Parser Src) (tok : Token.t) (funcData : FunctionSpec Src) :
  fetch T p = (Ok tok, p1) ->
  functions T (Token.text tok) = Some funcData ->
  let func := Token.text tok in
  let run := parseFunction T this breakOnTokenText name greediness_ p in
  let thrown message :=
    (Throw (ParseError message (Some tok)), set_nextToken None p1) in
  (forall g, greediness_ = Some g -> (greediness funcData <= g)%Z ->
     run = thrown ("Got function '" +++ func +++ "' with no arguments"
                   +++ (if truthy name
                        then " as " +++ match name with
                                        | Some n => n
                                        | None => ""
                                        end
                        else "")))
  /\ ((forall g, greediness_ = Some g -> (g < greediness funcData)%Z) ->
      mode p1 = text -> allowedInText funcData = false ->
      run = thrown ("Can't use function '" +++ func +++ "' in text mode"))
  /\ ((forall g, greediness_ = Some g -> (g < greediness funcData)%Z) ->
      mode p1 = math -> allowedInMath funcData = false ->
      run = thrown ("Can't use function '" +++ func +++ "' in math mode")).
Proof.
  intros Hf Hfun func run thrown. subst run. unfold parseFunction.
  rewrite (bind_ok _ Hf), Hfun.
  rewrite bind_consume, bind_gets. cbn [mode set_nextToken].
  assert (Hg : (forall g, greediness_ = Some g -> (g < greediness funcData)%Z) ->
               match greediness_ with
               | Some g => (greediness funcData <=? g)%Z
               | None => false
               end = false).
  { intros H. destruct greediness_ as [g|]; [|reflexivity].
    apply Z.leb_gt. now apply H. }
  repeat split.
  - intros g -> Hle. apply Z.leb_le in Hle. now rewrite Hle.
  - intros H Hm Ha. rewrite (Hg H), Hm, Ha. reflexivity.
  - intros H Hm Ha. rewrite (Hg H), Hm, Ha. reflexivity.
Qed.

End Calls.

(** ** Symbols and regex groups *)

Lemma string_length_append (a b : string) :
  String.length (a +++ b) = String.length a + String.length b.
Proof. induction a as [|x a IH]; cbn; congruence. Qed.

Lemma substring_all (s : string) : substring 0 (String.length s) s = s.
Proof. induction s as [|x s IH]; cbn; congruence. Qed.

Lemma substring_prefix (a b : string) :
  substring 0 (String.length a) (a +++ b) = a.
Proof.
  induction a as [|x a IH]; cbn; [destruct b; reflexivity | congruence].
Qed.

Lemma get_after (a : string) (d : ascii) (b : string) :
  get (String.length a) (a +++ String d b) = Some d.
Proof. induction a as [|x a IH]; cbn; [reflexivity | exact IH]. Qed.

Lemma slice_from_verb (s : string) : slice_from 5 ("\verb" +++ s) = s.
Proof.
  unfold slice_from. cbn [append String.length substring Nat.sub].
  rewrite Nat.sub_0_r. apply substring_all.
Qed.

Lemma slice_from_1 (c : ascii) (s : string) : slice_from 1 (String c s) = s.
Proof.
  unfold slice_from. cbn [String.length substring Nat.sub].
  rewrite Nat.sub_0_r. apply substring_all.
Qed.

Lemma verbRegex_test_verb (c : ascii) (s : string) :
  verbRegex_test ("\verb" +++ String c s) = negb (is_letter c).
Proof. reflexivity. Qed.

(** The argument of [\verb] between two equal delimiters: it passes the
    test of [parseSymbol], and what is between the delimiters is cut out. *)
Lemma verb_argument (d : ascii) (body : string) :
  let arg := String d (body +++ str1 d) in
  (String.length arg <? 2)
  || negb (match first_char arg, last_char arg with
           | Some a, Some b => Ascii.eqb a b
           | _, _ => false
           end) = false
  /\ substring 1 (String.length arg - 2) arg = body.
Proof.
  intros arg. subst arg. unfold last_char.
  cbn [String.length first_char Nat.sub]. rewrite Nat.sub_0_r.
  rewrite string_length_append. cbn [String.length str1].
  replace (String.length body + 1) with (S (String.length body)) by lia.
  split.
  - cbn [get]. unfold str1. rewrite get_after, Ascii.eqb_refl. reflexivity.
  - cbn [Nat.sub substring]. rewrite Nat.sub_0_r. apply substring_prefix.
Qed.

Section Symbols.

Variable Src : Type.
Variable T : Tables Src.

Lemma report_inv (kind message : string) (tok : Token.t) (p p' : Parser Src)
      (u : unit) :
  report T kind message tok p = (Ok u, p') -> p' = p.
Proof.
  unfold report. destruct (reportNonstrict _ _ _ _); [discriminate|].
  now intros [= _ <-].
Qed.

Lemma parseSymbol_accents_state (marks : list string) :
  forall nucleus symbol (p p' : Parser Src) r,
    parseSymbol_accents T marks nucleus symbol p = (Ok r, p') -> p' = p.
Proof.
  induction marks as [|mark marks IH]; intros nucleus symbol p p' r H.
  - now apply ret_inv in H as [_ ->].
  - cbn [parseSymbol_accents] in H.
    destruct (unicodeAccents T mark) as [byMode|]; [|discriminate].
    bind_inv H as m Hm. apply gets_inv in Hm as [-> ->].
    destruct (byMode (mode p)); [|discriminate]. eauto.
Qed.

(** X11: [parseSymbol] consumes the lookahead exactly when it returns a
    node: after a node the lookahead is empty; after [null] the token it
    looked at is still the lookahead. *)
Theorem parseSymbol_consumes (p p' : Parser Src) (r : option AnyParseNode) :
  parseSymbol T p = (Ok r, p') ->
  match r with
  | Some _ => nextToken p' = None
  | None => exists tok, fetch T p = (Ok tok, p') /\ nextToken p' = Some tok
  end.
Proof.
  unfold parseSymbol. intros H. bind_inv_at H as nucleus q Hf.
  pose proof Hf as Hnext. apply fetch_ok in Hnext as [Hnext _].
  destruct (verbRegex_test (Token.text nucleus)).
  { bind_inv H as u Hc. apply modify_inv in Hc as ->.
    match type of H with (if ?b then _ else _) _ = _ => destruct b end;
      [discriminate|].
    now apply ret_inv in H as [-> ->]. }
  bind_inv H as m0 Hm0. apply gets_inv in Hm0 as [-> ->].
  bind_inv_at H as txt q1 Htxt.
  assert (E1 : q1 = q).
  { destruct (first_char (Token.text nucleus)) as [c|];
      [|now apply ret_inv in Htxt as [_ ->]].
    destruct (unicodeSymbols T (str1 c)) as [expansion|];
      [|now apply ret_inv in Htxt as [_ ->]].
    destruct (symbols T (mode q) (str1 c));
      [now apply ret_inv in Htxt as [_ ->]|].
    bind_inv_at Htxt as u q' Hw. apply ret_inv in Htxt as [_ ->].
    unfold when in Hw. destruct (_ && _);
      [now apply report_inv in Hw | now apply ret_inv in Hw as [_ ->]]. }
  subst q1. cbv zeta in H.
  bind_inv H as m Hm. apply gets_inv in Hm as [-> ->].
  bind_inv_at H as symbol q2 Hsym.
  assert (E2 : q2 = q).
  { match type of Hsym with
    | match ?x with _ => _ end _ = _ => destruct x
    end.
    - bind_inv_at Hsym as u q' Hw. apply ret_inv in Hsym as [_ ->].
      unfold when in Hw. destruct (_ && _);
        [now apply report_inv in Hw | now apply ret_inv in Hw as [_ ->]].
    - match type of Hsym with
      | match ?x with _ => _ end _ = _ => destruct x as [c|]
      end; [|now apply ret_inv in Hsym as [_ ->]].
      destruct (128 <=? code c); [|now apply ret_inv in Hsym as [_ ->]].
      bind_inv_at Hsym as u q' Hw. apply ret_inv in Hsym as [_ ->].
      unfold when in Hw. destruct (strict (settings T));
        [|now apply ret_inv in Hw as [_ ->]].
      destruct (negb (supportedCodepoint T (code c)));
        [now apply report_inv in Hw|].
      destruct (Mode_eqb (mode q) math);
        [now apply report_inv in Hw | now apply ret_inv in Hw as [_ ->]]. }
  subst q2. destruct symbol as [symbol|].
  - bind_inv H as u Hc. apply modify_inv in Hc as ->.
    match type of H with
    | match ?x with _ => _ end _ = _ => destruct x as [[index marks]|]
    end.
    + bind_inv_at H as r0 q3 Hacc. apply parseSymbol_accents_state in Hacc as ->.
      now apply ret_inv in H as [-> ->].
    + now apply ret_inv in H as [-> ->].
  - apply ret_inv in H as [-> ->]. eauto.
Qed.

(** X12: for a token made of [\verb], an optional star, a delimiter, a
    body and the same delimiter again (without the star the delimiter is
    neither a letter nor a star), [parseSymbol] consumes the token and
    returns a verb node in text mode with that body and that star flag. *)
Theorem parseSymbol_verb (p p1 : Parser Src) (tok : Token.t) (d : ascii)
        (body : string) (star : bool) :
  fetch T p = (Ok tok, p1) ->
  Token.text tok
  = "\verb" +++ (if star then "*" else "") +++ String d (body +++ str1 d) ->
  (star = false -> is_letter d = false /\ d <> "*"%char) ->
  parseSymbol T p = (Ok (Some (Verb text body star)), set_nextToken None p1).
Proof.
  intros Hf Htxt Hd. unfold parseSymbol. rewrite (bind_ok _ Hf), Htxt.
  destruct (verb_argument d body) as [Hok Hbody].
  destruct star.
  - change ("\verb" +++ "*" +++ String d (body +++ str1 d))
      with ("\verb" +++ String "*" (String d (body +++ str1 d))).
    rewrite verbRegex_test_verb, slice_from_verb. cbn [is_letter negb].
    change (negb (is_letter "*")) with true. cbv iota.
    rewrite bind_consume. cbn [first_char]. rewrite Ascii.eqb_refl.
    rewrite slice_from_1, Hok, Hbody. reflexivity.
  - destruct (Hd eq_refl) as [Hletter Hstar]. apply Ascii.eqb_neq in Hstar.
    change ("\verb" +++ "" +++ String d (body +++ str1 d))
      with ("\verb" +++ String d (body +++ str1 d)).
    rewrite verbRegex_test_verb, slice_from_verb, Hletter. cbn [negb].
    rewrite bind_consume. cbn [first_char]. rewrite Hstar, Hok, Hbody.
    reflexivity.
Qed.

End Symbols.

(** ** Groups, atoms and expressions *)

Section Atoms.

Variable Src : Type.
Variable T : Tables Src.

Lemma parseRegexGroup_loop_matches (regex : string -> bool) (fuel : nat) :
  forall (lastToken lt : Token.t) (str s : string) (p p' : Parser Src),
    parseRegexGroup_loop T fuel regex lastToken str p = (Ok (lt, s), p') ->
    (s = str \/ regex s = true)
    /\ exists next,
         nextToken p' = Some next
         /\ (Token.text next = "EOF"
             \/ regex (s +++ Token.text next) = false).
Proof.
  induction fuel as [|fuel IH]; intros lastToken lt str s p p' H;
    [discriminate|].
  cbn [parseRegexGroup_loop] in H. bind_inv_at H as next q Hf.
  apply fetch_ok in Hf as [Hnext _].
  destruct (String.eqb (Token.text next) "EOF") eqn:Heof; cbn [negb andb] in H.
  - apply ret_inv in H as [[= -> ->] ->]. split; [auto|].
    exists next. apply String.eqb_eq in Heof. auto.
  - destruct (regex (str +++ Token.text next)) eqn:Hr.
    + bind_skip H. apply IH in H as [[-> | Hs] Hn]; auto.
    + apply ret_inv in H as [[= -> ->] ->]. split; [auto|]. eauto.
Qed.

(** X13: whenever [parseRegexGroup] returns, the token it returns has a
    non-empty text that matches the expression, the parser is back in the
    mode it was in, and the lookahead is the token at which reading
    stopped: [EOF], or a token that appended to the text breaks the
    match. *)
Theorem parseRegexGroup_matches (fuel : nat) (regex : string -> bool)
        (modeName : string) (p p' : Parser Src) (tok : Token.t) :
  parseRegexGroup T fuel regex modeName p = (Ok tok, p') ->
  regex (Token.text tok) = true
  /\ Token.text tok <> ""
  /\ mode p' = mode p
  /\ exists next,
       nextToken p' = Some next
       /\ (Token.text next = "EOF"
           \/ regex (Token.text tok +++ Token.text next) = false).
Proof.
  unfold parseRegexGroup. intros H.
  bind_inv H as outerMode Hout. apply gets_inv in Hout as [-> ->].
  bind_skip H. bind_skip H. bind_inv_at H as [lt s] q Hloop.
  apply parseRegexGroup_loop_matches in Hloop as [Hs Hn].
  destruct (String.eqb s "") eqn:E; [discriminate|].
  apply String.eqb_neq in E.
  bind_inv H as u Hset. apply modify_inv in Hset as ->.
  apply ret_inv in H as [-> ->]. cbn.
  repeat split; [destruct Hs; congruence | assumption | exact Hn].
Qed.

(** X14: whenever [parseStringGroup] returns, with a group or with
    [null], the parser is in the mode it was in at the call (inside the
    group it reads in text mode). *)
Theorem parseStringGroup_restores_mode (fuel : nat) (modeName : string)
        (optional raw : bool) (p p' : Parser Src) (r : option Token.t) :
  parseStringGroup T fuel modeName optional raw p = (Ok r, p') ->
  mode p' = mode p.
Proof.
  unfold parseStringGroup. intros H. bind_inv_at H as tk q Hf.
  apply fetch_mode in Hf. rewrite <- Hf.
  destruct (_ && optional); [now apply ret_inv in H as [_ ->]|].
  destruct (_ && _ && _ && _).
  { bind_inv H as u Hc. apply modify_inv in Hc as ->.
    now apply ret_inv in H as [_ ->]. }
  bind_inv H as outerMode Hout. apply gets_inv in Hout as [-> ->].
  bind_skip H. bind_skip H. bind_skip H. bind_inv H as [lt str] Hloop.
  bind_skip H. bind_inv H as u Hset. apply modify_inv in Hset as ->.
  now apply ret_inv in H as [_ ->].
Qed.

(** X15: under [throwOnError], when the lookahead is a control sequence
    that is no function, no symbol and no implicit command, [parseGroup]
    raises "Undefined control sequence:" followed by the command, with the
    token of the command, and does not consume it. *)
Theorem parseGroup_undefined_throws (fuel fuel' : nat) (name : string)
        (greediness_ : option Z) (breakOnTokenText : option string)
        (p : Parser Src) (tok : Token.t) :
  throwOnError (settings T) = true ->
  nextToken p = Some tok ->
  first_char (Token.text tok) = Some "\"%char ->
  Token.text tok <> "\begingroup" ->
  functions T (Token.text tok) = None ->
  implicitCommands T (Token.text tok) = false ->
  parseSymbol T p = (Ok None, p) ->
  parseGroup T (parser T (S fuel')) fuel name false greediness_
             breakOnTokenText None false p
  = (Throw (ParseError ("Undefined control sequence: " +++ Token.text tok)
                       (Some tok)), p).
Proof.
  intros Hthrow Hnext Hfirst Hbegin Hfun Himpl Hsym.
  assert (Hbrace : String.eqb (Token.text tok) "{" = false).
  { destruct (Token.text tok) as [|c s]; [discriminate|].
    injection Hfirst as ->. reflexivity. }
  apply String.eqb_neq in Hbegin.
  unfold parseGroup. rewrite bind_gets, bind_ret. unfold when.
  rewrite bind_ret, (bind_ok _ (fetch_cached T p Hnext)).
  rewrite Hbrace, Hbegin. cbn [orb m_parseFunction parser].
  assert (Hpf : parseFunction T (parser T fuel') breakOnTokenText (Some name)
                              greediness_ p = (Ok None, p)).
  { unfold parseFunction. rewrite (bind_ok _ (fetch_cached T p Hnext)), Hfun.
    reflexivity. }
  apply bind_throw.
  rewrite (bind_ok _ Hpf), (bind_ok _ Hsym), Hfirst, Himpl, Hthrow.
  reflexivity.
Qed.

(** X16: when an optional argument is asked for and the lookahead is
    not an opening square bracket, [parseGroupOfType] returns [null]
    without consuming the lookahead for the types color, size, original
    and for no type; for the type raw it returns [null] when the lookahead
    is an opening brace, and raises "Expected raw group" otherwise. *)
Theorem optional_argument_absent (n fuel : nat) (name : string)
        (greediness_ : option Z) (p p1 : Parser Src) (tok : Token.t) :
  fetch T p = (Ok tok, p1) ->
  Token.text tok <> "[" ->
  let run type :=
    parseGroupOfType T (parser T (S n)) fuel name type true greediness_
                     false p in
  run (Some arg_color) = (Ok None, p1)
  /\ run (Some arg_size) = (Ok None, p1)
  /\ run (Some arg_original) = (Ok None, p1)
  /\ run None = (Ok None, p1)
  /\ (Token.text tok = "{" -> run (Some arg_raw) = (Ok None, p1))
  /\ (Token.text tok <> "{" ->
      run (Some arg_raw)
      = (Throw (ParseError "Expected raw group" (Some tok)), p1)).
Proof.
  intros Hf Hne run. subst run. apply String.eqb_neq in Hne.
  pose proof Hf as Hf1. apply fetch_again in Hf1.
  assert (Hsg : forall modeName raw,
             parseStringGroup T fuel modeName true raw p = (Ok None, p1)).
  { intros. unfold parseStringGroup. now rewrite (bind_ok _ Hf), Hne. }
  assert (Hsg1 : forall modeName raw,
             parseStringGroup T fuel modeName true raw p1 = (Ok None, p1)).
  { intros. unfold parseStringGroup. now rewrite (bind_ok _ Hf1), Hne. }
  assert (Hpg : parseGroup T (parser T n) (S n) name true greediness_ None
                           None false p = (Ok None, p1)).
  { unfold parseGroup. rewrite bind_gets, bind_ret. unfold when.
    now rewrite bind_ret, (bind_ok _ Hf), Hne. }
  unfold parseGroupOfType, when. cbn [m_parseGroup parser].
  repeat split.
  - rewrite bind_ret. unfold parseColorGroup. now rewrite (bind_ok _ (Hsg _ _)).
  - rewrite bind_ret. unfold parseSizeGroup. cbn [negb].
    now rewrite (bind_ok _ (Hsg _ _)).
  - exact Hpg.
  - exact Hpg.
  - intros Hb. rewrite bind_ret.
    assert (Hat : (t <- fetch T ;; ret (String.eqb (Token.text t) "{")) p
                  = (Ok true, p1))
      by now rewrite (bind_ok _ Hf), Hb.
    now rewrite (bind_ok _ Hat).
  - intros Hb. apply String.eqb_neq in Hb. rewrite bind_ret.
    assert (Hat : (t <- fetch T ;; ret (String.eqb (Token.text t) "{")) p
                  = (Ok false, p1))
      by now rewrite (bind_ok _ Hf), Hb.
    now rewrite (bind_ok _ Hat), (bind_ok _ (Hsg1 _ _)), (bind_ok _ Hf1).
Qed.

End Atoms.

Section Scripts.

Variable Src : Type.
Variable T : Tables Src.

Lemma with_limits_step (b : AnyParseNode) (k : string) (v : PropValue)
      (base' : option AnyParseNode) :
  with_limits (Some (node_assign k v b)) base' -> with_limits (Some b) base'.
Proof. apply with_limits_assign. Qed.

Lemma parseAtom_loop_result (this : Methods Src) (fuel steps : nat) :
  forall (base sup sub r : option AnyParseNode) (p p' : Parser Src),
    parseAtom_loop T this fuel steps base sup sub p = (Ok r, p') ->
    exists base' s u,
      with_limits base base'
      /\ (sup <> None -> s <> None)
      /\ (sub <> None -> u <> None)
      /\ r = match s, u with
             | None, None => base'
             | _, _ => Some (Supsub (mode p') base' s u)
             end.
Proof.
  induction steps as [|steps IH]; intros base sup sub r p p' H;
    [discriminate|].
  cbn [parseAtom_loop] in H. bind_skip H. bind_inv H as lex Hlex.
  destruct (String.eqb (Token.text lex) "\limits"
            || String.eqb (Token.text lex) "\nolimits").
  { destruct base as [b|]; [|discriminate].
    destruct (String.eqb (node_type b) "op").
    - bind_skip H. apply IH in H as (base' & s & u & Hb & H1 & H2 & ->).
      exists base', s, u. repeat split; auto.
      now do 2 apply with_limits_step in Hb.
    - destruct (_ && _); [|discriminate].
      bind_skip H. apply IH in H as (base' & s & u & Hb & H1 & H2 & ->).
      exists base', s, u. repeat split; auto.
      now apply with_limits_step in Hb. }
  destruct (String.eqb (Token.text lex) "^").
  { destruct sup; [discriminate|]. bind_skip H.
    apply IH in H as (base' & s & u & Hb & H1 & H2 & ->).
    exists base', s, u. repeat split; auto; intros _; apply H1; discriminate. }
  destruct (String.eqb (Token.text lex) "_").
  { destruct sub; [discriminate|]. bind_skip H.
    apply IH in H as (base' & s & u & Hb & H1 & H2 & ->).
    exists base', s, u. repeat split; auto; intros _; apply H2; discriminate. }
  destruct (String.eqb (Token.text lex) "'").
  { destruct sup; [discriminate|].
    bind_skip H. bind_skip H. bind_skip H. bind_skip H. bind_skip H.
    bind_skip H.
    apply IH in H as (base' & s & u & Hb & H1 & H2 & ->).
    exists base', s, u. repeat split; auto; intros _; apply H1; discriminate. }
  exists base, sup, sub. split; [constructor|]. split; [auto|]. split; [auto|].
  destruct sup, sub;
    try (bind_inv H as m Hm; apply gets_inv in Hm as [-> ->]);
    now apply ret_inv in H as [-> ->].
Qed.

(** X17: whenever the loop of [parseAtom] over the postfix modifiers
    returns, it returns the base it was given, up to the properties that
    limit controls assign, or a supsub node around that base that carries
    the mode of the parser and a superscript or a subscript: it builds no
    supsub node with neither. *)
Theorem parseAtom_supsub (this : Methods Src) (fuel steps : nat)
        (base r : option AnyParseNode) (p p' : Parser Src) :
  parseAtom_loop T this fuel steps base None None p = (Ok r, p') ->
  exists base',
    with_limits base base'
    /\ (r = base'
        \/ exists sup sub,
             r = Some (Supsub (mode p') base' sup sub)
             /\ (sup <> None \/ sub <> None)).
Proof.
  intros H. apply parseAtom_loop_result in H as (base' & s & u & Hb & _ & _ & ->).
  exists base'. split; [assumption|].
  destruct s as [x|]; [right; exists (Some x), u; split; [|left]; congruence|].
  destruct u as [y|]; [right; exists None, (Some y); split; [|right]; congruence|].
  now left.
Qed.

(** X18: in the loop of [parseAtom], a [\limits] or [\nolimits] token
    after a base that is absent, or that is neither an op nor an
    operatorname that always handles scripts, raises "Limit controls must
    follow a math operator" with that token, which is not consumed. *)
Theorem parseAtom_limits_error (this : Methods Src) (fuel steps : nat)
        (base sup sub : option AnyParseNode) (p p1 p2 : Parser Src)
        (lex : Token.t) :
  consumeSpaces T fuel p = (Ok tt, p1) ->
  fetch T p1 = (Ok lex, p2) ->
  Token.text lex = "\limits" \/ Token.text lex = "\nolimits" ->
  match base with
  | Some b =>
      node_type b <> "op"
      /\ (node_type b <> "operatorname" \/ node_alwaysHandleSupSub b = false)
  | None => True
  end ->
  parseAtom_loop T this fuel (S steps) base sup sub p
  = (Throw (ParseError "Limit controls must follow a math operator" (Some lex)),
     p2).
Proof.
  intros Hs Hf Ht Hb. cbn [parseAtom_loop].
  rewrite (bind_ok _ Hs), (bind_ok _ Hf).
  assert (E : String.eqb (Token.text lex) "\limits"
              || String.eqb (Token.text lex) "\nolimits" = true)
    by (destruct Ht as [-> | ->]; reflexivity).
  rewrite E. destruct base as [b|]; [|reflexivity].
  destruct Hb as [Hop Hname]. apply String.eqb_neq in Hop. rewrite Hop.
  destruct Hname as [Hname | Hname].
  - apply String.eqb_neq in Hname. now rewrite Hname.
  - now rewrite Hname, andb_false_r.
Qed.

(** X19: [parse()] returns only at the end of the input: the list it
    returns is the one [parseExpression] returned, the token after it was
    [EOF], and that token is consumed. *)
Theorem parse_reads_to_EOF (fuel : nat) (p p' : Parser Src)
        (r : list AnyParseNode) :
  parse T fuel p = (Ok r, p') ->
  nextToken p' = None
  /\ exists p0 p1 p2 eof,
       m_parseExpression (parser T fuel) false None p0 = (Ok r, p1)
       /\ fetch T p1 = (Ok eof, p2)
       /\ Token.text eof = "EOF".
Proof.
  unfold parse. intros H.
  bind_inv_at H as u qa Ha. bind_inv_at H as u0 q0 H0.
  bind_inv_at H as r0 q1 Hexpr.
  bind_inv_at H as u1 q3 Hexp.
  bind_inv_at H as u2 q4 Hend.
  apply ret_inv in H as [-> ->].
  unfold expect in Hexp. bind_inv_at Hexp as eof q2 Hf.
  destruct (String.eqb (Token.text eof) "EOF") eqn:E; [|discriminate].
  cbn [negb when] in Hexp. apply modify_inv in Hexp as ->.
  apply String.eqb_eq in E. split; [|eauto 8].
  unfold when in Hend. destruct (negb _).
  - now apply modify_inv in Hend as ->.
  - now apply ret_inv in Hend as [_ ->].
Qed.

(** X20: when [parseExpression] returns at a token other than [EOF],
    [parse()] raises "Expected 'EOF', got" followed by the text of that
    token, with that token, and does not consume it. *)
Theorem parse_trailing_input (fuel : nat) (p p1 p2 : Parser Src)
        (r : list AnyParseNode) (tok : Token.t) :
  let pa := if globalGroup (settings T) then p
            else set_gullet (gullet_beginGroup (gullet p)) p in
  let p0 := if colorIsTextColor (settings T)
            then set_gullet (macros_set "\color" "\textcolor" (gullet pa)) pa
            else pa in
  m_parseExpression (parser T fuel) false None p0 = (Ok r, p1) ->
  fetch T p1 = (Ok tok, p2) ->
  Token.text tok <> "EOF" ->
  parse T fuel p
  = (Throw (ParseError ("Expected 'EOF', got '" +++ Token.text tok +++ "'")
                       (Some tok)), p2).
Proof.
  intros pa p0 Hexpr Hf Hne. unfold parse.
  assert (He : expect T "EOF" true p1
               = (Throw (ParseError ("Expected 'EOF', got '" +++ Token.text tok
                                     +++ "'") (Some tok)), p2)).
  { unfold expect. rewrite (bind_ok _ Hf).
    apply String.eqb_neq in Hne. now rewrite Hne. }
  subst p0 pa. unfold when, beginGroup.
  destruct (globalGroup (settings T)), (colorIsTextColor (settings T));
    cbn [negb] in *;
    rewrite ?bind_ret, ?bind_modify, ?bind_ret, ?bind_modify;
    rewrite (bind_ok _ Hexpr); now apply bind_throw.
Qed.

(** X21: when the lookahead is one of the tokens that end an
    expression, or the token [parseExpression] was told to stop at, or an
    infix function while it stops at infix functions, [parseExpression]
    returns the empty list and leaves the token as the lookahead. *)
Theorem parseExpression_at_terminator (n fuel : nat) (breakOnInfix : bool)
        (breakOnTokenText : option string) (p : Parser Src) (tok : Token.t) :
  nextToken p = Some tok ->
  Token.text tok <> " " ->
  (In (Token.text tok) endOfExpression
   \/ (breakOnTokenText = Some (Token.text tok) /\ Token.text tok <> "")
   \/ (breakOnInfix = true
       /\ exists f, functions T (Token.text tok) = Some f /\ infix f = true)) ->
  parseExpression T (parser T (S n)) (S fuel) breakOnInfix breakOnTokenText p
  = (Ok [], p).
Proof.
  intros Hnext Hsp Hend. apply String.eqb_neq in Hsp.
  assert (Hcs : consumeSpaces T (S fuel) p = (Ok tt, p)).
  { cbn [consumeSpaces]. now rewrite (bind_ok _ (fetch_cached T p Hnext)), Hsp. }
  assert (Hloop : parseExpression_loop T (parser T (S n)) (S fuel) (S fuel)
                    breakOnInfix breakOnTokenText [] p = (Ok [], p)).
  { cbn [parseExpression_loop]. rewrite bind_gets.
    assert (Hw : when (Mode_eqb (mode p) math) (consumeSpaces T (S fuel)) p
                 = (Ok tt, p))
      by (unfold when; destruct (Mode_eqb (mode p) math); [exact Hcs | reflexivity]).
    rewrite (bind_ok _ Hw), (bind_ok _ (fetch_cached T p Hnext)).
    destruct Hend as [Hin | [(-> & Hne) | (-> & f & Hfun & Hinfix)]].
    - replace (existsb (String.eqb (Token.text tok)) endOfExpression) with true;
        [reflexivity|].
      symmetry. apply existsb_exists. exists (Token.text tok).
      split; [assumption | apply String.eqb_refl].
    - destruct (existsb _ _); [reflexivity|].
      apply String.eqb_neq in Hne. cbn [truthy is_text].
      now rewrite Hne, String.eqb_refl.
    - destruct (existsb _ _); [reflexivity|].
      destruct (truthy breakOnTokenText
                && is_text breakOnTokenText (Token.text tok)); [reflexivity|].
      now rewrite Hfun, Hinfix. }
  unfold parseExpression. rewrite (bind_ok _ Hloop), bind_gets.
  replace (if Mode_eqb (mode p) text then formLigatures [] else [])
    with (@nil AnyParseNode) by (destruct (Mode_eqb _ _); reflexivity).
  reflexivity.
Qed.

End Scripts.

(** ** String groups over a list of tokens *)

Lemma string_append_assoc (a b c : string) : (a +++ b) +++ c = a +++ b +++ c.
Proof. induction a as [|x a IH]; cbn; congruence. Qed.

Lemma string_append_empty (a : string) : a +++ "" = a.
Proof. induction a as [|x a IH]; cbn; congruence. Qed.

Lemma last_default (A : Type) (l : list A) (a d : A) :
  last (a :: l) d = last l a.
Proof.
  revert a d. induction l as [|b l IH]; intros a d; [reflexivity|].
  change (last (a :: b :: l) d) with (last (b :: l) d).
  now rewrite !IH.
Qed.

Section ListSource.

Variable T : Tables Demo.Src.
Hypothesis Hsrc : expandNextToken T = Demo.expandNextToken.

Lemma fetch_stream (src rest : list Token.t) (la : option Token.t)
      (t : Token.t) (p : Parser Demo.Src) :
  stream la src = t :: rest ->
  fetch T (at_source src la p) = (Ok t, at_source rest (Some t) p).
Proof.
  unfold fetch. destruct la as [t'|]; cbn [stream at_source nextToken].
  - now intros [= -> ->].
  - intros ->. rewrite Hsrc. reflexivity.
Qed.

Lemma fetch_stream_end (p : Parser Demo.Src) :
  fetch T (at_source [] None p)
  = (Ok (Demo.tok "EOF"), at_source [] (Some (Demo.tok "EOF")) p).
Proof. unfold fetch. cbn [at_source nextToken]. rewrite Hsrc. reflexivity. Qed.

Lemma plain_token_text (t : Token.t) (s : string) :
  plain_token t = true ->
  In s ["{"; "}"; "["; "]"; "EOF"] ->
  String.eqb (Token.text t) s = false.
Proof.
  unfold plain_token. intros H Hin. apply negb_true_iff in H.
  destruct (String.eqb (Token.text t) s) eqn:E; [|reflexivity].
  rewrite <- H. symmetry. apply existsb_exists. eauto.
Qed.

(** The loop of [parseStringGroup] over a run of content tokens: each is
    consumed and appended. *)
Lemma parseStringGroup_loop_content (modeName groupBegin groupEnd : string)
      (raw : bool) (firstToken : Token.t) (p : Parser Demo.Src) :
  In groupBegin ["{"; "["] -> In groupEnd ["}"; "]"] ->
  forall (ts rest src : list Token.t) (la : option Token.t)
         (lastToken : Token.t) (str : string) (k : nat),
    forallb plain_token ts = true ->
    stream la src = ts ++ rest ->
    exists la' src',
      stream la' src' = rest
      /\ parseStringGroup_loop T (length ts + k) modeName groupBegin groupEnd
           raw firstToken lastToken str 0 (at_source src la p)
         = parseStringGroup_loop T k modeName groupBegin groupEnd raw
             firstToken (last ts lastToken) (str +++ concat_tokens ts) 0
             (at_source src' la' p).
Proof.
  intros Hb He. induction ts as [|t ts IH]; intros rest src la lastToken str k Hp Hs.
  - exists la, src. split; [exact Hs|]. cbn. now rewrite string_append_empty.
  - cbn [forallb] in Hp. apply andb_true_iff in Hp as [Ht Hp].
    cbn [app] in Hs.
    destruct (IH rest (ts ++ rest) None t (str +++ Token.text t) k Hp eq_refl)
      as (la' & src' & Hs' & Hrun).
    exists la', src'. split; [exact Hs'|].
    cbn [length Nat.add parseStringGroup_loop].
    rewrite (bind_ok _ (fetch_stream _ _ p Hs)).
    assert (E1 : String.eqb (Token.text t) groupEnd = false).
    { apply plain_token_text; [assumption|]. cbn in He |- *. intuition. }
    assert (E2 : String.eqb (Token.text t) groupBegin = false).
    { apply plain_token_text; [assumption|]. cbn in Hb |- *. intuition. }
    assert (E3 : String.eqb (Token.text t) "EOF" = false).
    { apply plain_token_text; [assumption|]. cbn. intuition. }
    rewrite E1, E2, E3. cbn [negb orb].
    unfold consume at 1. unfold bind at 1, modify at 1.
    change (set_nextToken None (at_source (ts ++ rest) (Some t) p))
      with (at_source (ts ++ rest) None p).
    rewrite Hrun. cbn [concat_tokens fold_right].
    now rewrite string_append_assoc, last_default.
Qed.

Lemma expect_stream (src : list Token.t) (t : Token.t) (p : Parser Demo.Src) :
  expect T (Token.text t) true (at_source src (Some t) p)
  = (Ok tt, at_source src None p).
Proof.
  unfold expect.
  rewrite (bind_ok _ (@fetch_stream src src (Some t) t p eq_refl)).
  now rewrite String.eqb_refl.
Qed.

Lemma stream_head (ts rest : list Token.t) (cl : Token.t) :
  ts ++ cl :: rest = hd cl ts :: tl (ts ++ cl :: rest).
Proof. destruct ts; reflexivity. Qed.

(** X22: over a list of tokens, [parseStringGroup] at an opening
    delimiter followed by tokens that are neither delimiter nor [EOF] and
    by the closing delimiter returns one token whose text is the
    concatenation of the texts between the delimiters and whose location
    spans them, consumes the group up to its closing delimiter and nothing
    after it, and leaves the mode as it was. *)
Theorem parseStringGroup_content (fuel : nat) (modeName : string)
        (optional raw : bool) (op cl : Token.t) (ts rest : list Token.t)
        (p : Parser Demo.Src) :
  Token.text op = (if optional then "[" else "{") ->
  Token.text cl = (if optional then "]" else "}") ->
  forallb plain_token ts = true ->
  length ts < fuel ->
  parseStringGroup T fuel modeName optional raw
                   (at_source (op :: ts ++ cl :: rest) None p)
  = (Ok (Some (Token.range (hd cl ts) (last ts (hd cl ts)) (concat_tokens ts))),
     at_source rest None p).
Proof.
  intros Hop Hcl Hts Hfuel. unfold parseStringGroup.
  rewrite (bind_ok _ (@fetch_stream _ _ None op p eq_refl)).
  rewrite Hop, String.eqb_refl. cbn [negb andb].
  rewrite bind_gets.
  unfold bind at 1, modify at 1.
  change (set_mode text (at_source (ts ++ cl :: rest) (Some op) p))
    with (at_source (ts ++ cl :: rest) (Some op) (set_mode text p)).
  rewrite <- Hop. rewrite (bind_ok _ (expect_stream _ op _)).
  rewrite (bind_ok _ (@fetch_stream _ _ None _ _ (stream_head ts rest cl))).
  destruct (@parseStringGroup_loop_content modeName (Token.text op)
              (Token.text cl) raw (hd cl ts) (set_mode text p)
              ltac:(rewrite Hop; destruct optional; cbn; auto)
              ltac:(rewrite Hcl; destruct optional; cbn; auto)
              ts (cl :: rest) (tl (ts ++ cl :: rest)) (Some (hd cl ts))
              (hd cl ts) "" (fuel - length ts) Hts
              (eq_sym (stream_head ts rest cl)))
    as (la' & src' & Hs' & Hrun).
  replace (length ts + (fuel - length ts)) with fuel in Hrun by lia.
  rewrite <- Hcl. unfold bind at 1. rewrite Hrun.
  destruct (fuel - length ts) as [|k] eqn:Hk; [lia|].
  cbn [parseStringGroup_loop].
  rewrite (bind_ok _ (fetch_stream _ _ (set_mode text p) Hs')).
  rewrite String.eqb_refl.
  replace (0 <? 0)%Z with false by reflexivity.
  rewrite andb_false_r. cbn [negb orb].
  unfold ret at 1. cbv iota beta.
  rewrite (bind_ok _ (expect_stream _ cl _)).
  reflexivity.
Qed.

(** X23: over a list of tokens, [parseStringGroup] at an opening
    delimiter followed by tokens that are neither delimiter nor [EOF] up
    to the end of the input raises "Unexpected end of input in" followed by
    the name of the mode, with the text read so far, and leaves the parser
    in text mode. *)
Theorem parseStringGroup_unterminated (fuel : nat) (modeName : string)
        (optional raw : bool) (op : Token.t) (ts : list Token.t)
        (p : Parser Demo.Src) :
  Token.text op = (if optional then "[" else "{") ->
  forallb plain_token ts = true ->
  length ts < fuel ->
  let eof := Demo.tok "EOF" in
  parseStringGroup T fuel modeName optional raw (at_source (op :: ts) None p)
  = (Throw (ParseError ("Unexpected end of input in " +++ modeName)
              (Some (Token.range (hd eof ts) (last ts (hd eof ts))
                                 (concat_tokens ts)))),
     at_source [] (Some eof) (set_mode text p)).
Proof.
  intros Hop Hts Hfuel eof. unfold parseStringGroup.
  rewrite (bind_ok _ (@fetch_stream _ _ None op p eq_refl)).
  rewrite Hop, String.eqb_refl. cbn [negb andb].
  rewrite bind_gets.
  unfold bind at 1, modify at 1.
  change (set_mode text (at_source ts (Some op) p))
    with (at_source ts (Some op) (set_mode text p)).
  rewrite <- Hop. rewrite (bind_ok _ (expect_stream _ op _)).
  assert (Hfirst : fetch T (at_source ts None (set_mode text p))
                   = (Ok (hd eof ts),
                      at_source (tl ts) (Some (hd eof ts)) (set_mode text p))).
  { destruct ts as [|t ts']; [apply fetch_stream_end|].
    now apply fetch_stream. }
  rewrite (bind_ok _ Hfirst).
  assert (Hstream : stream (Some (hd eof ts)) (tl ts) = ts ++ []
                    \/ ts = []).
  { destruct ts; [now right | left]. cbn. now rewrite app_nil_r. }
  assert (Hloop : forall k,
    parseStringGroup_loop T (length ts + S k) modeName (Token.text op)
      (if optional then "]" else "}") raw (hd eof ts) (hd eof ts) "" 0
      (at_source (tl ts) (Some (hd eof ts)) (set_mode text p))
    = (Throw (ParseError ("Unexpected end of input in " +++ modeName)
                (Some (Token.range (hd eof ts) (last ts (hd eof ts))
                                   (concat_tokens ts)))),
       at_source [] (Some eof) (set_mode text p))).
  { intros k. destruct Hstream as [Hs | ->].
    - destruct (@parseStringGroup_loop_content modeName (Token.text op)
                  (if optional then "]" else "}") raw (hd eof ts)
                  (set_mode text p)
                  ltac:(rewrite Hop; destruct optional; cbn; auto)
                  ltac:(destruct optional; cbn; auto)
                  ts [] (tl ts) (Some (hd eof ts)) (hd eof ts) "" (S k) Hts Hs)
        as (la' & src' & Hs' & Hrun).
      rewrite Hrun. destruct la'; [discriminate|]. cbn in Hs'. subst src'.
      cbn [parseStringGroup_loop]. rewrite (bind_ok _ (fetch_stream_end _)).
      destruct optional; reflexivity.
    - cbn [length Nat.add parseStringGroup_loop hd tl].
      rewrite (bind_ok _ (@fetch_stream [] [] (Some eof) eof _ eq_refl)).
      destruct optional; reflexivity. }
  replace fuel with (length ts + S (fuel - length ts - 1)) by lia.
  unfold bind at 1. rewrite Hloop. reflexivity.
Qed.

End ListSource.

(** ** The frame: mode and depth of scopes *)

Lemma keeps_ret (Src A : Type) (a : A) : keeps (ret (Src := Src) a).
Proof. intros p b p' [= _ <-]. reflexivity. Qed.

Lemma keeps_throw (Src A : Type) (e : Error) : keeps (throw (Src := Src) (A := A) e).
Proof. intros p b p' [=]. Qed.

Lemma keeps_diverge (Src A : Type) : keeps (diverge (Src := Src) (A := A)).
Proof. intros p b p' [=]. Qed.

Lemma keeps_gets (Src A : Type) (f : Parser Src -> A) : keeps (gets f).
Proof. intros p b p' [= _ <-]. reflexivity. Qed.

Lemma keeps_bind (Src A B : Type) (m : M Src A) (k : A -> M Src B) :
  keeps m -> (forall a, keeps (k a)) -> keeps (bind m k).
Proof.
  intros Hm Hk p b p' H. bind_inv_at H as a q Ha.
  rewrite (Hk _ _ _ _ H). exact (Hm _ _ _ Ha).
Qed.

Lemma keeps_modify (Src : Type) (f : Parser Src -> Parser Src) :
  (forall p, frame (f p) = frame p) -> keeps (modify f).
Proof. intros Hf p b p' [= _ <-]. apply Hf. Qed.

Ltac frame_step :=
  first
    [ assumption
    | match goal with
      | H : forall _, _ |- keeps _ => solve [apply H]
      end
    | match goal with
      | |- keeps (ret _) => apply keeps_ret
      | |- keeps (throw _) => apply keeps_throw
      | |- keeps diverge => apply keeps_diverge
      | |- keeps (gets _) => apply keeps_gets
      | |- keeps (modify _) => apply keeps_modify; intros ?; reflexivity
      | |- keeps (bind _ _) => apply keeps_bind; [|intros ?]
      | |- keeps (if ?b then _ else _) => destruct b
      | |- keeps (match ?x with _ => _ end) => destruct x
      | |- keeps (when ?b _) => unfold when; destruct b
      | H : mkeeps ?this |- keeps (m_parseExpression ?this _ _) =>
          apply (mk_parseExpression H)
      | H : mkeeps ?this |- keeps (m_handleInfixNodes ?this _) =>
          apply (mk_handleInfixNodes H)
      | H : mkeeps ?this |- keeps (m_handleSupSubscript ?this _) =>
          apply (mk_handleSupSubscript H)
      | H : mkeeps ?this |- keeps (m_parseAtom ?this _) =>
          apply (mk_parseAtom H)
      | H : mkeeps ?this |- keeps (m_parseFunction ?this _ _ _) =>
          apply (mk_parseFunction H)
      | H : mkeeps ?this |- keeps (m_callFunction ?this _ _ _ _ _) =>
          apply (mk_callFunction H)
      | H : mkeeps ?this |- keeps (m_parseGroupOfType ?this _ _ _ _ _) =>
          apply (mk_parseGroupOfType H)
      | H : mkeeps ?this |- keeps (m_parseGroup ?this _ _ _ _ _ _) =>
          apply (mk_parseGroup H)
      end ].

Ltac frames := repeat frame_step.

(** The frame is kept by the computation that [H] says returned. *)
Ltac keeps_in H :=
  match type of H with
  | ?m _ = (Ok _, _) =>
      let K := fresh "K" in
      assert (K : keeps m) by frames; apply K in H; clear K
  end.

Section Frame.

Variable Src : Type.
Variable T : Tables Src.

Hypothesis Hexp : expander_keeps_groups T.

Lemma fetch_keeps : keeps (fetch T).
Proof.
  intros p t p'. unfold fetch. destruct (nextToken p).
  - now intros [= _ <-].
  - destruct (expandNextToken T (gullet p)) as [[t'|e|] g] eqn:E;
      intros [= _ <-]. unfold frame, groups. cbn. now rewrite (Hexp _ E).
Qed.

Lemma consume_keeps : keeps (consume (Src := Src)).
Proof. unfold consume. frames. Qed.

Lemma expect_keeps (txt : string) (c : bool) : keeps (expect T txt c).
Proof. unfold expect. pose proof fetch_keeps. pose proof consume_keeps. frames. Qed.

Lemma consumeSpaces_keeps (fuel : nat) : keeps (consumeSpaces T fuel).
Proof.
  pose proof fetch_keeps. pose proof consume_keeps.
  induction fuel as [|fuel IH]; cbn [consumeSpaces]; frames.
Qed.

Lemma report_keeps (kind message : string) (tok : Token.t) :
  keeps (report T kind message tok).
Proof. unfold report. frames. Qed.

Lemma setCatcode_keeps (c : string) (v : Z) : keeps (setCatcode (Src := Src) c v).
Proof. unfold setCatcode. frames. Qed.

Lemma formatUnsupportedCmd_keeps (txt : string) :
  keeps (formatUnsupportedCmd T txt).
Proof. unfold formatUnsupportedCmd. frames. Qed.

Lemma parseStringGroup_loop_keeps (fuel : nat) :
  forall modeName groupBegin groupEnd raw firstToken lastToken str nested,
    keeps (parseStringGroup_loop T fuel modeName groupBegin groupEnd raw
                                 firstToken lastToken str nested).
Proof.
  pose proof fetch_keeps. pose proof consume_keeps.
  induction fuel as [|fuel IH]; intros; cbn [parseStringGroup_loop]; frames.
Qed.

Lemma parseStringGroup_keeps (fuel : nat) (modeName : string)
      (optional raw : bool) :
  keeps (parseStringGroup T fuel modeName optional raw).
Proof.
  intros p a p' H. unfold parseStringGroup in H.
  bind_inv_at H as tk q Hf. apply fetch_keeps in Hf. rewrite <- Hf.
  destruct (_ && optional); [now apply ret_inv in H as [_ ->]|].
  destruct (_ && _ && _ && _).
  { bind_inv H as u Hc. apply modify_inv in Hc as ->.
    now apply ret_inv in H as [_ ->]. }
  bind_inv H as outerMode Hout. apply gets_inv in Hout as [-> ->].
  bind_inv H as u Hset. apply modify_inv in Hset as ->.
  bind_inv_at H as u1 q1 H1. apply expect_keeps in H1.
  bind_inv_at H as ft q2 H2. apply fetch_keeps in H2.
  bind_inv_at H as [lt str] q3 H3. apply parseStringGroup_loop_keeps in H3.
  bind_inv_at H as u4 q4 H4. apply expect_keeps in H4.
  bind_inv H as u5 H5. apply modify_inv in H5 as ->.
  apply ret_inv in H as [_ ->].
  unfold frame, groups in *. cbn in *. congruence.
Qed.

Lemma parseRegexGroup_loop_keeps (fuel : nat) (regex : string -> bool) :
  forall lastToken str,
    keeps (parseRegexGroup_loop T fuel regex lastToken str).
Proof.
  pose proof fetch_keeps. pose proof consume_keeps.
  induction fuel as [|fuel IH]; intros; cbn [parseRegexGroup_loop]; frames.
Qed.

Lemma parseRegexGroup_keeps (fuel : nat) (regex : string -> bool)
      (modeName : string) :
  keeps (parseRegexGroup T fuel regex modeName).
Proof.
  intros p a p' H. unfold parseRegexGroup in H.
  bind_inv H as outerMode Hout. apply gets_inv in Hout as [-> ->].
  bind_inv H as u Hset. apply modify_inv in Hset as ->.
  bind_inv_at H as ft q1 H1. apply fetch_keeps in H1.
  bind_inv_at H as [lt str] q2 H2. apply parseRegexGroup_loop_keeps in H2.
  destruct (String.eqb str ""); [discriminate|].
  bind_inv H as u3 H3. apply modify_inv in H3 as ->.
  apply ret_inv in H as [_ ->].
  unfold frame, groups in *. cbn in *. congruence.
Qed.

Lemma parseColorGroup_keeps (fuel : nat) (optional : bool) :
  keeps (parseColorGroup T fuel optional).
Proof.
  unfold parseColorGroup.
  pose proof (parseStringGroup_keeps fuel "color" optional false). frames.
Qed.

Lemma parseSizeGroup_keeps (fuel : nat) (optional : bool) :
  keeps (parseSizeGroup T fuel optional).
Proof.
  unfold parseSizeGroup.
  pose proof (parseStringGroup_keeps fuel "size" optional false).
  pose proof (parseRegexGroup_keeps fuel sizeRegex_test "size").
  pose proof fetch_keeps. frames.
Qed.

Lemma parseUrlGroup_keeps (fuel : nat) (optional consumeSpaces_ : bool) :
  keeps (parseUrlGroup T fuel optional consumeSpaces_).
Proof.
  unfold parseUrlGroup.
  pose proof (parseStringGroup_keeps fuel "url" optional true).
  pose proof (@setCatcode_keeps).
  frames.
Qed.

Lemma parseSymbol_accents_keeps (marks : list string) :
  forall nucleus symbol, keeps (parseSymbol_accents T marks nucleus symbol).
Proof.
  induction marks as [|mark marks IH]; intros; cbn [parseSymbol_accents];
    frames.
Qed.

Lemma parseSymbol_keeps : keeps (parseSymbol T).
Proof.
  unfold parseSymbol.
  pose proof fetch_keeps. pose proof consume_keeps.
  pose proof report_keeps. pose proof parseSymbol_accents_keeps.
  frames.
Qed.

Hypothesis Hhandlers : handlers_keep T.

Section FrameBodies.

Variable this : Methods Src.
Hypothesis Hthis : mkeeps this.

Lemma callFunction_keeps name args optArgs tok b :
  keeps (callFunction T this name args optArgs tok b).
Proof.
  unfold callFunction.
  destruct (functions T name) as [spec|] eqn:Hf; [|apply keeps_throw].
  destruct (handler spec) as [h|] eqn:Hh; [|apply keeps_throw].
  eapply Hhandlers; eauto.
Qed.

Lemma handleInfixNodes_keeps body : keeps (handleInfixNodes this body).
Proof. unfold handleInfixNodes. frames. Qed.

Lemma handleSupSubscript_keeps name : keeps (handleSupSubscript T this name).
Proof.
  unfold handleSupSubscript. pose proof fetch_keeps. pose proof consume_keeps.
  frames.
Qed.

Lemma parseExpression_loop_keeps (fuel steps : nat) :
  forall bi bt body, keeps (parseExpression_loop T this fuel steps bi bt body).
Proof.
  pose proof fetch_keeps. pose proof (consumeSpaces_keeps fuel).
  induction steps as [|steps IH]; intros; cbn [parseExpression_loop]; frames.
Qed.

Lemma parseExpression_keeps (fuel : nat) bi bt :
  keeps (parseExpression T this fuel bi bt).
Proof.
  unfold parseExpression. pose proof (parseExpression_loop_keeps fuel fuel).
  frames.
Qed.

Lemma parseAtom_primes_keeps (steps : nat) :
  forall prime primes, keeps (parseAtom_primes T steps prime primes).
Proof.
  pose proof fetch_keeps. pose proof consume_keeps.
  induction steps as [|steps IH]; intros; cbn [parseAtom_primes]; frames.
Qed.

Lemma parseAtom_loop_keeps (fuel steps : nat) :
  forall base sup sub, keeps (parseAtom_loop T this fuel steps base sup sub).
Proof.
  pose proof fetch_keeps. pose proof consume_keeps.
  pose proof (consumeSpaces_keeps fuel).
  pose proof (parseAtom_primes_keeps fuel).
  induction steps as [|steps IH]; intros; cbn [parseAtom_loop]; frames.
Qed.

Lemma parseAtom_keeps (fuel : nat) bt : keeps (parseAtom T this fuel bt).
Proof.
  unfold parseAtom. pose proof (parseAtom_loop_keeps fuel fuel). frames.
Qed.

Lemma parseArguments_loop_keeps (count : nat) :
  forall i func funcData args optArgs,
    keeps (parseArguments_loop T this count i func funcData args optArgs).
Proof.
  pose proof fetch_keeps.
  induction count as [|count IH]; intros; cbn [parseArguments_loop]; frames.
Qed.

Lemma parseArguments_keeps func funcData :
  keeps (parseArguments T this func funcData).
Proof.
  unfold parseArguments. pose proof parseArguments_loop_keeps. frames.
Qed.

Lemma parseFunction_keeps bt name g : keeps (parseFunction T this bt name g).
Proof.
  unfold parseFunction. pose proof fetch_keeps. pose proof consume_keeps.
  pose proof parseArguments_keeps. frames.
Qed.

Lemma parseGroupOfType_keeps (fuel : nat) name type optional g c :
  keeps (parseGroupOfType T this fuel name type optional g c).
Proof.
  unfold parseGroupOfType. pose proof fetch_keeps.
  pose proof (consumeSpaces_keeps fuel).
  pose proof (parseColorGroup_keeps fuel). pose proof (parseSizeGroup_keeps fuel).
  pose proof (parseUrlGroup_keeps fuel). pose proof (parseStringGroup_keeps fuel).
  frames.
Qed.

Lemma parseGroup_keeps (fuel : nat) name optional g bt mode_ c :
  keeps (parseGroup T this fuel name optional g bt mode_ c).
Proof.
  pose proof fetch_keeps as Kf. pose proof consume_keeps as Kc.
  pose proof (consumeSpaces_keeps fuel) as Ks.
  pose proof parseSymbol_keeps as Ky.
  pose proof formatUnsupportedCmd_keeps as Ku.
  pose proof expect_keeps as Ke.
  intros p a p' H. unfold parseGroup in H.
  bind_inv H as outerMode Hout. apply gets_inv in Hout as [-> ->].
  bind_inv_at H as u0 q0 H0.
  bind_inv_at H as u1 q1 H1. keeps_in H1.
  bind_inv_at H as firstToken q2 H2. keeps_in H2.
  bind_inv_at H as result q3 H3.
  bind_inv_at H as u4 q4 H4.
  apply ret_inv in H as [_ ->].
  assert (E3 : frame q3 = frame q2).
  { destruct (if optional then _ else _).
    - bind_inv H3 as v0 G0. apply modify_inv in G0 as ->.
      bind_inv H3 as v1 G1. apply modify_inv in G1 as ->.
      bind_inv_at H3 as e r2 G2. keeps_in G2.
      bind_inv_at H3 as lt r3 G3. keeps_in G3.
      bind_inv_at H3 as v4 r4 G4. keeps_in G4.
      bind_inv H3 as v5 G5. apply modify_inv in G5 as ->.
      bind_inv H3 as m Hm. apply gets_inv in Hm as [_ ->].
      apply ret_inv in H3 as [_ ->].
      unfold frame, groups in *. cbn in *.
      injection G2 as E2 N2. injection G3 as E3 N3. injection G4 as E4 N4.
      f_equal; [congruence | lia].
    - keeps_in H3. exact H3. }
  destruct mode_ as [m|].
  - apply modify_inv in H0 as ->. apply modify_inv in H4 as ->.
    unfold frame, groups in *. cbn in *. congruence.
  - apply ret_inv in H0 as [_ ->]. apply ret_inv in H4 as [_ ->]. congruence.
Qed.

End FrameBodies.

Lemma parser_keeps (fuel : nat) : mkeeps (parser T fuel).
Proof.
  induction fuel as [|fuel IH].
  - constructor; intros; apply keeps_diverge.
  - constructor; intros; cbn [parser m_parseExpression m_handleInfixNodes
      m_handleSupSubscript m_parseAtom m_parseFunction m_callFunction
      m_parseGroupOfType m_parseGroup].
    + now apply parseExpression_keeps.
    + now apply handleInfixNodes_keeps.
    + now apply handleSupSubscript_keeps.
    + now apply parseAtom_keeps.
    + now apply parseFunction_keeps.
    + now apply callFunction_keeps.
    + now apply parseGroupOfType_keeps.
    + now apply parseGroup_keeps.
Qed.

Lemma parse_keeps (fuel : nat) : keeps (parse T fuel).
Proof.
  pose proof (parser_keeps fuel) as Hp. pose proof expect_keeps as Ke.
  intros p a p' H. unfold parse in H.
  bind_inv_at H as u0 q0 H0.
  bind_inv_at H as u1 q1 H1. keeps_in H1.
  bind_inv_at H as r q2 H2. keeps_in H2.
  bind_inv_at H as u3 q3 H3. keeps_in H3.
  bind_inv_at H as u4 q4 H4.
  apply ret_inv in H as [_ ->].
  destruct (globalGroup (settings T)); cbn [negb when] in H0, H4.
  - apply ret_inv in H0 as [_ ->]. apply ret_inv in H4 as [_ ->]. congruence.
  - apply modify_inv in H0 as ->. apply modify_inv in H4 as ->.
    unfold frame, groups in *. cbn in *.
    injection H1 as E1 N1. injection H2 as E2 N2. injection H3 as E3 N3.
    f_equal; [congruence | lia].
Qed.

End Frame.

(** X24: a call of [parseGroup] that returns, with or without an explicit
    mode, leaves the parser in the mode it was in and the token interface
    at the depth of scopes it was at: the scope a bracketed group opens is
    closed again.  The token interface is assumed to open and close no scope
    on its own, and the handlers to keep mode and depth. *)
Theorem parseGroup_balanced (Src : Type) (T : Tables Src) (n fuel : nat)
        (name : string) (optional : bool) (greediness_ : option Z)
        (breakOnTokenText : option string) (mode_ : option Mode)
        (consumeSpaces_ : bool) (p p' : Parser Src)
        (r : option AnyParseNode) :
  expander_keeps_groups T ->
  handlers_keep T ->
  parseGroup T (parser T n) fuel name optional greediness_ breakOnTokenText
             mode_ consumeSpaces_ p = (Ok r, p') ->
  mode p' = mode p /\ me_groups (gullet p') = me_groups (gullet p).
Proof.
  intros He Hh H.
  apply (parseGroup_keeps He (parser_keeps He Hh n)) in H.
  now injection H.
Qed.

(** X25: a call of [parse()] that returns leaves the parser in the mode it
    was in and the token interface at the depth of scopes it was at, under
    the same assumptions on the token interface and the handlers. *)
Theorem parse_balanced (Src : Type) (T : Tables Src) (fuel : nat)
        (p p' : Parser Src) (r : list AnyParseNode) :
  expander_keeps_groups T ->
  handlers_keep T ->
  parse T fuel p = (Ok r, p') ->
  mode p' = mode p /\ me_groups (gullet p') = me_groups (gullet p).
Proof.
  intros He Hh H. apply (parse_keeps He Hh) in H. now injection H.
Qed.

(** ** The properties on the concrete registry *)

Lemma Demo_expander_keeps_groups (throwOnError : bool) :
  expander_keeps_groups (Demo.tables throwOnError).
Proof.
  intros g r g'. cbn [expandNextToken Demo.tables].
  unfold Demo.expandNextToken.
  destruct (me_source g); intros [= _ <-]; reflexivity.
Qed.

Lemma assertNodeType_keeps (Src : Type) (node : option AnyParseNode)
      (type : string) :
  keeps (assertNodeType (Src := Src) node type).
Proof. unfold assertNodeType. frames. Qed.

Lemma Demo_handlers_keep (throwOnError : bool) :
  handlers_keep (Demo.tables throwOnError).
Proof.
  intros name spec h this context args optArgs Hf Hh _.
  cbn [functions Demo.tables] in Hf. unfold Demo.functions in Hf.
  destruct (String.eqb name "\over");
    [injection Hf as <-; injection Hh as <-; unfold Demo.over_handler; frames|].
  destruct (String.eqb name "\frac");
    [injection Hf as <-; injection Hh as <-; unfold Demo.frac_handler; frames|].
  destruct (String.eqb name "\zInput"); [|discriminate].
  injection Hf as <-. injection Hh as <-.
  pose proof (@assertNodeType_keeps Demo.Src).
  unfold zInput_handler. frames.
Qed.

Lemma consumeSpaces_lookahead_witness :
  let T := Demo.tables true in
  let p := Demo.newParser [" "; " "; "x"] in
  exists tok,
    nextToken (snd (consumeSpaces T 5 p)) = Some tok /\ Token.text tok <> " ".
Proof.
  intros T p.
  apply (@consumeSpaces_lookahead Demo.Src T 5 p (snd (consumeSpaces T 5 p))).
  vm_compute. reflexivity.
Defined.

Lemma handleInfixNodes_without_infix_witness :
  let T := Demo.tables true in
  let p := Demo.newParser [] in
  handleInfixNodes (parser T 1) [Results.x; Results.prime] p
  = (Ok [Results.x; Results.prime], p).
Proof.
  intros T p.
  apply (@handleInfixNodes_without_infix Demo.Src (parser T 1)
           [Results.x; Results.prime] p).
  repeat constructor.
Defined.

Lemma handleInfixNodes_unregistered_witness :
  let T := Demo.tables true in
  let p := Demo.newParser [] in
  handleInfixNodes (parser T 1)
                   [Results.x; Infix math "\atop" None; Results.x] p
  = (Throw (ParseError "No function handler for \atop" None), p).
Proof.
  intros T p.
  apply (@handleInfixNodes_unregistered Demo.Src T 0
           [Results.x; Infix math "\atop" None; Results.x] 1
           (Infix math "\atop" None) "\atop" p).
  - reflexivity.
  - reflexivity.
  - intros j n Hj Hn. destruct j as [|[|[|j]]].
    + injection Hn as <-. reflexivity.
    + now elim Hj.
    + injection Hn as <-. reflexivity.
    + destruct j; discriminate.
  - reflexivity.
  - discriminate.
  - left. reflexivity.
Defined.

Lemma parseArguments_arity_witness :
  length [Symbol mathord math None "a"; Symbol mathord math None "b"] = 2
  /\ length (@nil (option AnyParseNode)) = 0.
Proof.
  pose (T := Demo.tables true).
  pose (spec := mkFunctionSpec 2 0 None 2 false true false
                               (Some Demo.frac_handler)).
  pose (p := Demo.newParser ["a"; "b"]).
  apply (@parseArguments_arity Demo.Src T (parser T 5) "\frac" spec p
           (snd (parseArguments T (parser T 5) "\frac" spec p))
           [Symbol mathord math None "a"; Symbol mathord math None "b"] []).
  vm_compute. reflexivity.
Defined.

Lemma parseFunction_rejects_witness :
  let T := Demo.tables true in
  let p := Demo.newParser ["\frac"] in
  parseFunction T (parser T 5) None (Some "superscript") (Some 2%Z) p
  = (Throw (ParseError
              "Got function '\frac' with no arguments as superscript"
              (Some (Demo.tok "\frac"))),
     set_nextToken None (snd (fetch T p))).
Proof.
  intros T p.
  refine (proj1 (@parseFunction_rejects Demo.Src T (parser T 5) None
                   (Some "superscript") (Some 2%Z) p (snd (fetch T p))
                   (Demo.tok "\frac")
                   (mkFunctionSpec 2 0 None 2 false true false
                                   (Some Demo.frac_handler)) _ _)
                2%Z eq_refl _).
  - reflexivity.
  - reflexivity.
  - cbn. lia.
Defined.

Lemma parseSymbol_consumes_witness :
  let T := Demo.tables true in
  nextToken (snd (parseSymbol T (Demo.newParser ["x"; "y"]))) = None.
Proof.
  intros T.
  apply (@parseSymbol_consumes Demo.Src T (Demo.newParser ["x"; "y"])
           (snd (parseSymbol T (Demo.newParser ["x"; "y"])))
           (Some Results.x)).
  vm_compute. reflexivity.
Defined.

Lemma parseSymbol_verb_witness :
  let T := Demo.tables true in
  let p := Demo.newParser ["\verb|a^b|"] in
  parseSymbol T p
  = (Ok (Some (Verb text "a^b" false)), set_nextToken None (snd (fetch T p))).
Proof.
  intros T p.
  apply (@parseSymbol_verb Demo.Src T p (snd (fetch T p))
           (Demo.tok "\verb|a^b|") "|"%char "a^b" false).
  - reflexivity.
  - reflexivity.
  - intros _. split; [reflexivity | discriminate].
Defined.

Lemma parseRegexGroup_matches_witness :
  let T := Demo.tables true in
  let p := Demo.newParser ["1"; "."; "5"; "e"; "m"; "x"] in
  let run := parseRegexGroup T 10 sizeRegex_test "size" p in
  sizeRegex_test "1.5em" = true
  /\ "1.5em" <> ""
  /\ mode (snd run) = mode p
  /\ exists next,
       nextToken (snd run) = Some next
       /\ (Token.text next = "EOF"
           \/ sizeRegex_test ("1.5em" +++ Token.text next) = false).
Proof.
  intros T p run.
  apply (@parseRegexGroup_matches Demo.Src T 10 sizeRegex_test "size" p
           (snd run) (Demo.tok "1.5em")).
  vm_compute. reflexivity.
Defined.

Lemma parseColorGroup_color_witness :
  let T := Demo.tables true in
  let p := Demo.newParser ["{"; "f"; "f"; "0"; "0"; "0"; "0"; "}"] in
  let run := parseColorGroup T 10 false p in
  fst run = Ok (Some (ColorToken math "#ff0000"))
  /\ exists color,
       ColorToken math "#ff0000" = ColorToken (mode (snd run)) color
       /\ colorRegex_exec color = Some color
       /\ hex6Regex_test color = false.
Proof.
  intros T p run. split; [vm_compute; reflexivity|].
  apply (@parseColorGroup_color Demo.Src T 10 false p (snd run)
           (ColorToken math "#ff0000")).
  vm_compute. reflexivity.
Defined.

Lemma parseSizeGroup_size_witness :
  let T := Demo.tables true in
  let p := Demo.newParser ["{"; "}"] in
  let run := parseSizeGroup T 10 false p in
  let node := Size math (mkMeasurement (Num 0) "pt") true in
  fst run = Ok (Some node)
  /\ exists value isBlank,
       node = Size (mode (snd run)) value isBlank
       /\ validUnit T value = true
       /\ String.length (m_unit value) = 2
       /\ all_chars is_lower (m_unit value) = true
       /\ (isBlank = true ->
           false = false /\ value = mkMeasurement (Num 0) "pt").
Proof.
  intros T p run node. split; [vm_compute; reflexivity|].
  apply (@parseSizeGroup_size Demo.Src T 10 false p (snd run) node).
  vm_compute. reflexivity.
Defined.

Lemma parseStringGroup_content_witness :
  let T := Demo.tables true in
  let p := Demo.newParser [] in
  let ts := map Demo.tok ["r"; "e"; "d"] in
  parseStringGroup T 10 "color" false false
    (at_source (Demo.tok "{" :: ts ++ Demo.tok "}" :: [Demo.tok "x"]) None p)
  = (Ok (Some (Token.range (Demo.tok "r") (Demo.tok "d") "red")),
     at_source [Demo.tok "x"] None p).
Proof.
  intros T p ts.
  apply (@parseStringGroup_content T eq_refl 10 "color" false false
           (Demo.tok "{") (Demo.tok "}") ts [Demo.tok "x"] p).
  - reflexivity.
  - reflexivity.
  - reflexivity.
  - cbn. lia.
Defined.

Lemma parseStringGroup_unterminated_witness :
  let T := Demo.tables true in
  let p := Demo.newParser [] in
  let ts := map Demo.tok ["r"; "e"] in
  parseStringGroup T 10 "color" false false
                   (at_source (Demo.tok "{" :: ts) None p)
  = (Throw (ParseError "Unexpected end of input in color"
              (Some (Token.range (Demo.tok "r") (Demo.tok "e") "re"))),
     at_source [] (Some (Demo.tok "EOF")) (set_mode text p)).
Proof.
  intros T p ts.
  apply (@parseStringGroup_unterminated T eq_refl 10 "color" false false
           (Demo.tok "{") ts p).
  - reflexivity.
  - reflexivity.
  - cbn. lia.
Defined.

Lemma parseGroup_undefined_throws_witness :
  let T := Demo.tables true in
  let p := snd (fetch T (Demo.newParser ["\foo"])) in
  parseGroup T (parser T 3) 3 "atom" false None None None false p
  = (Throw (ParseError "Undefined control sequence: \foo"
                       (Some (Demo.tok "\foo"))), p).
Proof.
  intros T p.
  apply (@parseGroup_undefined_throws Demo.Src T 3 2 "atom" None None p
           (Demo.tok "\foo")); try reflexivity.
  discriminate.
Defined.

Lemma optional_argument_absent_witness :
  let T := Demo.tables true in
  let p := Demo.newParser ["x"] in
  let p1 := snd (fetch T p) in
  let run type :=
    parseGroupOfType T (parser T 3) 5 "argument" type true None false p in
  run (Some arg_size) = (Ok None, p1)
  /\ run (Some arg_raw)
     = (Throw (ParseError "Expected raw group" (Some (Demo.tok "x"))), p1).
Proof.
  intros T p p1 run.
  destruct (@optional_argument_absent Demo.Src T 2 5 "argument" None p p1
              (Demo.tok "x") eq_refl ltac:(discriminate))
    as (_ & Hsize & _ & _ & _ & Hraw).
  split; [exact Hsize | apply Hraw; discriminate].
Defined.

Lemma parseAtom_supsub_witness :
  let T := Demo.tables true in
  let p := Demo.newParser ["^"; "2"] in
  let run := parseAtom_loop T (parser T 5) 5 5 (Some Results.x) None None p in
  exists base',
    with_limits (Some Results.x) base'
    /\ (Some (Supsub math (Some Results.x)
                     (Some (Symbol textord math None "2")) None) = base'
        \/ exists sup sub,
             Some (Supsub math (Some Results.x)
                          (Some (Symbol textord math None "2")) None)
             = Some (Supsub (mode (snd run)) base' sup sub)
             /\ (sup <> None \/ sub <> None)).
Proof.
  intros T p run.
  apply (@parseAtom_supsub Demo.Src T (parser T 5) 5 5 (Some Results.x)
           (Some (Supsub math (Some Results.x)
                         (Some (Symbol textord math None "2")) None))
           p (snd run)).
  vm_compute. reflexivity.
Defined.

Lemma parseAtom_limits_error_witness :
  let T := Demo.tables true in
  let p := Demo.newParser ["\limits"] in
  parseAtom_loop T (parser T 5) 5 1 (Some Results.x) None None p
  = (Throw (ParseError "Limit controls must follow a math operator"
                       (Some (Demo.tok "\limits"))),
     snd (fetch T p)).
Proof.
  intros T p.
  apply (@parseAtom_limits_error Demo.Src T (parser T 5) 5 0 (Some Results.x)
           None None p (snd (fetch T p)) (snd (fetch T p))
           (Demo.tok "\limits")).
  - reflexivity.
  - reflexivity.
  - left. reflexivity.
  - split; [discriminate | left; discriminate].
Defined.

Lemma parse_reads_to_EOF_witness :
  let T := Demo.tables true in
  let run := parse T 20 (Demo.newParser ["x"; "'"; "'"]) in
  nextToken (snd run) = None
  /\ exists p0 p1 p2 eof,
       m_parseExpression (parser T 20) false None p0 = (Ok Results.x_primes, p1)
       /\ fetch T p1 = (Ok eof, p2)
       /\ Token.text eof = "EOF".
Proof.
  intros T run.
  apply (@parse_reads_to_EOF Demo.Src T 20 (Demo.newParser ["x"; "'"; "'"])
           (snd run) Results.x_primes).
  vm_compute. reflexivity.
Defined.

Lemma parse_trailing_input_witness :
  let T := Demo.tables true in
  let p := Demo.newParser ["x"; "}"] in
  fst (parse T 20 p)
  = Throw (ParseError "Expected 'EOF', got '}'" (Some (Demo.tok "}"))).
Proof.
  intros T p.
  pose (p0 := set_gullet (gullet_beginGroup (gullet p)) p).
  pose (p1 := snd (m_parseExpression (parser T 20) false None p0)).
  rewrite (@parse_trailing_input Demo.Src T 20 p p1 (snd (fetch T p1))
             [Results.x] (Demo.tok "}")).
  - reflexivity.
  - vm_compute. reflexivity.
  - vm_compute. reflexivity.
  - discriminate.
Defined.

Lemma parseExpression_at_terminator_witness :
  let T := Demo.tables true in
  let p := snd (fetch T (Demo.newParser ["}"; "x"])) in
  parseExpression T (parser T 1) 1 false (Some "]") p = (Ok [], p).
Proof.
  intros T p.
  apply (@parseExpression_at_terminator Demo.Src T 0 0 false (Some "]") p
           (Demo.tok "}")).
  - reflexivity.
  - discriminate.
  - left. cbn. auto.
Defined.

Lemma parseStringGroup_restores_mode_witness :
  let T := Demo.tables true in
  let p := Demo.newParser ["{"; "r"; "e"; "d"; "}"] in
  mode (snd (parseStringGroup T 10 "color" false false p)) = mode p.
Proof.
  intros T p.
  apply (@parseStringGroup_restores_mode Demo.Src T 10 "color" false false p
           (snd (parseStringGroup T 10 "color" false false p))
           (Some (Demo.tok "red"))).
  vm_compute. reflexivity.
Defined.

Lemma parseGroup_balanced_witness :
  let T := Demo.tables true in
  let p := Demo.newParser ["{"; "a"; "{"; "b"; "}"; "}"] in
  let run := parseGroup T (parser T 10) 10 "atom" false None None None false p in
  mode (snd run) = mode p
  /\ me_groups (gullet (snd run)) = me_groups (gullet p).
Proof.
  intros T p run.
  apply (@parseGroup_balanced Demo.Src T 10 10 "atom" false None None None
           false p (snd run)
           (Some (Ordgroup math None
                    [Symbol mathord math None "a";
                     Ordgroup math None [Symbol mathord math None "b"] false]
                    false))).
  - apply Demo_expander_keeps_groups.
  - apply Demo_handlers_keep.
  - vm_compute. reflexivity.
Defined.

Lemma parse_balanced_witness :
  let T := Demo.tables true in
  let p := Demo.newParser ["a"; "\over"; "b"] in
  let run := parse T 20 p in
  mode (snd run) = mode p
  /\ me_groups (gullet (snd run)) = me_groups (gullet p).
Proof.
  intros T p run.
  apply (@parse_balanced Demo.Src T 20 p (snd run) Results.a_over_b).
  - apply Demo_expander_keeps_groups.
  - apply Demo_handlers_keep.
  - vm_compute. reflexivity.
Defined.
